(** * HYTOPIA Chess: the match state machine and the computer opponent

    A shallow embedding of [src/gameplay/chess/types.ts], [game.ts], [ai.ts]
    and of the room handlers of [index.ts].  The rules library (chess.js) is
    external: it appears as the class [Engine], whose operations are the
    methods the code calls on a [Chess] object, written as state passing.
    [Math.random] is external as well and appears as the class [Entropy]. *)

From Stdlib Require Import ZArith Ascii String List Permutation Lia Bool Setoid.
From Stdlib Require Import QArith Qround.
From stdpp Require Import base option gmap strings.
Import ListNotations.

Close Scope Q_scope.
Local Open Scope string_scope.

(** ** types.ts *)

Inductive Difficulty := easy | medium | hard.
Inductive Mode := solo | duo.

(** [PlayerColor = "w" | "b"]. *)
Inductive PlayerColor := White | Black.

Definition color_eqb (x y : PlayerColor) : bool :=
  match x, y with
  | White, White | Black, Black => true
  | _, _ => false
  end.

(** [c === "w" ? "b" : "w"]. *)
Definition other (c : PlayerColor) : PlayerColor :=
  match c with White => Black | Black => White end.

Record LobbySelection := mkSelection {
  mode : Mode;
  difficulty : Difficulty
}.

(** ** The rules library, as the code uses it *)

(** [PieceSymbol] of chess.js, the keys of [PIECE_VALUES]. *)
Inductive PieceSymbol := pawn | knight | bishop | rook | queen | king.

Record Piece := mkPiece {
  p_type : PieceSymbol;
  p_color : PlayerColor
}.

(** A verbose move of chess.js, with the fields the code reads:
    [from], [to], [promotion] and [captured]. *)
Record Move := mkMove {
  m_from : string;
  m_to : string;
  m_promotion : option string;
  m_captured : option PieceSymbol
}.

(** The argument of [chess.move({ from, to, promotion })]. *)
Record MoveReq := mkReq {
  r_from : string;
  r_to : string;
  r_promotion : option string
}.

(** The methods of a [Chess] object.  A mutating method takes the state of
    the object and returns the new one.  [move] answers [None] for a move
    the library does not take, and then the object is as it was; the
    library (chess.js 1.x, the release with the methods below) reports
    such a move by throwing an [Error], "Invalid move", and returns a move
    object in every other case, never [null]. *)
Class Engine := {
  Chess : Type;
  newChess : Chess;                       (* new Chess(), chess.reset() *)
  loadFen : string -> Chess;              (* new Chess(fen) *)
  fen : Chess -> string;
  turn : Chess -> PlayerColor;
  board : Chess -> list (list (option Piece));
  moves : Chess -> list Move;
  move : Chess -> MoveReq -> option (Move * Chess);
  undo : Chess -> Chess;
  isCheck : Chess -> bool;
  isCheckmate : Chess -> bool;
  isStalemate : Chess -> bool;
  isDraw : Chess -> bool;
  isThreefoldRepetition : Chess -> bool;
  isInsufficientMaterial : Chess -> bool;
  isGameOver : Chess -> bool
}.

(** [Math.random]: [random] is one call of [Math.random()], a number from
    0 up to, and without, 1, taken as an exact fraction; [random_sort] is
    [arr.sort(() => Math.random() - 0.5)], whose order is up to the
    JavaScript engine. *)
Class Entropy := {
  Rng : Type;
  random : Rng -> Q * Rng;
  random_sort : Rng -> list Move -> list Move * Rng
}.

(** [Math.floor(u * n)] for a value [u] of [Math.random()]. *)
Definition pick_index (u : Q) (n : nat) : nat :=
  Z.to_nat (Qfloor (u * inject_Z (Z.of_nat n))).

(** [Math.floor(Math.random() * n)] *)
Definition random_index {R : Entropy} (g : Rng) (n : nat) : nat * Rng :=
  let '(u, g') := random g in (pick_index u n, g').

(** JavaScript numbers as the search uses them: integers and the two
    infinities. *)
Inductive Score := NegInf | Fin (z : Z) | PosInf.

(** [x < y] *)
Definition slt (x y : Score) : bool :=
  match x, y with
  | NegInf, NegInf => false
  | NegInf, _ => true
  | Fin _, NegInf => false
  | Fin a, Fin c => (a <? c)%Z
  | Fin _, PosInf => true
  | PosInf, _ => false
  end.

(** [x <= y] *)
Definition sle (x y : Score) : bool :=
  match x, y with
  | NegInf, _ => true
  | Fin _, NegInf => false
  | Fin a, Fin c => (a <=? c)%Z
  | Fin _, PosInf => true
  | PosInf, PosInf => true
  | PosInf, _ => false
  end.

(** [Math.max(x, y)] *)
Definition smax (x y : Score) : Score :=
  match x, y with
  | NegInf, _ => y
  | _, NegInf => x
  | PosInf, _ | _, PosInf => PosInf
  | Fin a, Fin c => Fin (Z.max a c)
  end.

(** [Math.min(x, y)] *)
Definition smin (x y : Score) : Score :=
  match x, y with
  | PosInf, _ => y
  | _, PosInf => x
  | NegInf, _ | _, NegInf => NegInf
  | Fin a, Fin c => Fin (Z.min a c)
  end.

(** [-x] *)
Definition sneg (x : Score) : Score :=
  match x with
  | NegInf => PosInf
  | Fin a => Fin (- a)
  | PosInf => NegInf
  end.

(** What a call does in JavaScript: it returns a value or throws. *)
Inductive Completion (A : Type) :=
  | Normal (a : A)
  | Throw (e : string).
Arguments Normal {A} a.
Arguments Throw {A} e.

(** [s.slice(i, j)] for [0 <= i <= j]. *)
Definition slice (i j : nat) (s : string) : string := substring i (j - i) s.

(** [s || undefined] *)
Definition or_undefined (s : string) : option string :=
  match s with
  | EmptyString => None
  | _ => Some s
  end.

(** [m.from + m.to + (m.promotion ? m.promotion : "")] *)
Definition uci_of (m : Move) : string :=
  m_from m +:+ m_to m +:+ match m_promotion m with Some p => p | None => "" end.

(** [{ from: uci.slice(0, 2), to: uci.slice(2, 4), promotion: uci.slice(4, 5) || undefined }] *)
Definition req_of_uci (uci : string) : MoveReq :=
  mkReq (slice 0 2 uci) (slice 2 4 uci) (or_undefined (slice 4 5 uci)).

(** A verbose move passed to [chess.move(m)]: the library reads its
    [from], [to] and [promotion]. *)
Definition req_of_move (m : Move) : MoveReq :=
  mkReq (m_from m) (m_to m) (m_promotion m).

(** ** game.ts *)

Record Seat := mkSeat {
  playerId : string;
  color : PlayerColor
}.

(** [Partial<Record<PlayerColor, Seat>>]: the keys [w] and [b], each present
    or not. *)
Record Seats := mkSeats {
  seat_w : option Seat;
  seat_b : option Seat
}.

Definition no_seats : Seats := mkSeats None None.

(** [seats[c]] *)
Definition seat_at (s : Seats) (c : PlayerColor) : option Seat :=
  match c with White => seat_w s | Black => seat_b s end.

(** [seats[c] = x] *)
Definition seat_put (s : Seats) (c : PlayerColor) (x : Seat) : Seats :=
  match c with
  | White => mkSeats (Some x) (seat_b s)
  | Black => mkSeats (seat_w s) (Some x)
  end.

Inductive Status := lobby | playing | ended.

Definition status_eqb (x y : Status) : bool :=
  match x, y with
  | lobby, lobby | playing, playing | ended, ended => true
  | _, _ => false
  end.

Definition mode_eqb (x y : Mode) : bool :=
  match x, y with
  | solo, solo | duo, duo => true
  | _, _ => false
  end.

Inductive GameStatus := gs_playing | gs_check | gs_checkmate | gs_stalemate | gs_draw.

(** What [assignSeat] returns: [{ ok, color?, reason? }]. *)
Record SeatReply := mkSeatReply {
  sr_ok : bool;
  sr_color : option PlayerColor;
  sr_reason : option string
}.

(** What [applyMove] returns: [{ ok, reason? }]. *)
Record MoveReply := mkMoveReply {
  mr_ok : bool;
  mr_reason : option string
}.

(** [UiState], the snapshot sent to a viewer; the optional [legalMoves] of
    the game screen is never filled in by the code and is left out. *)
Inductive EndResult := result_white | result_black | result_draw.

Inductive UiState :=
  | LobbyScreen (ui_mode : Mode) (ui_difficulty : Difficulty) (waitingForOpponent : bool)
  | GameScreen (ui_fen : string) (ui_turn yourColor : PlayerColor) (ui_status : GameStatus)
               (ui_winner : option PlayerColor) (ui_lastMove : option string)
  | EndScreen (ui_result : EndResult) (ui_reason : string).

Section Game.
Context {E : Engine} {R : Entropy}.

Record ChessRoom := mkRoom {
  room_id : string;
  selection : LobbySelection;
  seats : Seats;
  chess : Chess;
  status : Status;
  winner : option PlayerColor;
  endReason : option string;
  lastMove : option string
}.

Definition set_selection (r : ChessRoom) (x : LobbySelection) : ChessRoom :=
  mkRoom (room_id r) x (seats r) (chess r) (status r) (winner r) (endReason r) (lastMove r).
Definition set_seats (r : ChessRoom) (x : Seats) : ChessRoom :=
  mkRoom (room_id r) (selection r) x (chess r) (status r) (winner r) (endReason r) (lastMove r).
Definition set_chess (r : ChessRoom) (x : Chess) : ChessRoom :=
  mkRoom (room_id r) (selection r) (seats r) x (status r) (winner r) (endReason r) (lastMove r).
Definition set_status (r : ChessRoom) (x : Status) : ChessRoom :=
  mkRoom (room_id r) (selection r) (seats r) (chess r) x (winner r) (endReason r) (lastMove r).
Definition set_winner (r : ChessRoom) (x : option PlayerColor) : ChessRoom :=
  mkRoom (room_id r) (selection r) (seats r) (chess r) (status r) x (endReason r) (lastMove r).
Definition set_endReason (r : ChessRoom) (x : option string) : ChessRoom :=
  mkRoom (room_id r) (selection r) (seats r) (chess r) (status r) (winner r) x (lastMove r).
Definition set_lastMove (r : ChessRoom) (x : option string) : ChessRoom :=
  mkRoom (room_id r) (selection r) (seats r) (chess r) (status r) (winner r) (endReason r) x.

Definition defaultSelection : LobbySelection := mkSelection solo easy.

Definition createRoom (id : string) : ChessRoom :=
  mkRoom id defaultSelection no_seats newChess lobby None None None.

(** [room.seats[c]?.playerId === playerId] *)
Definition seated_as (r : ChessRoom) (c : PlayerColor) (pid : string) : bool :=
  match seat_at (seats r) c with
  | Some s => String.eqb (playerId s) pid
  | None => false
  end.

Definition assignSeat (r : ChessRoom) (pid : string) : ChessRoom * SeatReply :=
  if seated_as r White pid then (r, mkSeatReply true (Some White) None)
  else if seated_as r Black pid then (r, mkSeatReply true (Some Black) None)
  else
    match mode (selection r) with
    | solo =>
        match seat_w (seats r) with
        | Some s =>
            if negb (String.eqb (playerId s) pid)
            then (r, mkSeatReply false None (Some "Room already has a solo player."))
            else
              (set_seats r (seat_put (seat_put (seats r) White (mkSeat pid White))
                                     Black (mkSeat "AI" Black)),
               mkSeatReply true (Some White) None)
        | None =>
            (set_seats r (seat_put (seat_put (seats r) White (mkSeat pid White))
                                   Black (mkSeat "AI" Black)),
             mkSeatReply true (Some White) None)
        end
    | duo =>
        match seat_w (seats r) with
        | None =>
            (set_seats r (seat_put (seats r) White (mkSeat pid White)),
             mkSeatReply true (Some White) None)
        | Some _ =>
            match seat_b (seats r) with
            | None =>
                (set_seats r (seat_put (seats r) Black (mkSeat pid Black)),
                 mkSeatReply true (Some Black) None)
            | Some _ => (r, mkSeatReply false None (Some "Room full"))
            end
        end
    end.

(** [selection] is [Partial<{ mode; difficulty }>]. *)
Definition setLobbySelection (r : ChessRoom)
    (new_mode : option Mode) (new_difficulty : option Difficulty) : ChessRoom :=
  if negb (status_eqb (status r) lobby) then r
  else
    let s1 := match new_mode with
              | Some m => mkSelection m (difficulty (selection r))
              | None => selection r
              end in
    let s2 := match new_difficulty with
              | Some d => mkSelection (mode s1) d
              | None => s1
              end in
    set_seats (set_selection r s2) no_seats.

Definition canStart (r : ChessRoom) : bool :=
  if negb (status_eqb (status r) lobby) then false
  else
    match mode (selection r) with
    | solo => bool_decide (is_Some (seat_w (seats r)))
    | duo => bool_decide (is_Some (seat_w (seats r))) && bool_decide (is_Some (seat_b (seats r)))
    end.

Definition startGame (r : ChessRoom) : ChessRoom :=
  let r1 := set_chess r newChess in
  let r2 := set_status r1 playing in
  let r3 := set_winner r2 None in
  let r4 := set_endReason r3 None in
  set_lastMove r4 None.

Definition getStatus (r : ChessRoom) : GameStatus :=
  let c := chess r in
  if isCheckmate c then gs_checkmate
  else if isStalemate c then gs_stalemate
  else if isDraw c || isThreefoldRepetition c || isInsufficientMaterial c then gs_draw
  else if isCheck c then gs_check
  else gs_playing.

Definition maybeFinalize (r : ChessRoom) : ChessRoom :=
  let c := chess r in
  if negb (isGameOver c) then r
  else
    let r1 := set_status r ended in
    if isCheckmate c then
      set_endReason (set_winner r1 (Some (other (turn c)))) (Some "checkmate")
    else if isStalemate c then set_endReason r1 (Some "stalemate")
    else if isInsufficientMaterial c then set_endReason r1 (Some "insufficient material")
    else if isThreefoldRepetition c then set_endReason r1 (Some "threefold repetition")
    else if isDraw c then set_endReason r1 (Some "draw")
    else r1.

(** ** ai.ts *)

Definition PIECE_VALUES (t : PieceSymbol) : Z :=
  match t with
  | pawn => 100
  | knight => 320
  | bishop => 330
  | rook => 500
  | queen => 900
  | king => 0
  end%Z.

(** Material and mobility; positive is good for [forColor]. *)
Definition evaluate (c : Chess) (forColor : PlayerColor) : Z :=
  let material :=
    fold_left
      (fun score row =>
         fold_left
           (fun score piece =>
              match piece with
              | None => score
              | Some p =>
                  let v := PIECE_VALUES (p_type p) in
                  if color_eqb (p_color p) forColor then (score + v)%Z else (score - v)%Z
              end)
           row score)
      (board c) 0%Z in
  let n := Z.of_nat (length (moves c)) in
  if color_eqb (turn c) forColor then (material + n)%Z else (material - n)%Z.

(** [arr[Math.floor(Math.random() * arr.length)]]; [None] is [undefined]. *)
Definition pickRandom {T : Type} (g : Rng) (arr : list T) : option T * Rng :=
  let '(i, g') := random_index g (length arr) in
  (nth_error arr i, g').

(** [{ score, move? }] *)
Record SearchResult := mkResult {
  score : Score;
  best : option string
}.

(** The branch of [minimax] taken at depth 0 and on a finished game. *)
Definition leaf (c : Chess) (maximizingFor : PlayerColor) : Score :=
  if isCheckmate c then
    if color_eqb (other (turn c)) maximizingFor then Fin 100000 else Fin (-100000)
  else if isDraw c || isStalemate c || isThreefoldRepetition c || isInsufficientMaterial c
  then Fin 0
  else Fin (evaluate c maximizingFor).

(** The variables the [for] loop of [minimax] reads and writes, with the
    [chess] object and the random source. *)
Record Loop := mkLoop {
  l_chess : Chess;
  l_rng : Rng;
  l_alpha : Score;
  l_beta : Score;
  l_bestScore : Score;
  l_bestMove : option string
}.

(** [for (const m of moves) { chess.move(m); ... chess.undo(); ... }];
    [rec] is the recursive call at [depth - 1]. *)
Fixpoint search_moves
    (rec : Chess -> Rng -> Score -> Score -> SearchResult * Chess * Rng)
    (isMax : bool) (ms : list Move) (st : Loop) : Loop :=
  match ms with
  | [] => st
  | m :: rest =>
      let c1 := match move (l_chess st) (req_of_move m) with
                | Some (_, c') => c'
                | None => l_chess st
                end in
      let '(res, c2, g2) := rec c1 (l_rng st) (l_alpha st) (l_beta st) in
      let c3 := undo c2 in
      if isMax then
        let '(bs, bm) :=
          if slt (l_bestScore st) (score res)
          then (score res, Some (uci_of m))
          else (l_bestScore st, l_bestMove st) in
        let a := smax (l_alpha st) bs in
        let st' := mkLoop c3 g2 a (l_beta st) bs bm in
        if sle (l_beta st) a then st' else search_moves rec isMax rest st'
      else
        let '(bs, bm) :=
          if slt (score res) (l_bestScore st)
          then (score res, Some (uci_of m))
          else (l_bestScore st, l_bestMove st) in
        let bt := smin (l_beta st) bs in
        let st' := mkLoop c3 g2 (l_alpha st) bt bs bm in
        if sle bt (l_alpha st) then st' else search_moves rec isMax rest st'
  end.

Fixpoint minimax (depth : nat) (c : Chess) (g : Rng) (alpha beta : Score)
    (maximizingFor : PlayerColor) : SearchResult * Chess * Rng :=
  match depth with
  | O => (mkResult (leaf c maximizingFor) None, c, g)
  | S d =>
      if isGameOver c then (mkResult (leaf c maximizingFor) None, c, g)
      else
        let '(ms, g1) := random_sort g (moves c) in
        let isMax := color_eqb (turn c) maximizingFor in
        let st := mkLoop c g1 alpha beta (if isMax then NegInf else PosInf) None in
        let st' :=
          search_moves (fun c' g' a' b' => minimax d c' g' a' b' maximizingFor)
                       isMax ms st in
        (mkResult (l_bestScore st') (l_bestMove st'), l_chess st', l_rng st')
  end.

Definition depth_of (d : Difficulty) : nat :=
  match d with easy => 1 | medium => 2 | hard => 3 end.

(** [chooseAiMove], with the final state of its own [chess] object and of
    the random source.  [choice.from] on an [undefined] choice throws. *)
Definition chooseAiMove_run (f : string) (aiColor : PlayerColor) (d : Difficulty)
    (g : Rng) : Completion (option string) * Chess * Rng :=
  let c := loadFen f in
  if isGameOver c then (Normal None, c, g)
  else if negb (color_eqb (turn c) aiColor) then (Normal None, c, g)
  else
    let depth := depth_of d in
    match d with
    | easy =>
        let ms := moves c in
        let captures := List.filter (fun m => bool_decide (is_Some (m_captured m))) ms in
        let '(choice, g') :=
          match captures with
          | [] => pickRandom g ms
          | _ :: _ => pickRandom g captures
          end in
        match choice with
        | Some m => (Normal (Some (uci_of m)), c, g')
        | None => (Throw "TypeError", c, g')
        end
    | _ =>
        let '(res, c', g') := minimax depth c g NegInf PosInf aiColor in
        (Normal (best res), c', g')
    end.

Definition chooseAiMove (f : string) (aiColor : PlayerColor) (d : Difficulty)
    (g : Rng) : Completion (option string) :=
  fst (fst (chooseAiMove_run f aiColor d g)).

(** ** game.ts, [applyMove] *)

Definition refuse (reason : string) : MoveReply := mkMoveReply false (Some reason).
Definition accept : MoveReply := mkMoveReply true None.

(** The reply of the computer inside [applyMove]: [room.chess.move] on the
    sliced move, then [lastMove] and [maybeFinalize] if it was taken. *)
Definition applyAiMove (r : ChessRoom) (aiMove : string) : ChessRoom :=
  match move (chess r) (req_of_uci aiMove) with
  | Some (moved, c2) => maybeFinalize (set_lastMove (set_chess r c2) (Some (uci_of moved)))
  | None => r
  end.

(** [applyMove], with the room and the random source as the call leaves
    them.  [room.chess.move] throws on a move the library does not take:
    the call ends there, the room as it was, and the test [if (!move)] of
    the next line never sees a falsy value. *)
Definition applyMove (r : ChessRoom) (pid uci : string) (g : Rng)
    : ChessRoom * Completion MoveReply * Rng :=
  if negb (status_eqb (status r) playing) then (r, Normal (refuse "Not playing"), g)
  else
    let t := turn (chess r) in
    if negb (seated_as r t pid) then (r, Normal (refuse "Not your turn"), g)
    else
      match move (chess r) (req_of_uci uci) with
      | None => (r, Throw "Invalid move", g)
      | Some (mv, c1) =>
          let r1 := maybeFinalize (set_lastMove (set_chess r c1) (Some (uci_of mv))) in
          if mode_eqb (mode (selection r1)) solo && status_eqb (status r1) playing then
            let '(ai, _, g') :=
              chooseAiMove_run (fen (chess r1)) Black (difficulty (selection r1)) g in
            match ai with
            | Throw e => (r1, Throw e, g')
            | Normal None => (r1, Normal accept, g')
            | Normal (Some aiMove) =>
                match or_undefined aiMove with
                | None => (r1, Normal accept, g')
                | Some _ => (applyAiMove r1 aiMove, Normal accept, g')
                end
            end
          else (r1, Normal accept, g)
      end.

(** ** game.ts, [buildUiStateFor] *)

Definition buildUiStateFor (r : ChessRoom) (yourColor : PlayerColor) : UiState :=
  match status r with
  | lobby =>
      let waitingForOpponent :=
        mode_eqb (mode (selection r)) duo
        && negb (bool_decide (is_Some (seat_w (seats r)))
                 && bool_decide (is_Some (seat_b (seats r)))) in
      LobbyScreen (mode (selection r)) (difficulty (selection r)) waitingForOpponent
  | ended =>
      let result :=
        match winner r with
        | Some White => result_white
        | Some Black => result_black
        | None => result_draw
        end in
      EndScreen result (match endReason r with Some e => e | None => "game over" end)
  | playing =>
      GameScreen (fen (chess r)) (turn (chess r)) yourColor (getStatus r)
                 (winner r) (lastMove r)
  end.

End Game.

(** ** index.ts: the single room and its handlers

    The handlers also send toasts, HUD text and snapshots to the players;
    these calls do not touch the room and are left out. *)

(** [msg.action] with its payload. *)
Inductive Action :=
  | LobbySet (new_mode : option Mode) (new_difficulty : option Difficulty)
  | LobbyStart
  | GameMove (uci : string)
  | EndRematch
  | EndBackToLobby
  | OtherAction.

Inductive UiToServer :=
  | UiReady
  | UiAction (a : Action).

Section Server.
Context {E : Engine} {R : Entropy}.

(** The state [startServer] closes over: [room], the keys of [players] in
    insertion order, and [colors]. *)
Record World := mkWorld {
  room : ChessRoom;
  players : list string;
  colors : gmap string PlayerColor
}.

(** [players.set(playerId, player)] *)
Definition players_set (ps : list string) (pid : string) : list string :=
  if existsb (String.eqb pid) ps then ps else ps ++ [pid].

(** [players.delete(playerId)] *)
Definition players_delete (ps : list string) (pid : string) : list string :=
  List.filter (fun p => negb (String.eqb p pid)) ps.

(** [const seat = assignSeat(room, pid); if (seat.ok && seat.color) colors.set(pid, seat.color)] *)
Definition seat_player (rc : ChessRoom * gmap string PlayerColor) (pid : string)
    : ChessRoom * gmap string PlayerColor :=
  let '(r', reply) := assignSeat (fst rc) pid in
  match sr_ok reply, sr_color reply with
  | true, Some c => (r', <[pid := c]> (snd rc))
  | _, _ => (r', snd rc)
  end.

(** [for (const [pid] of players.entries()) ...] *)
Definition reseat (r : ChessRoom) (cs : gmap string PlayerColor) (ps : list string)
    : ChessRoom * gmap string PlayerColor :=
  fold_left seat_player ps (r, cs).

Definition resetToLobby (w : World) : World :=
  let r := room w in
  let r' :=
    set_seats
      (set_chess (set_lastMove (set_endReason (set_winner (set_status r lobby) None) None) None)
                 newChess)
      no_seats in
  mkWorld r' (players w) ∅.

(** [PlayerEvent.JOINED_WORLD] *)
Definition joinedWorld (w : World) (pid : string) : World :=
  let ps := players_set (players w) pid in
  if status_eqb (status (room w)) lobby then
    let '(r', cs') := seat_player (room w, colors w) pid in
    mkWorld r' ps cs'
  else mkWorld (room w) ps (colors w).

(** The [lobby.start] branch of [onMessage], taken when the room is in the
    lobby. *)
Definition lobbyStart (w : World) (pid : string) : World :=
  let r := room w in
  let yourColor := colors w !! pid in
  if mode_eqb (mode (selection r)) duo
     && match yourColor with Some White => false | _ => true end
  then w
  else if negb (canStart r) then w
  else mkWorld (startGame r) (players w) (colors w).

(** [onMessage] of the player [pid]. *)
Definition onMessage (w : World) (pid : string) (msg : UiToServer) (g : Rng) : World * Rng :=
  match msg with
  | UiReady => (w, g)
  | UiAction a =>
      let r := room w in
      match a with
      | LobbySet m d =>
          if status_eqb (status r) lobby then
            let r1 := set_seats (setLobbySelection r m d) no_seats in
            let '(r2, cs) := reseat r1 ∅ (players w) in
            (mkWorld r2 (players w) cs, g)
          else (w, g)
      | LobbyStart =>
          if status_eqb (status r) lobby then (lobbyStart w pid, g) else (w, g)
      | GameMove uci =>
          if status_eqb (status r) playing then
            if (String.length uci <? 4)%nat then (w, g)
            else
              let '(r', _, g') := applyMove r pid uci g in
              (mkWorld r' (players w) (colors w), g')
          else (w, g)
      | EndRematch =>
          let r1 :=
            set_seats
              (set_lastMove (set_endReason (set_winner (set_chess (set_status r lobby) newChess)
                                                       None) None) None)
              no_seats in
          let '(r2, cs) := reseat r1 ∅ (players w) in
          let r3 := if canStart r2 then startGame r2 else r2 in
          (mkWorld r3 (players w) cs, g)
      | EndBackToLobby => (resetToLobby w, g)
      | OtherAction => (w, g)
      end
  end.

(** [PlayerEvent.LEFT_WORLD] *)
Definition leftWorld (w : World) (pid : string) : World :=
  let ps := players_delete (players w) pid in
  let cs := delete pid (colors w) in
  let r := room w in
  let r1 :=
    if mode_eqb (mode (selection r)) duo && status_eqb (status r) playing
    then set_endReason (set_winner (set_status r ended) None) (Some "opponent disconnected")
    else r in
  let w1 := mkWorld r1 ps cs in
  if mode_eqb (mode (selection r1)) solo && (length ps =? 0)%nat
  then resetToLobby w1
  else w1.

(** What happens to the room: a player joins, sends a message, or leaves. *)
Inductive Event :=
  | Joined (pid : string)
  | Message (pid : string) (msg : UiToServer)
  | Left (pid : string).

Definition handle (w : World) (ev : Event) (g : Rng) : World * Rng :=
  match ev with
  | Joined pid => (joinedWorld w pid, g)
  | Message pid msg => onMessage w pid msg g
  | Left pid => (leftWorld w pid, g)
  end.

(** The events of a session, handled one after the other. *)
Definition run (evs : list Event) (w : World) (g : Rng) : World * Rng :=
  fold_left (fun wg ev => handle (fst wg) ev (snd wg)) evs (w, g).

(** [startServer]: the room "main", nobody connected. *)
Definition boot : World := mkWorld (createRoom "main") [] ∅.

End Server.

(** ** Plain minimax, the reference the search is compared with

    The value of a position at a depth by exhaustive minimax: every legal
    move of every node is explored, in the order the library lists them, and
    no window is kept. *)

Section Reference.
Context {E : Engine}.

(** The position reached from [c] by the legal move [m]. *)
Definition after (c : Chess) (m : Move) : Chess :=
  match move c (req_of_move m) with
  | Some (_, c') => c'
  | None => c
  end.

Fixpoint plain_minimax (depth : nat) (c : Chess) (maximizingFor : PlayerColor) : Score :=
  match depth with
  | O => leaf c maximizingFor
  | S d =>
      if isGameOver c then leaf c maximizingFor
      else
        let values := map (fun m => plain_minimax d (after c m) maximizingFor) (moves c) in
        if color_eqb (turn c) maximizingFor
        then fold_right smax NegInf values
        else fold_right smin PosInf values
  end.

End Reference.

(** ** A small rules library to run the model on

    A take-away game in the shape of [Engine]: a pile of [t_left] tokens, the
    side to move takes one, two ("capturing") or three ("capturing" and
    "promoting") of them,
    and the side that finds the pile empty is mated; a pile of seven is a
    draw.  [t_taken] is the history that [undo] pops. *)

Module Toy.

Record Pos := mkPos {
  t_turn : PlayerColor;
  t_left : nat;
  t_taken : list nat
}.

Definition take1 : Move := mkMove "a1" "a2" None None.
Definition take2 : Move := mkMove "b1" "b2" None (Some pawn).
Definition take3 : Move := mkMove "c7" "c8" (Some "q") (Some knight).

Definition t_moves (p : Pos) : list Move :=
  match t_left p with
  | 0 => []
  | 1 => [take1]
  | 2 => [take1; take2]
  | _ => [take1; take2; take3]
  end.

Definition req_eqb (x y : MoveReq) : bool :=
  String.eqb (r_from x) (r_from y) && String.eqb (r_to x) (r_to y)
  && match r_promotion x, r_promotion y with
     | None, None => true
     | Some a, Some c => String.eqb a c
     | _, _ => false
     end.

Definition taking (p : Pos) (k : nat) : Pos :=
  mkPos (other (t_turn p)) (t_left p - k) (k :: t_taken p).

Definition t_move (p : Pos) (r : MoveReq) : option (Move * Pos) :=
  if req_eqb r (req_of_move take1) && (1 <=? t_left p)%nat then Some (take1, taking p 1)
  else if req_eqb r (req_of_move take2) && (2 <=? t_left p)%nat then Some (take2, taking p 2)
  else if req_eqb r (req_of_move take3) && (3 <=? t_left p)%nat then Some (take3, taking p 3)
  else None.

Definition t_undo (p : Pos) : Pos :=
  match t_taken p with
  | [] => p
  | k :: h => mkPos (other (t_turn p)) (t_left p + k) h
  end.

Fixpoint tokens (n : nat) : string :=
  match n with
  | 0 => ""
  | S k => String "x"%char (tokens k)
  end.

Definition t_fen (p : Pos) : string :=
  String (match t_turn p with White => "w" | Black => "b" end)%char (tokens (t_left p)).

Definition t_load (s : string) : Pos :=
  match s with
  | EmptyString => mkPos White 0 []
  | String ch rest =>
      mkPos (if Ascii.eqb ch "w"%char then White else Black) (String.length rest) []
  end.

(** The side to move finds the pile empty. *)
Definition t_mate (p : Pos) : bool := (t_left p =? 0)%nat.

(** A pile of seven is a dead position: a draw, by insufficient material. *)
Definition t_dead (p : Pos) : bool := (t_left p =? 7)%nat.

Definition t_over (p : Pos) : bool := t_mate p || t_dead p.

#[local] Instance engine : Engine := {|
  Chess := Pos;
  newChess := mkPos White 5 [];
  loadFen := t_load;
  fen := t_fen;
  turn := t_turn;
  board := fun p => [repeat (Some (mkPiece pawn White)) (t_left p)];
  moves := t_moves;
  move := t_move;
  undo := t_undo;
  isCheck := fun _ => false;
  isCheckmate := t_mate;
  isStalemate := fun _ => false;
  isDraw := t_dead;
  isThreefoldRepetition := fun _ => false;
  isInsufficientMaterial := t_dead;
  isGameOver := t_over
|}.

(** A counter for [Math.random]: the number drawn goes through the
    quarters 0, 1/4, 1/2 and 3/4 in turn, the sort keeps or reverses the
    list. *)
#[local] Instance entropy : Entropy := {|
  Rng := nat;
  random := fun g => ((Z.of_nat (g mod 4) # 4)%Q, S g);
  random_sort := fun g l => (if Nat.even g then l else rev l, S g)
|}.

(** A solo room in play: "7" is White, the computer is Black. *)
Definition solo_room (d : Difficulty) (left : nat) : ChessRoom :=
  mkRoom "main" (mkSelection solo d)
         (mkSeats (Some (mkSeat "7" White)) (Some (mkSeat "AI" Black)))
         (mkPos White left []) playing None None None.

(** A duo room in play: "7" is White, "8" is Black. *)
Definition duo_room (left : nat) : ChessRoom :=
  mkRoom "main" (mkSelection duo easy)
         (mkSeats (Some (mkSeat "7" White)) (Some (mkSeat "8" Black)))
         (mkPos White left []) playing None None None.

(** The duo room after White has taken the last token. *)
Definition ended_room : ChessRoom :=
  mkRoom "main" (mkSelection duo easy)
         (mkSeats (Some (mkSeat "7" White)) (Some (mkSeat "8" Black)))
         (mkPos Black 0 [1]) ended (Some White) (Some "checkmate") (Some "a1a2").

(** The duo room in play with a third player, "9", who watches. *)
Definition duo_world : World :=
  mkWorld (duo_room 5) ["7"; "8"; "9"] (<["7" := White]> (<["8" := Black]> ∅)).

(** The same players before the game is started. *)
Definition lobby_world : World :=
  mkWorld (set_status (duo_room 5) lobby) ["7"; "8"; "9"]
          (<["7" := White]> (<["8" := Black]> ∅)).

(** A position, as a [Chess] object. *)
Definition pos (t : PlayerColor) (left : nat) (taken : list nat) : Chess :=
  mkPos t left taken.

(** A first value of the counter. *)
Definition seed (n : nat) : Rng := n.

End Toy.

(** ** Notions used to state the properties *)

Section Notions.
Context {E : Engine} {R : Entropy}.

(** The three ways a move fails, each with the reason the code names for
    it: the room is not in play, the seat of the side to move is not held
    by the caller, the rules library rejects the move. *)
Inductive MoveRefused (r : ChessRoom) (pid uci : string) : string -> Prop :=
  | refused_not_playing :
      status r <> playing ->
      MoveRefused r pid uci "Not playing"
  | refused_not_your_turn :
      status r = playing ->
      seated_as r (turn (chess r)) pid = false ->
      MoveRefused r pid uci "Not your turn"
  | refused_illegal :
      status r = playing ->
      seated_as r (turn (chess r)) pid = true ->
      move (chess r) (req_of_uci uci) = None ->
      MoveRefused r pid uci "Illegal move".

(** The finalize rule as a table, in its order of priority: the winner
    and the end reason of a finished position. *)
Definition classify (c : Chess) : option PlayerColor * string :=
  if isCheckmate c then (Some (other (turn c)), "checkmate")
  else if isStalemate c then (None, "stalemate")
  else if isInsufficientMaterial c then (None, "insufficient material")
  else if isThreefoldRepetition c then (None, "threefold repetition")
  else (None, "draw").


(** The moves the easy level draws from: the captures if there are any,
    all legal moves otherwise. *)
Definition easy_pool (c : Chess) : list Move :=
  match List.filter (fun m => bool_decide (is_Some (m_captured m))) (moves c) with
  | [] => moves c
  | captures => captures
  end.


(** Of the [N] values [0], [1/N], ..., [(N-1)/N] of [Math.random()], the
    number on which [pickRandom] takes entry [i] of [n]. *)
Definition draws_of (N n i : nat) : nat :=
  length (List.filter (fun j => (pick_index (Z.of_nat j # Pos.of_nat N)%Q n =? i)%nat)
                      (seq 0 N)).

(** A room a disconnection has ended. *)
Definition disconnected (r : ChessRoom) : ChessRoom :=
  mkRoom (room_id r) (selection r) (seats r) (chess r) ended None
         (Some "opponent disconnected") (lastMove r).

(** A room [startGame] has reset. *)
Definition started (r : ChessRoom) : ChessRoom :=
  mkRoom (room_id r) (selection r) (seats r) newChess playing None None None.

(** The best move of the loop is one of the moves [P] and its exact value
    [vf] is the best score. *)
Definition best_is_exact (vf : Move -> Score) (P : Move -> Prop) (st : Loop) : Prop :=
  exists m, P m /\ l_bestMove st = Some (uci_of m) /\ vf m = l_bestScore st.

(** A room in play has no winner recorded. *)
Definition no_winner_in_play (r : ChessRoom) : Prop :=
  status r = playing -> winner r = None.

(** The loop of [minimax] has a number as its best score and, as its best
    move, one of the moves [P]. *)
Definition settled (P : Move -> Prop) (st : Loop) : Prop :=
  (exists z, l_bestScore st = Fin z)
  /\ exists m, P m /\ l_bestMove st = Some (uci_of m).

(** The seats the mode of the room needs are taken: White, and in duo
    mode Black as well. *)
Definition seats_ready (r : ChessRoom) : Prop :=
  is_Some (seat_w (seats r))
  /\ (mode (selection r) = duo -> is_Some (seat_b (seats r))).

(** A room in play has its seats taken and a position that is not over. *)
Definition playing_ready (r : ChessRoom) : Prop :=
  status r = playing -> isGameOver (chess r) = false /\ seats_ready r.

(** The colour recorded for a player is a seat the player holds, and the
    Black seat of a solo room is held by nobody but the computer. *)
Definition colors_agree (w : World) : Prop :=
  (forall pid c, colors w !! pid = Some c -> seated_as (room w) c pid = true)
  /\ (mode (selection (room w)) = solo ->
      forall s, seat_b (seats (room w)) = Some s -> playerId s = "AI").

(** In a solo room in play it is White's turn. *)
Definition solo_white_to_move (r : ChessRoom) : Prop :=
  mode (selection r) = solo -> status r = playing -> turn (chess r) = White.

(** The room [end.rematch] and the reset to the lobby start from: the
    lobby, no seats, the initial position, no outcome. *)
Definition rematch_base (r : ChessRoom) : ChessRoom :=
  mkRoom (room_id r) (selection r) no_seats newChess lobby None None None.

(** A successful reply of [assignSeat] and its two refusals. *)
Definition seat_ok (c : PlayerColor) : SeatReply := mkSeatReply true (Some c) None.
Definition seat_refused (reason : string) : SeatReply := mkSeatReply false None (Some reason).

End Notions.

(** Order on scores, as propositions. *)
Definition Sle (x y : Score) : Prop := sle x y = true.
Definition Slt (x y : Score) : Prop := slt x y = true.

(** What a search with window [(alpha, beta)] may return for a position of
    exact value [v]: the value itself inside the window, a bound on the
    side where it fails outside. *)
Definition within_window (alpha beta res v : Score) : Prop :=
  (Sle res alpha -> Sle v res) /\
  (Sle beta res -> Sle res v) /\
  (Slt alpha res -> Slt res beta -> v = res).

(** The same order and equality by the shape of the two scores; goals are
    brought to this form before the scores are split into cases. *)
Definition SleP (x y : Score) : Prop :=
  match x, y with
  | NegInf, _ => True
  | Fin _, NegInf => False
  | Fin a, Fin c => (a <= c)%Z
  | Fin _, PosInf => True
  | PosInf, PosInf => True
  | PosInf, _ => False
  end.

Definition SltP (x y : Score) : Prop :=
  match x, y with
  | NegInf, NegInf => False
  | NegInf, _ => True
  | Fin _, NegInf => False
  | Fin a, Fin c => (a < c)%Z
  | Fin _, PosInf => True
  | PosInf, _ => False
  end.

Definition SeqP (x y : Score) : Prop :=
  match x, y with
  | NegInf, NegInf => True
  | Fin a, Fin c => a = c
  | PosInf, PosInf => True
  | _, _ => False
  end.

(** * Properties *)

(** ** Seats *)

Section SeatProofs.
Context {E : Engine}.

Lemma seated_as_spec (r : ChessRoom) (c : PlayerColor) (pid : string) :
  seated_as r c pid = true <->
  exists s, seat_at (seats r) c = Some s /\ playerId s = pid.
Proof.
  unfold seated_as. destruct (seat_at (seats r) c) as [s|].
  - rewrite String.eqb_eq. split.
    + intros H. exists s. auto.
    + intros (s' & Hs & Hp). congruence.
  - split; [discriminate | intros (s' & Hs & _); discriminate].
Qed.

(** C9. An identity that already holds a seat is answered with the colour
    of a seat it holds (White first, as the loop looks), with [ok] and no
    reason, and the room, its seats included, is returned as it was; the
    mode of the room plays no part. *)
Theorem assignSeat_idempotent (r : ChessRoom) (pid : string) (c : PlayerColor) (s : Seat) :
  seat_at (seats r) c = Some s ->
  playerId s = pid ->
  exists c',
    assignSeat r pid = (r, mkSeatReply true (Some c') None)
    /\ seated_as r c' pid = true
    /\ (seated_as r (other c) pid = false -> c' = c).
Proof.
  intros Hs Hp.
  assert (Hc : seated_as r c pid = true) by (apply seated_as_spec; eauto).
  unfold assignSeat.
  destruct (seated_as r White pid) eqn:Hw.
  - exists White. repeat split; auto.
    destruct c; simpl; congruence.
  - destruct (seated_as r Black pid) eqn:Hb.
    + exists Black. repeat split; auto.
      destruct c; simpl; congruence.
    + destruct c; congruence.
Qed.

(** Joining twice: a successful [assignSeat] answers the same again on the
    room it produced. *)
Lemma assignSeat_again (r r' : ChessRoom) (pid : string) (reply : SeatReply) :
  assignSeat r pid = (r', reply) ->
  sr_ok reply = true ->
  assignSeat r' pid = (r', reply).
Proof.
  unfold assignSeat.
  destruct (seated_as r White pid) eqn:Hw.
  { intros [= <- <-] _. now rewrite Hw. }
  destruct (seated_as r Black pid) eqn:Hb.
  { intros [= <- <-] _. now rewrite Hw, Hb. }
  destruct (mode (selection r)) eqn:Hm.
  - destruct (seat_w (seats r)) as [s|] eqn:Hsw.
    + destruct (negb (String.eqb (playerId s) pid)) eqn:Hn.
      * intros [= <- <-]. discriminate.
      * intros [= <- <-] _. unfold seated_as. simpl. now rewrite String.eqb_refl.
    + intros [= <- <-] _. unfold seated_as. simpl. now rewrite String.eqb_refl.
  - destruct (seat_w (seats r)) as [s|] eqn:Hsw.
    + destruct (seat_b (seats r)) as [s'|] eqn:Hsb.
      * intros [= <- <-]. discriminate.
      * intros [= <- <-] _. unfold seated_as in *. simpl in *.
        rewrite Hsw in *. rewrite Hw. now rewrite String.eqb_refl.
    + intros [= <- <-] _. unfold seated_as. simpl. now rewrite String.eqb_refl.
Qed.

End SeatProofs.

(** ** The match state machine *)

Section MatchProofs.
Context {E : Engine} {R : Entropy}.

(** C1. The three ways a move fails.  When the room is not in play, and
    when the seat of the side to move is empty or held by someone else,
    [applyMove] answers [ok = false] with the reason of the case ("Not
    playing", "Not your turn") and returns the room, every field of it,
    and the random source as they were.  When the rules library rejects
    the move, the call throws "Invalid move" from [chess.move]: it gives
    no answer, so no [ok = false] and no reason "Illegal move"; the room
    and the random source are as they were in this case too. *)
Theorem applyMove_failures
    (r : ChessRoom) (pid uci : string) (g : Rng) (reason : string) :
  MoveRefused r pid uci reason ->
  applyMove r pid uci g
  = (r,
     if String.eqb reason "Illegal move" then Throw "Invalid move"
     else Normal (mkMoveReply false (Some reason)),
     g).
Proof.
  intros H. unfold applyMove, refuse.
  destruct H as [Hs | Hs Hseat | Hs Hseat Hmove].
  - destruct (status r); simpl; congruence.
  - rewrite Hs. simpl. now rewrite Hseat.
  - rewrite Hs. simpl. rewrite Hseat. simpl. now rewrite Hmove.
Qed.

(** X26. The other direction: an answer of [applyMove] with [ok = false]
    comes from one of the ways a move fails, its reason is the one of that
    case, and the room and the random source are unchanged.  The case is
    one of the first two: a move the rules library rejects gives no
    answer, so the reason is never "Illegal move". *)
Lemma applyMove_not_ok
    (r r' : ChessRoom) (pid uci : string) (g g' : Rng) (reply : MoveReply) :
  applyMove r pid uci g = (r', Normal reply, g') ->
  mr_ok reply = false ->
  r' = r /\ g' = g /\
  exists reason, MoveRefused r pid uci reason /\ mr_reason reply = Some reason
                 /\ reason <> "Illegal move".
Proof.
  unfold applyMove.
  destruct (status_eqb (status r) playing) eqn:Hs; simpl.
  2:{ intros [= <- <- <-] _. repeat split; auto.
      eexists; split; [apply refused_not_playing | split; [reflexivity | discriminate]].
      intros Hp. rewrite Hp in Hs. discriminate. }
  assert (Hp : status r = playing) by (destruct (status r); simpl in Hs; congruence).
  destruct (seated_as r (turn (chess r)) pid) eqn:Hseat; simpl.
  2:{ intros [= <- <- <-] _. repeat split; auto.
      eexists; split; [now apply refused_not_your_turn | split; [reflexivity | discriminate]]. }
  destruct (move (chess r) (req_of_uci uci)) as [[mv c1]|] eqn:Hmove; [|discriminate].
  set (r1 := maybeFinalize _).
  destruct (mode_eqb (mode (selection r1)) solo && status_eqb (status r1) playing).
  - destruct (chooseAiMove_run _ _ _ _) as [[ai c'] g''].
    destruct ai as [[aiMove|]|e].
    + destruct (or_undefined aiMove); intros [= <- <- <-]; discriminate.
    + intros [= <- <- <-]; discriminate.
    + discriminate.
  - intros [= <- <- <-]; discriminate.
Qed.

(** The rules library ends a game for one of the five reasons the finalize
    rule asks about (chess.js: [isGameOver] is checkmate, stalemate or
    draw). *)
Hypothesis game_over_cases : forall c : Chess,
  isGameOver c = true ->
  isCheckmate c || isStalemate c || isInsufficientMaterial c
    || isThreefoldRepetition c || isDraw c = true.


(** The table read row by row: a rule applies when the rules before it do
    not. *)
Lemma classify_rows (c : Chess) :
  (isCheckmate c = true -> classify c = (Some (other (turn c)), "checkmate"))
  /\ (isCheckmate c = false -> isStalemate c = true -> classify c = (None, "stalemate"))
  /\ (isCheckmate c = false -> isStalemate c = false ->
      isInsufficientMaterial c = true -> classify c = (None, "insufficient material"))
  /\ (isCheckmate c = false -> isStalemate c = false ->
      isInsufficientMaterial c = false -> isThreefoldRepetition c = true ->
      classify c = (None, "threefold repetition"))
  /\ (isCheckmate c = false -> isStalemate c = false ->
      isInsufficientMaterial c = false -> isThreefoldRepetition c = false ->
      classify c = (None, "draw")).
Proof.
  unfold classify. repeat split; intros; 
    repeat match goal with H : _ = _ |- _ => rewrite H end; reflexivity.
Qed.

(** [maybeFinalize] touches the status, the winner and the end reason
    only, and never the winner of a draw. *)
Lemma maybeFinalize_frame (r : ChessRoom) :
  room_id (maybeFinalize r) = room_id r
  /\ selection (maybeFinalize r) = selection r
  /\ seats (maybeFinalize r) = seats r
  /\ chess (maybeFinalize r) = chess r
  /\ lastMove (maybeFinalize r) = lastMove r
  /\ (isGameOver (chess r) = false -> maybeFinalize r = r)
  /\ (isGameOver (chess r) = true -> status (maybeFinalize r) = ended)
  /\ (isCheckmate (chess r) = false -> winner (maybeFinalize r) = winner r).
Proof.
  unfold maybeFinalize.
  destruct (isGameOver (chess r)); simpl.
  - destruct (isCheckmate (chess r)), (isStalemate (chess r)),
      (isInsufficientMaterial (chess r)), (isThreefoldRepetition (chess r)),
      (isDraw (chess r)); simpl; repeat split; auto; discriminate.
  - repeat split; auto; discriminate.
Qed.

Lemma canStart_lobby (r : ChessRoom) : canStart r = true -> status r = lobby.
Proof.
  unfold canStart. destruct (status r); simpl; auto; discriminate.
Qed.

(** C4, as the code has it.  [startGame] itself checks nothing: on every
    room it puts the initial position, [status = playing] and no winner,
    end reason or last move.  The guard is in the [lobby.start] handler:
    outside the lobby, or when [canStart] is false, the request leaves the
    world unchanged; in the lobby with [canStart] true (and, in duo mode,
    asked by White) the room becomes the started one. *)
Theorem lobby_start_guarded (w : World) (pid : string) (g : Rng) :
  startGame (room w) = started (room w)
  /\ (status (room w) <> lobby ->
      onMessage w pid (UiAction LobbyStart) g = (w, g))
  /\ (canStart (room w) = false ->
      onMessage w pid (UiAction LobbyStart) g = (w, g))
  /\ (canStart (room w) = true ->
      mode (selection (room w)) = solo \/ colors w !! pid = Some White ->
      onMessage w pid (UiAction LobbyStart) g
      = (mkWorld (started (room w)) (players w) (colors w), g)).
Proof.
  split; [reflexivity|]. unfold onMessage, lobbyStart. repeat split.
  - intros Hs. destruct (status (room w)); simpl; congruence.
  - intros Hc. destruct (status_eqb (status (room w)) lobby); [|reflexivity].
    rewrite Hc. simpl. now destruct (_ && _).
  - intros Hc Hwho. rewrite (canStart_lobby _ Hc). simpl. rewrite Hc. simpl.
    destruct Hwho as [Hm | Hc']; [rewrite Hm | rewrite Hc'];
      simpl; rewrite ?andb_false_r; reflexivity.
Qed.

(** C10. When any player leaves a duo room in play, the room ends with no
    winner and the reason "opponent disconnected"; nothing is asked of the
    player who leaves, seated or not, and the other fields of the room
    stay. *)
Theorem leftWorld_duo_playing (w : World) (pid : string) :
  mode (selection (room w)) = duo ->
  status (room w) = playing ->
  room (leftWorld w pid) = disconnected (room w).
Proof.
  intros Hm Hs. unfold leftWorld. rewrite Hm, Hs. simpl. rewrite Hm. reflexivity.
Qed.

(** *** No winner is recorded while a game is in play *)

Lemma maybeFinalize_no_winner (r : ChessRoom) :
  winner r = None -> no_winner_in_play (maybeFinalize r).
Proof.
  intros Hw. unfold no_winner_in_play, maybeFinalize.
  destruct (isGameOver (chess r)); simpl; [|auto].
  destruct (isCheckmate (chess r)), (isStalemate (chess r)),
    (isInsufficientMaterial (chess r)), (isThreefoldRepetition (chess r)),
    (isDraw (chess r)); simpl; discriminate.
Qed.

Lemma applyMove_no_winner (r : ChessRoom) (pid uci : string) (g : Rng) :
  no_winner_in_play r -> no_winner_in_play (fst (fst (applyMove r pid uci g))).
Proof.
  intros Hinv. unfold applyMove.
  destruct (status_eqb (status r) playing) eqn:Hs; simpl; [|exact Hinv].
  assert (Hw : winner r = None).
  { apply Hinv. destruct (status r); simpl in Hs; congruence. }
  destruct (negb (seated_as r (turn (chess r)) pid)); [exact Hinv|].
  destruct (move (chess r) (req_of_uci uci)) as [[mv c1]|]; [|exact Hinv].
  set (r1 := maybeFinalize _).
  assert (H1 : no_winner_in_play r1) by (apply maybeFinalize_no_winner; exact Hw).
  destruct (mode_eqb (mode (selection r1)) solo && status_eqb (status r1) playing) eqn:Hc;
    [|exact H1].
  destruct (chooseAiMove_run _ _ _ _) as [[ai c'] g'].
  destruct ai as [[aiMove|]|e]; simpl; try exact H1.
  destruct (or_undefined aiMove); simpl; [|exact H1].
  unfold applyAiMove.
  destruct (move (chess r1) (req_of_uci aiMove)) as [[m2 c2]|]; [|exact H1].
  apply maybeFinalize_no_winner. simpl. apply H1.
  apply andb_prop in Hc as [_ Hc]. destruct (status r1); simpl in Hc; congruence.
Qed.

Lemma assignSeat_outcome_fields (r : ChessRoom) (pid : string) :
  status (fst (assignSeat r pid)) = status r
  /\ winner (fst (assignSeat r pid)) = winner r.
Proof.
  unfold assignSeat.
  destruct (seated_as r White pid); [auto|].
  destruct (seated_as r Black pid); [auto|].
  destruct (mode (selection r)).
  - destruct (seat_w (seats r)) as [s|]; [destruct (negb _)|]; auto.
  - destruct (seat_w (seats r)) as [s|]; [destruct (seat_b (seats r))|]; auto.
Qed.

Lemma reseat_no_winner (ps : list string) :
  forall (r : ChessRoom) (cs : gmap string PlayerColor),
    no_winner_in_play r -> no_winner_in_play (fst (reseat r cs ps)).
Proof.
  unfold reseat. induction ps as [|pid ps IH]; intros r cs Hinv; [exact Hinv|].
  simpl. unfold seat_player at 2. simpl.
  destruct (assignSeat_outcome_fields r pid) as [Hs Hw].
  destruct (assignSeat r pid) as [r' reply]. simpl in *.
  assert (Hinv' : no_winner_in_play r').
  { unfold no_winner_in_play in *. rewrite Hs, Hw. exact Hinv. }
  destruct (sr_ok reply), (sr_color reply); apply IH; exact Hinv'.
Qed.

(** Every handler keeps the invariant, so it holds all along a session:
    [maybeFinalize] is only ever applied to a room with no winner. *)
Lemma world_step_no_winner (w : World) (ev : Event) (g : Rng) :
  no_winner_in_play (room w) -> no_winner_in_play (room (fst (handle w ev g))).
Proof.
  intros Hinv. destruct ev as [pid | pid [|a] | pid]; simpl; try exact Hinv.
  - unfold joinedWorld.
    destruct (status_eqb (status (room w)) lobby); [|exact Hinv].
    unfold seat_player. simpl.
    destruct (assignSeat_outcome_fields (room w) pid) as [Hs Hw].
    destruct (assignSeat (room w) pid) as [r' reply]. simpl in *.
    assert (Hinv' : no_winner_in_play r').
    { unfold no_winner_in_play in *. rewrite Hs, Hw. exact Hinv. }
    destruct (sr_ok reply), (sr_color reply); exact Hinv'.
  - destruct a as [m d| |uci| | |]; simpl; try exact Hinv.
    + destruct (status_eqb (status (room w)) lobby) eqn:Hs; [|exact Hinv].
      pose proof (reseat_no_winner (players w)
                    (set_seats (setLobbySelection (room w) m d) no_seats) ∅) as H.
      destruct (reseat _ _ _) as [r2 cs]. simpl in *. apply H.
      unfold no_winner_in_play, setLobbySelection. rewrite Hs. simpl.
      destruct (status (room w)); simpl in Hs; congruence.
    + destruct (status_eqb (status (room w)) lobby); [|exact Hinv].
      unfold lobbyStart. destruct (_ && _); [exact Hinv|].
      destruct (negb _); [exact Hinv|]. simpl. intros _. reflexivity.
    + destruct (status_eqb (status (room w)) playing); [|exact Hinv].
      destruct (String.length uci <? 4)%nat; [exact Hinv|].
      pose proof (applyMove_no_winner (room w) pid uci g Hinv) as H.
      destruct (applyMove (room w) pid uci g) as [[r' out] g']. exact H.
    + match goal with
      | |- context [reseat ?r0 ?cs0 ?ps0] =>
          pose proof (reseat_no_winner ps0 r0 cs0) as H;
          destruct (reseat r0 cs0 ps0) as [r2 cs]
      end.
      simpl in *. destruct (canStart r2); [intros _; reflexivity|].
      apply H. intros _. reflexivity.
    + intros _. reflexivity.
  - unfold leftWorld.
    destruct (mode_eqb (mode (selection (room w))) duo && status_eqb (status (room w)) playing);
      simpl.
    + destruct (_ && _); simpl; intros _; reflexivity.
    + destruct (_ && _); simpl; [intros _; reflexivity | exact Hinv].
Qed.

(** X25. Whatever players join, leave and send, from the server's start
    on, the room never records a winner while the game is being played or
    is still in the lobby. *)
Lemma session_no_winner (evs : list Event) (g : Rng) :
  no_winner_in_play (room (fst (run evs boot g))).
Proof.
  unfold run.
  assert (H : forall wg, no_winner_in_play (room (fst wg)) ->
            no_winner_in_play
              (room (fst (fold_left (fun wg ev => handle (fst wg) ev (snd wg)) evs wg)))).
  { induction evs as [|ev evs IH]; intros wg Hinv; [exact Hinv|].
    simpl. apply IH. now apply world_step_no_winner. }
  apply H. simpl. discriminate.
Qed.

End MatchProofs.

(** ** The order on scores *)

Lemma sle_SleP (x y : Score) : sle x y = true <-> SleP x y.
Proof. destruct x, y; simpl; rewrite ?Z.leb_le; intuition discriminate. Qed.

Lemma slt_SltP (x y : Score) : slt x y = true <-> SltP x y.
Proof. destruct x, y; simpl; rewrite ?Z.ltb_lt; intuition discriminate. Qed.

Lemma sle_false_SltP (x y : Score) : sle x y = false <-> SltP y x.
Proof. destruct x, y; simpl; rewrite ?Z.leb_gt; intuition discriminate. Qed.

Lemma slt_false_SleP (x y : Score) : slt x y = false <-> SleP y x.
Proof. destruct x, y; simpl; rewrite ?Z.ltb_ge; intuition discriminate. Qed.

Lemma eq_SeqP (x y : Score) : x = y <-> SeqP x y.
Proof. destruct x, y; simpl; intuition (try discriminate; try congruence). Qed.

(** Goals about the order of a few scores: bring every comparison to its
    shape form, split the scores into their three shapes, and leave integer
    arithmetic. *)
Ltac score_cases :=
  intros; unfold within_window, Sle, Slt in *;
  repeat match goal with H : _ |- _ => revert H end;
  repeat setoid_rewrite sle_SleP; repeat setoid_rewrite slt_SltP;
  repeat setoid_rewrite sle_false_SltP; repeat setoid_rewrite slt_false_SleP;
  repeat setoid_rewrite eq_SeqP;
  intros;
  repeat match goal with x : Score |- _ => destruct x end;
  simpl in *; lia.

(** [if (score > bestScore) bestScore = score] keeps the larger of the two. *)
Lemma best_is_max (bs r : Score) : (if slt bs r then r else bs) = smax bs r.
Proof.
  destruct bs, r; simpl; try reflexivity.
  destruct (Z.ltb_spec z z0); f_equal; lia.
Qed.

Lemma best_is_min (bs r : Score) : (if slt r bs then r else bs) = smin bs r.
Proof.
  destruct bs, r; simpl; try reflexivity.
  destruct (Z.ltb_spec z0 z); f_equal; lia.
Qed.

(** A maximizing node, one more child: [bs] is the best so far, [r] what
    the search of the child returned within [(max a0 bs, beta)], [v] the
    child's exact value, [Vd] the best exact value so far, [F] the best
    exact value of the children not yet seen. *)
Lemma max_node_break (a0 beta bs r v Vd F : Score) :
  Slt (smax a0 bs) beta ->
  within_window (smax a0 bs) beta r v ->
  sle beta (smax (smax a0 bs) (smax bs r)) = true ->
  within_window a0 beta (smax bs r) (smax Vd (smax v F)).
Proof. score_cases. Qed.

Lemma max_node_continue (a0 beta bs r v Vd : Score) :
  Slt (smax a0 bs) beta ->
  within_window (smax a0 bs) beta r v ->
  (Sle bs a0 -> Sle Vd bs) ->
  (Slt a0 bs -> Vd = bs) ->
  sle beta (smax (smax a0 bs) (smax bs r)) = false ->
  smax (smax a0 bs) (smax bs r) = smax a0 (smax bs r)
  /\ Slt (smax (smax a0 bs) (smax bs r)) beta
  /\ (Sle (smax bs r) a0 -> Sle (smax Vd v) (smax bs r))
  /\ (Slt a0 (smax bs r) -> smax Vd v = smax bs r).
Proof. score_cases. Qed.

Lemma max_node_done (a0 beta bs Vd : Score) :
  Slt (smax a0 bs) beta ->
  (Sle bs a0 -> Sle Vd bs) ->
  (Slt a0 bs -> Vd = bs) ->
  within_window a0 beta bs (smax Vd NegInf).
Proof. score_cases. Qed.

(** The same for a minimizing node, with the window [(alpha, min b0 bs)]. *)
Lemma min_node_break (alpha b0 bs r v Vd F : Score) :
  Slt alpha (smin b0 bs) ->
  within_window alpha (smin b0 bs) r v ->
  sle (smin (smin b0 bs) (smin bs r)) alpha = true ->
  within_window alpha b0 (smin bs r) (smin Vd (smin v F)).
Proof. score_cases. Qed.

Lemma min_node_continue (alpha b0 bs r v Vd : Score) :
  Slt alpha (smin b0 bs) ->
  within_window alpha (smin b0 bs) r v ->
  (Sle b0 bs -> Sle bs Vd) ->
  (Slt bs b0 -> Vd = bs) ->
  sle (smin (smin b0 bs) (smin bs r)) alpha = false ->
  smin (smin b0 bs) (smin bs r) = smin b0 (smin bs r)
  /\ Slt alpha (smin (smin b0 bs) (smin bs r))
  /\ (Sle b0 (smin bs r) -> Sle (smin bs r) (smin Vd v))
  /\ (Slt (smin bs r) b0 -> smin Vd v = smin bs r).
Proof. score_cases. Qed.

Lemma min_node_done (alpha b0 bs Vd : Score) :
  Slt alpha (smin b0 bs) ->
  (Sle b0 bs -> Sle bs Vd) ->
  (Slt bs b0 -> Vd = bs) ->
  within_window alpha b0 bs (smin Vd PosInf).
Proof. score_cases. Qed.

(** The child that improves the best score inside the window has exactly
    that value. *)
Lemma max_node_best_exact (a0 beta bs r v : Score) :
  Slt (smax a0 bs) beta ->
  within_window (smax a0 bs) beta r v ->
  sle beta (smax (smax a0 bs) (smax bs r)) = false ->
  slt bs r = true ->
  Slt a0 (smax bs r) ->
  v = smax bs r.
Proof. score_cases. Qed.

Lemma max_node_best_kept (bs r : Score) : slt bs r = false -> smax bs r = bs.
Proof. score_cases. Qed.

Lemma max_node_window (a0 beta bs r : Score) :
  sle beta (smax (smax a0 bs) (smax bs r)) = false ->
  smax (smax a0 bs) (smax bs r) = smax a0 (smax bs r)
  /\ Slt (smax (smax a0 bs) (smax bs r)) beta.
Proof. score_cases. Qed.

Lemma max_node_break_outside (a0 beta bs r : Score) :
  sle beta (smax (smax a0 bs) (smax bs r)) = true ->
  Slt a0 (smax bs r) -> Slt (smax bs r) beta -> False.
Proof. score_cases. Qed.

Lemma min_node_best_exact (alpha b0 bs r v : Score) :
  Slt alpha (smin b0 bs) ->
  within_window alpha (smin b0 bs) r v ->
  sle (smin (smin b0 bs) (smin bs r)) alpha = false ->
  slt r bs = true ->
  Slt (smin bs r) b0 ->
  v = smin bs r.
Proof. score_cases. Qed.

Lemma min_node_best_kept (bs r : Score) : slt r bs = false -> smin bs r = bs.
Proof. score_cases. Qed.

Lemma min_node_window (alpha b0 bs r : Score) :
  sle (smin (smin b0 bs) (smin bs r)) alpha = false ->
  smin (smin b0 bs) (smin bs r) = smin b0 (smin bs r)
  /\ Slt alpha (smin (smin b0 bs) (smin bs r)).
Proof. score_cases. Qed.

Lemma min_node_break_outside (alpha b0 bs r : Score) :
  sle (smin (smin b0 bs) (smin bs r)) alpha = true ->
  Slt alpha (smin bs r) -> Slt (smin bs r) b0 -> False.
Proof. score_cases. Qed.

Lemma smax_assoc (x y z : Score) : smax x (smax y z) = smax (smax x y) z.
Proof. score_cases. Qed.

Lemma smax_comm (x y : Score) : smax x y = smax y x.
Proof. score_cases. Qed.

Lemma smin_assoc (x y z : Score) : smin x (smin y z) = smin (smin x y) z.
Proof. score_cases. Qed.

Lemma smin_comm (x y : Score) : smin x y = smin y x.
Proof. score_cases. Qed.

Lemma within_window_exact (alpha beta v : Score) : within_window alpha beta v v.
Proof. score_cases. Qed.

(** The full window returns the exact value. *)
Lemma within_full_window (res v : Score) : within_window NegInf PosInf res v -> res = v.
Proof. score_cases. Qed.

(** The best of a list of values does not depend on their order. *)
Lemma fold_smax_perm (l l' : list Score) :
  Permutation l l' -> fold_right smax NegInf l = fold_right smax NegInf l'.
Proof.
  induction 1; simpl; try congruence.
  rewrite !smax_assoc. f_equal. apply smax_comm.
Qed.

Lemma fold_smin_perm (l l' : list Score) :
  Permutation l l' -> fold_right smin PosInf l = fold_right smin PosInf l'.
Proof.
  induction 1; simpl; try congruence.
  rewrite !smin_assoc. f_equal. apply smin_comm.
Qed.

(** ** Drawing an index *)


Lemma length_positive (n : nat) : 0 < n -> (0 < inject_Z (Z.of_nat n))%Q.
Proof. intros Hn. change 0%Q with (inject_Z 0). rewrite <- Zlt_Qlt. lia. Qed.





(** A value of [Math.random()] gives an index below the length. *)
Lemma pick_index_below (u : Q) (n : nat) :
  (0 <= u < 1)%Q -> 0 < n -> pick_index u n < n.
Proof.
  intros [Hu0 Hu1] Hn. unfold pick_index.
  pose proof (length_positive n Hn) as Hq.
  assert (Hlt : (Qfloor (u * inject_Z (Z.of_nat n)) < Z.of_nat n)%Z).
  { rewrite Zlt_Qlt. eapply Qle_lt_trans; [apply Qfloor_le|].
    rewrite <- (Qmult_1_l (inject_Z (Z.of_nat n))) at 2.
    now apply Qmult_lt_r. }
  assert (H0 : (0 <= Qfloor (u * inject_Z (Z.of_nat n)))%Z).
  { rewrite <- (Qfloor_Z 0). apply Qfloor_resp_le.
    apply Qmult_le_0_compat; [exact Hu0|]. now apply Qlt_le_weak. }
  lia.
Qed.




(** With [Math.random()] inside its range, the index drawn is below the
    length: what the proofs below assume of the random source holds of
    every source that keeps to the range. *)
Lemma random_index_below {R : Entropy} :
  (forall g : Rng, (0 <= fst (random g) < 1)%Q) ->
  forall (g : Rng) (n : nat), 0 < n -> fst (random_index g n) < n.
Proof.
  intros Hunit g n Hn. unfold random_index.
  specialize (Hunit g). destruct (random g) as [u g']. simpl in *.
  now apply pick_index_below.
Qed.

(** ** The search *)

Section SearchProofs.
Context {E : Engine} {R : Entropy}.

(** What the search relies on from the rules library: a move it lists is
    taken when played, and [undo] takes back the move just played. *)
Hypothesis legal_moves_accepted : forall (c : Chess) (m : Move),
  In m (moves c) -> exists m' c', move c (req_of_move m) = Some (m', c').
Hypothesis undo_move : forall (c c' : Chess) (rq : MoveReq) (m : Move),
  move c rq = Some (m, c') -> undo c' = c.

(** [sort] with a random comparator rearranges the array. *)
Hypothesis sort_permutes : forall (g : Rng) (l : list Move),
  Permutation l (fst (random_sort g l)).

Lemma undo_after (c : Chess) (m : Move) : In m (moves c) -> undo (after c m) = c.
Proof using legal_moves_accepted undo_move.
  intros Hin. unfold after.
  destruct (legal_moves_accepted c m Hin) as (m' & c' & Hmv).
  rewrite Hmv. eapply undo_move; eauto.
Qed.

(** One turn of the loop: the position the recursive call starts from, and
    the position the loop goes on with. *)
Lemma search_moves_cons rec isMax (m : Move) (rest : list Move) (st : Loop) :
  search_moves rec isMax (m :: rest) st =
    let call := rec (after (l_chess st) m) (l_rng st) (l_alpha st) (l_beta st) in
    let res := fst (fst call) in
    let c3 := undo (snd (fst call)) in
    if isMax then
      let bs := if slt (l_bestScore st) (score res) then score res else l_bestScore st in
      let bm := if slt (l_bestScore st) (score res)
                then Some (uci_of m) else l_bestMove st in
      let st' := mkLoop c3 (snd call) (smax (l_alpha st) bs) (l_beta st) bs bm in
      if sle (l_beta st) (smax (l_alpha st) bs) then st' else search_moves rec isMax rest st'
    else
      let bs := if slt (score res) (l_bestScore st) then score res else l_bestScore st in
      let bm := if slt (score res) (l_bestScore st)
                then Some (uci_of m) else l_bestMove st in
      let st' := mkLoop c3 (snd call) (l_alpha st) (smin (l_beta st) bs) bs bm in
      if sle (smin (l_beta st) bs) (l_alpha st) then st' else search_moves rec isMax rest st'.
Proof.
  simpl. unfold after.
  destruct (rec _ _ _ _) as [[res c2] g2]. simpl.
  destruct isMax.
  - destruct (slt (l_bestScore st) (score res)); reflexivity.
  - destruct (slt (score res) (l_bestScore st)); reflexivity.
Qed.

(** The loop leaves the position as it found it, whether it runs to the
    end of the list or breaks, when the recursive call does. *)
Lemma search_moves_restores rec isMax :
  (forall c g a b, snd (fst (rec c g a b)) = c) ->
  forall (ms : list Move) (st : Loop),
    (forall m, In m ms -> In m (moves (l_chess st))) ->
    l_chess (search_moves rec isMax ms st) = l_chess st.
Proof using legal_moves_accepted undo_move.
  intros Hrec. induction ms as [|m rest IH]; intros st Hlegal; [reflexivity|].
  rewrite search_moves_cons. cbv zeta.
  rewrite Hrec, undo_after by (apply Hlegal; now left).
  destruct isMax.
  - match goal with |- context [if sle ?x ?y then _ else _] => destruct (sle x y) end;
      [reflexivity|].
    rewrite IH; [reflexivity|]. simpl. intros m' Hm'. apply Hlegal. now right.
  - match goal with |- context [if sle ?x ?y then _ else _] => destruct (sle x y) end;
      [reflexivity|].
    rewrite IH; [reflexivity|]. simpl. intros m' Hm'. apply Hlegal. now right.
Qed.

Lemma minimax_restores (col : PlayerColor) (depth : nat) :
  forall (c : Chess) (g : Rng) (a b : Score),
    snd (fst (minimax depth c g a b col)) = c.
Proof using legal_moves_accepted undo_move sort_permutes.
  induction depth as [|d IH]; intros c g a b; [reflexivity|].
  simpl. destruct (isGameOver c); [reflexivity|].
  pose proof (sort_permutes g (moves c)) as Hperm.
  destruct (random_sort g (moves c)) as [ms g1]. simpl in *.
  rewrite search_moves_restores; [reflexivity | exact IH |].
  simpl. intros m Hm. eapply Permutation_in; [symmetry; exact Hperm | exact Hm].
Qed.

(** C7. The search returns the position as it received it: [minimax] at
    every depth, window and colour, hence also after a pruning break, and
    [chooseAiMove] on the [Chess] object it builds from the caller's FEN
    (the caller's own object is not passed to it at all). *)
Theorem search_restores_position
    (f : string) (aiColor : PlayerColor) (d : Difficulty) (g : Rng) :
  snd (fst (chooseAiMove_run f aiColor d g)) = loadFen f
  /\ forall (depth : nat) (c : Chess) (g' : Rng) (a b : Score),
       snd (fst (minimax depth c g' a b aiColor)) = c.
Proof using legal_moves_accepted undo_move sort_permutes.
  split; [|intros; apply minimax_restores].
  unfold chooseAiMove_run.
  destruct (isGameOver (loadFen f)); [reflexivity|].
  destruct (negb _); [reflexivity|].
  destruct d.
  - match goal with
    | |- context [let '(_, _) := ?p in _] => destruct p as [[m|] g']
    end; reflexivity.
  - pose proof (minimax_restores aiColor (depth_of medium) (loadFen f) g NegInf PosInf) as H.
    destruct (minimax _ _ _ _ _ _) as [[res c'] g']. exact H.
  - pose proof (minimax_restores aiColor (depth_of hard) (loadFen f) g NegInf PosInf) as H.
    destruct (minimax _ _ _ _ _ _) as [[res c'] g']. exact H.
Qed.

(** The loop of a maximizing node.  [a0] is the [alpha] the node was
    called with, [Vd] the best exact value among the children already
    seen; the loop returns, for the children in [ms] and those before
    them, what a search within [(a0, beta)] may return. *)
Lemma search_moves_max_window rec (vf : Chess -> Score) (a0 beta : Score) :
  (forall c g a b, snd (fst (rec c g a b)) = c) ->
  (forall c g a b, Slt a b ->
     within_window a b (score (fst (fst (rec c g a b)))) (vf c)) ->
  forall (ms : list Move) (st : Loop) (Vd : Score),
    (forall m, In m ms -> In m (moves (l_chess st))) ->
    l_beta st = beta ->
    l_alpha st = smax a0 (l_bestScore st) ->
    Slt (l_alpha st) beta ->
    (Sle (l_bestScore st) a0 -> Sle Vd (l_bestScore st)) ->
    (Slt a0 (l_bestScore st) -> Vd = l_bestScore st) ->
    within_window a0 beta (l_bestScore (search_moves rec true ms st))
      (smax Vd (fold_right smax NegInf (map (fun m => vf (after (l_chess st) m)) ms))).
Proof using legal_moves_accepted undo_move.
  intros Hres Hwin. induction ms as [|m rest IH]; intros st Vd Hlegal Hb Ha Hlt HA HB.
  - simpl. rewrite Ha in Hlt. now apply max_node_done.
  - rewrite search_moves_cons. cbv zeta. rewrite best_is_max.
    rewrite Hres, undo_after by (apply Hlegal; now left).
    pose proof (Hwin (after (l_chess st) m) (l_rng st) _ _ Hlt) as Hw.
    rewrite Hb, Ha in *.
    set (r := score (fst (fst (rec (after (l_chess st) m) (l_rng st)
                                   (smax a0 (l_bestScore st)) beta)))) in *.
    simpl map. simpl fold_right.
    destruct (sle beta (smax (smax a0 (l_bestScore st)) (smax (l_bestScore st) r))) eqn:Hbr.
    + cbn [l_bestScore]. now apply max_node_break.
    + destruct (max_node_continue _ _ _ _ _ _ Hlt Hw HA HB Hbr) as (E1 & E2 & E3 & E4).
      rewrite (smax_assoc Vd (vf (after (l_chess st) m))).
      match goal with
      | |- context [search_moves rec true rest ?s] => specialize (IH s)
      end.
      cbn [l_chess l_rng l_alpha l_beta l_bestScore l_bestMove] in IH.
      apply IH; auto.
      intros m' Hm'. apply Hlegal. now right.
Qed.

(** The loop of a minimizing node, with [b0] the [beta] of the call. *)
Lemma search_moves_min_window rec (vf : Chess -> Score) (alpha b0 : Score) :
  (forall c g a b, snd (fst (rec c g a b)) = c) ->
  (forall c g a b, Slt a b ->
     within_window a b (score (fst (fst (rec c g a b)))) (vf c)) ->
  forall (ms : list Move) (st : Loop) (Vd : Score),
    (forall m, In m ms -> In m (moves (l_chess st))) ->
    l_alpha st = alpha ->
    l_beta st = smin b0 (l_bestScore st) ->
    Slt alpha (l_beta st) ->
    (Sle b0 (l_bestScore st) -> Sle (l_bestScore st) Vd) ->
    (Slt (l_bestScore st) b0 -> Vd = l_bestScore st) ->
    within_window alpha b0 (l_bestScore (search_moves rec false ms st))
      (smin Vd (fold_right smin PosInf (map (fun m => vf (after (l_chess st) m)) ms))).
Proof using legal_moves_accepted undo_move.
  intros Hres Hwin. induction ms as [|m rest IH]; intros st Vd Hlegal Ha Hb Hlt HA HB.
  - simpl. rewrite Hb in Hlt. now apply min_node_done.
  - rewrite search_moves_cons. cbv zeta. rewrite best_is_min.
    rewrite Hres, undo_after by (apply Hlegal; now left).
    rewrite <- Ha in Hlt.
    pose proof (Hwin (after (l_chess st) m) (l_rng st) _ _ Hlt) as Hw.
    rewrite Hb, Ha in *.
    set (r := score (fst (fst (rec (after (l_chess st) m) (l_rng st)
                                   alpha (smin b0 (l_bestScore st)))))) in *.
    simpl map. simpl fold_right.
    destruct (sle (smin (smin b0 (l_bestScore st)) (smin (l_bestScore st) r)) alpha) eqn:Hbr.
    + cbn [l_bestScore]. now apply min_node_break.
    + destruct (min_node_continue _ _ _ _ _ _ Hlt Hw HA HB Hbr) as (E1 & E2 & E3 & E4).
      rewrite (smin_assoc Vd (vf (after (l_chess st) m))).
      match goal with
      | |- context [search_moves rec false rest ?s] => specialize (IH s)
      end.
      cbn [l_chess l_rng l_alpha l_beta l_bestScore l_bestMove] in IH.
      apply IH; auto.
      intros m' Hm'. apply Hlegal. now right.
Qed.

(** Within any window [alpha < beta] the search returns the exact
    minimax value of the position, or a bound on the side where the
    value falls out of the window. *)
Lemma minimax_within_window (col : PlayerColor) (depth : nat) :
  forall (c : Chess) (g : Rng) (a b : Score),
    Slt a b ->
    within_window a b (score (fst (fst (minimax depth c g a b col))))
                  (plain_minimax depth c col).
Proof using legal_moves_accepted undo_move sort_permutes.
  induction depth as [|d IH]; intros c g a b Hab.
  - simpl. apply within_window_exact.
  - simpl. destruct (isGameOver c); [apply within_window_exact|].
    pose proof (sort_permutes g (moves c)) as Hperm.
    destruct (random_sort g (moves c)) as [ms g1]. simpl in Hperm. simpl.
    assert (Hlegal : forall m, In m ms -> In m (moves c)).
    { intros m Hm. eapply Permutation_in; [symmetry; exact Hperm | exact Hm]. }
    destruct (color_eqb (turn c) col).
    + rewrite (fold_smax_perm _ _
                 (Permutation_map (fun m => plain_minimax d (after c m) col) Hperm)).
      replace (fold_right smax NegInf _) with
        (smax NegInf (fold_right smax NegInf
                        (map (fun m => plain_minimax d (after c m) col) ms)))
        by reflexivity.
      apply (search_moves_max_window
               (fun c' g' a' b' => minimax d c' g' a' b' col)
               (fun c' => plain_minimax d c' col) a b
               (minimax_restores col d) IH ms (mkLoop c g1 a b NegInf None) NegInf);
        simpl; auto; score_cases.
    + rewrite (fold_smin_perm _ _
                 (Permutation_map (fun m => plain_minimax d (after c m) col) Hperm)).
      replace (fold_right smin PosInf _) with
        (smin PosInf (fold_right smin PosInf
                        (map (fun m => plain_minimax d (after c m) col) ms)))
        by reflexivity.
      apply (search_moves_min_window
               (fun c' g' a' b' => minimax d c' g' a' b' col)
               (fun c' => plain_minimax d c' col) a b
               (minimax_restores col d) IH ms (mkLoop c g1 a b PosInf None) PosInf);
        simpl; auto; score_cases.
Qed.

(** *** The move that is chosen *)

(** A game that is not over has a legal move (no legal move is checkmate
    or stalemate). *)
Hypothesis moves_available : forall c : Chess,
  isGameOver c = false -> moves c <> [].

(** [Math.random()] is below 1, so the index drawn is below the length
    ([random_index_below]). *)
Hypothesis index_below : forall (g : Rng) (n : nat),
  0 < n -> fst (random_index g n) < n.

Lemma search_moves_settled rec (isMax : bool) (P : Move -> Prop) :
  (forall c g a b, exists z, score (fst (fst (rec c g a b))) = Fin z) ->
  forall (ms : list Move) (st : Loop),
    (forall m, In m ms -> P m) ->
    settled P st \/
      (ms <> [] /\ l_bestScore st = if isMax then NegInf else PosInf) ->
    settled P (search_moves rec isMax ms st).
Proof.
  intros Hfin. induction ms as [|m rest IH]; intros st HP Hst.
  - destruct Hst as [Hst | [Hne _]]; [exact Hst | congruence].
  - rewrite search_moves_cons. cbv zeta.
    destruct (Hfin (after (l_chess st) m) (l_rng st) (l_alpha st) (l_beta st)) as [z Hz].
    rewrite Hz.
    assert (Hrest : forall m', In m' rest -> P m') by (intros; apply HP; now right).
    assert (Hm : P m) by (apply HP; now left).
    destruct isMax.
    + assert (Hnew : settled P
                (mkLoop (undo (snd (fst (rec (after (l_chess st) m) (l_rng st)
                                             (l_alpha st) (l_beta st)))))
                        (snd (rec (after (l_chess st) m) (l_rng st)
                                  (l_alpha st) (l_beta st)))
                        (smax (l_alpha st)
                              (if slt (l_bestScore st) (Fin z) then Fin z
                               else l_bestScore st))
                        (l_beta st)
                        (if slt (l_bestScore st) (Fin z) then Fin z else l_bestScore st)
                        (if slt (l_bestScore st) (Fin z) then Some (uci_of m)
                         else l_bestMove st))).
      { destruct Hst as [[[z0 Hz0] (m0 & Hm0 & Hb0)] | [_ Hinit]].
        - rewrite Hz0, Hb0. split; simpl.
          + destruct (Z.ltb z0 z); eauto.
          + destruct (Z.ltb z0 z); eauto.
        - rewrite Hinit. simpl. split; eauto. }
      destruct (sle _ _); [exact Hnew | apply IH; auto].
    + assert (Hnew : settled P
                (mkLoop (undo (snd (fst (rec (after (l_chess st) m) (l_rng st)
                                             (l_alpha st) (l_beta st)))))
                        (snd (rec (after (l_chess st) m) (l_rng st)
                                  (l_alpha st) (l_beta st)))
                        (l_alpha st)
                        (smin (l_beta st)
                              (if slt (Fin z) (l_bestScore st) then Fin z
                               else l_bestScore st))
                        (if slt (Fin z) (l_bestScore st) then Fin z else l_bestScore st)
                        (if slt (Fin z) (l_bestScore st) then Some (uci_of m)
                         else l_bestMove st))).
      { destruct Hst as [[[z0 Hz0] (m0 & Hm0 & Hb0)] | [_ Hinit]].
        - rewrite Hz0, Hb0. split; simpl.
          + destruct (Z.ltb z z0); eauto.
          + destruct (Z.ltb z z0); eauto.
        - rewrite Hinit. simpl. split; eauto. }
      destruct (sle _ _); [exact Hnew | apply IH; auto].
Qed.

(** Every score the search returns is a number. *)
Lemma minimax_score_finite (col : PlayerColor) (depth : nat) :
  forall (c : Chess) (g : Rng) (a b : Score),
    exists z, score (fst (fst (minimax depth c g a b col))) = Fin z.
Proof using moves_available sort_permutes.
  assert (Hleaf : forall c, exists z, leaf c col = Fin z).
  { intros c. unfold leaf.
    destruct (isCheckmate c); [destruct (color_eqb _ _); eauto|].
    destruct (_ || _); eauto. }
  induction depth as [|d IH]; intros c g a b; [apply Hleaf|].
  simpl. destruct (isGameOver c) eqn:Hover; [apply Hleaf|].
  pose proof (sort_permutes g (moves c)) as Hperm.
  destruct (random_sort g (moves c)) as [ms g1]. simpl in Hperm. simpl.
  apply (search_moves_settled _ _ (fun _ => True) IH); [auto|].
  right. split; [|reflexivity].
  intros ->. symmetry in Hperm. apply Permutation_nil in Hperm.
  now apply moves_available in Hover.
Qed.

(** At a position that is not over, a search of depth at least one
    returns one of the legal moves. *)
Lemma minimax_best_legal (col : PlayerColor) (d : nat) (c : Chess) (g : Rng) (a b : Score) :
  isGameOver c = false ->
  exists m, In m (moves c)
            /\ best (fst (fst (minimax (S d) c g a b col))) = Some (uci_of m).
Proof using moves_available sort_permutes.
  intros Hover. simpl. rewrite Hover.
  pose proof (sort_permutes g (moves c)) as Hperm.
  destruct (random_sort g (moves c)) as [ms g1]. simpl in Hperm. simpl.
  apply (search_moves_settled
           (fun c' g' a' b' => minimax d c' g' a' b' col) (color_eqb (turn c) col)
           (fun m => In m (moves c)) (minimax_score_finite col d)).
  - intros m Hm. eapply Permutation_in; [symmetry; exact Hperm | exact Hm].
  - right. split; [|reflexivity].
    intros ->. symmetry in Hperm. apply Permutation_nil in Hperm.
  now apply moves_available in Hover.
Qed.

(** The best move of a maximizing loop: when the best score ends strictly
    inside [(a0, beta)], the move recorded with it has exactly that value. *)
Lemma search_moves_max_best rec (vf : Chess -> Score) (a0 beta : Score) (c : Chess) :
  (forall c g a b, snd (fst (rec c g a b)) = c) ->
  (forall c g a b, Slt a b ->
     within_window a b (score (fst (fst (rec c g a b)))) (vf c)) ->
  forall (ms : list Move) (st : Loop),
    (forall m, In m ms -> In m (moves c)) ->
    l_chess st = c ->
    l_beta st = beta ->
    l_alpha st = smax a0 (l_bestScore st) ->
    Slt (l_alpha st) beta ->
    (Slt a0 (l_bestScore st) ->
     best_is_exact (fun m => vf (after c m)) (fun m => In m (moves c)) st) ->
    Slt a0 (l_bestScore (search_moves rec true ms st)) ->
    Slt (l_bestScore (search_moves rec true ms st)) beta ->
    best_is_exact (fun m => vf (after c m)) (fun m => In m (moves c))
                  (search_moves rec true ms st).
Proof using legal_moves_accepted undo_move.
  intros Hres Hwin. induction ms as [|m rest IH]; intros st Hlegal Hc Hb Ha Hlt HM.
  - simpl. auto.
  - assert (Hm : In m (moves c)) by (apply Hlegal; now left).
    rewrite search_moves_cons. cbv zeta. rewrite best_is_max.
    rewrite Hres, Hc, undo_after by exact Hm.
    pose proof (Hwin (after c m) (l_rng st) _ _ Hlt) as Hw.
    rewrite Hb, Ha in *.
    set (r := score (fst (fst (rec (after c m) (l_rng st)
                                   (smax a0 (l_bestScore st)) beta)))) in *.
    destruct (sle beta (smax (smax a0 (l_bestScore st)) (smax (l_bestScore st) r))) eqn:Hbr.
    + cbn [l_bestScore]. intros H1 H2.
      destruct (max_node_break_outside _ _ _ _ Hbr H1 H2).
    + destruct (max_node_window _ _ _ _ Hbr) as (E1 & E2).
      apply IH; cbn [l_chess l_rng l_alpha l_beta l_bestScore l_bestMove]; auto.
      { intros m' Hm'. apply Hlegal. now right. }
      intros Hin. unfold best_is_exact. cbn [l_bestScore l_bestMove].
      destruct (slt (l_bestScore st) r) eqn:Himp.
      * exists m. repeat split; auto.
        exact (max_node_best_exact _ _ _ _ _ Hlt Hw Hbr Himp Hin).
      * rewrite (max_node_best_kept _ _ Himp) in *. apply HM. exact Hin.
Qed.

Lemma search_moves_min_best rec (vf : Chess -> Score) (alpha b0 : Score) (c : Chess) :
  (forall c g a b, snd (fst (rec c g a b)) = c) ->
  (forall c g a b, Slt a b ->
     within_window a b (score (fst (fst (rec c g a b)))) (vf c)) ->
  forall (ms : list Move) (st : Loop),
    (forall m, In m ms -> In m (moves c)) ->
    l_chess st = c ->
    l_alpha st = alpha ->
    l_beta st = smin b0 (l_bestScore st) ->
    Slt alpha (l_beta st) ->
    (Slt (l_bestScore st) b0 ->
     best_is_exact (fun m => vf (after c m)) (fun m => In m (moves c)) st) ->
    Slt alpha (l_bestScore (search_moves rec false ms st)) ->
    Slt (l_bestScore (search_moves rec false ms st)) b0 ->
    best_is_exact (fun m => vf (after c m)) (fun m => In m (moves c))
                  (search_moves rec false ms st).
Proof using legal_moves_accepted undo_move.
  intros Hres Hwin. induction ms as [|m rest IH]; intros st Hlegal Hc Ha Hb Hlt HM.
  - simpl. auto.
  - assert (Hm : In m (moves c)) by (apply Hlegal; now left).
    rewrite search_moves_cons. cbv zeta. rewrite best_is_min.
    rewrite Hres, Hc, undo_after by exact Hm.
    rewrite <- Ha in Hlt.
    pose proof (Hwin (after c m) (l_rng st) _ _ Hlt) as Hw.
    rewrite Hb, Ha in *.
    set (r := score (fst (fst (rec (after c m) (l_rng st)
                                   alpha (smin b0 (l_bestScore st)))))) in *.
    destruct (sle (smin (smin b0 (l_bestScore st)) (smin (l_bestScore st) r)) alpha) eqn:Hbr.
    + cbn [l_bestScore]. intros H1 H2.
      destruct (min_node_break_outside _ _ _ _ Hbr H1 H2).
    + destruct (min_node_window _ _ _ _ Hbr) as (E1 & E2).
      apply IH; cbn [l_chess l_rng l_alpha l_beta l_bestScore l_bestMove]; auto.
      { intros m' Hm'. apply Hlegal. now right. }
      intros Hin. unfold best_is_exact. cbn [l_bestScore l_bestMove].
      destruct (slt r (l_bestScore st)) eqn:Himp.
      * exists m. repeat split; auto.
        exact (min_node_best_exact _ _ _ _ _ Hlt Hw Hbr Himp Hin).
      * rewrite (min_node_best_kept _ _ Himp) in *. apply HM. exact Hin.
Qed.

(** A node whose score ends strictly inside its window returns a move of
    exactly that value. *)
Lemma minimax_best_exact (col : PlayerColor) (d : nat) (c : Chess) (g : Rng) (a b : Score) :
  Slt a b ->
  isGameOver c = false ->
  Slt a (score (fst (fst (minimax (S d) c g a b col)))) ->
  Slt (score (fst (fst (minimax (S d) c g a b col)))) b ->
  exists m,
    In m (moves c)
    /\ best (fst (fst (minimax (S d) c g a b col))) = Some (uci_of m)
    /\ plain_minimax d (after c m) col = score (fst (fst (minimax (S d) c g a b col))).
Proof using legal_moves_accepted undo_move sort_permutes.
  clear moves_available index_below.
  intros Hab Hover. simpl. rewrite Hover.
  pose proof (sort_permutes g (moves c)) as Hperm.
  destruct (random_sort g (moves c)) as [ms g1]. simpl in Hperm. simpl.
  assert (Hlegal : forall m, In m ms -> In m (moves c)).
  { intros m Hm. eapply Permutation_in; [symmetry; exact Hperm | exact Hm]. }
  destruct (color_eqb (turn c) col); intros H1 H2.
  - apply (search_moves_max_best
             (fun c' g' a' b' => minimax d c' g' a' b' col)
             (fun c' => plain_minimax d c' col) a b c
             (minimax_restores col d) (minimax_within_window col d)
             ms (mkLoop c g1 a b NegInf None)); simpl; auto.
    + score_cases.
    + intros H. exfalso. revert H. score_cases.
  - apply (search_moves_min_best
             (fun c' g' a' b' => minimax d c' g' a' b' col)
             (fun c' => plain_minimax d c' col) a b c
             (minimax_restores col d) (minimax_within_window col d)
             ms (mkLoop c g1 a b PosInf None)); simpl; auto.
    + score_cases.
    + intros H. exfalso. revert H. score_cases.
Qed.

(** C6. With the full window, at every position and depth and whatever
    the random source and the order it gives to the moves of each node,
    the score [minimax] returns is the value of plain minimax, which
    explores every move and prunes nothing; and where a move is returned
    (the game is not over and the depth is not zero) it is a legal move
    whose own plain minimax value is that score: order and cutoffs decide
    only which of the best moves it is. *)
Theorem minimax_full_window_exact
    (depth : nat) (c : Chess) (g : Rng) (maximizingFor : PlayerColor) :
  score (fst (fst (minimax depth c g NegInf PosInf maximizingFor)))
  = plain_minimax depth c maximizingFor
  /\ forall d, depth = S d -> isGameOver c = false ->
       exists m,
         In m (moves c)
         /\ best (fst (fst (minimax depth c g NegInf PosInf maximizingFor)))
            = Some (uci_of m)
         /\ plain_minimax d (after c m) maximizingFor
            = plain_minimax depth c maximizingFor.
Proof using legal_moves_accepted undo_move sort_permutes moves_available.
  assert (Hscore : score (fst (fst (minimax depth c g NegInf PosInf maximizingFor)))
                   = plain_minimax depth c maximizingFor).
  { apply within_full_window, minimax_within_window. reflexivity. }
  split; [exact Hscore|].
  intros d -> Hover. rewrite <- Hscore.
  destruct (minimax_score_finite maximizingFor (S d) c g NegInf PosInf) as [z Hz].
  apply minimax_best_exact;
    [reflexivity | exact Hover | rewrite Hz; reflexivity | rewrite Hz; reflexivity].
Qed.

(** The captures among the moves of a position. *)
Lemma easy_pool_spec (c : Chess) :
  moves c <> [] ->
  easy_pool c <> []
  /\ (forall m, In m (easy_pool c) -> In m (moves c))
  /\ ((exists m, In m (moves c) /\ is_Some (m_captured m)) ->
      forall m, In m (easy_pool c) <-> In m (moves c) /\ is_Some (m_captured m))
  /\ ((forall m, In m (moves c) -> m_captured m = None) -> easy_pool c = moves c).
Proof.
  intros Hne. unfold easy_pool.
  set (cap := fun m => bool_decide (is_Some (m_captured m))).
  assert (Hcap : forall m, In m (List.filter cap (moves c))
                           <-> In m (moves c) /\ is_Some (m_captured m)).
  { intros m. rewrite filter_In. unfold cap. now rewrite bool_decide_eq_true. }
  destruct (List.filter cap (moves c)) as [|x l] eqn:Hf.
  - split; [exact Hne|]. split; [auto|]. split; [|reflexivity].
    intros (m0 & Hm0). apply Hcap in Hm0. destruct Hm0.
  - split; [discriminate|]. split; [|split].
    + intros m Hm. now apply Hcap in Hm.
    + intros _. exact Hcap.
    + intros Hnone. assert (Hx : In x (x :: l)) by now left.
      apply Hcap in Hx. destruct Hx as [Hin [y Hy]]. rewrite (Hnone x Hin) in Hy.
      discriminate.
Qed.

(** The easy level: the index drawn is inside the pool, and the entry at
    that index is what is returned. *)
Lemma easy_draw_in_pool (c : Chess) (g : Rng) :
  isGameOver c = false ->
  fst (random_index g (length (easy_pool c))) < length (easy_pool c).
Proof using moves_available index_below.
  intros Hover.
  destruct (easy_pool_spec c (moves_available c Hover)) as (Hne & _).
  apply index_below. destruct (easy_pool c); [congruence | simpl; lia].
Qed.

Lemma easy_run (f : string) (aiColor : PlayerColor) (g : Rng) (m : Move) :
  isGameOver (loadFen f) = false ->
  turn (loadFen f) = aiColor ->
  nth_error (easy_pool (loadFen f))
            (fst (random_index g (length (easy_pool (loadFen f))))) = Some m ->
  chooseAiMove_run f aiColor easy g
  = (Normal (Some (uci_of m)), loadFen f,
     snd (random_index g (length (easy_pool (loadFen f))))).
Proof.
  intros Hover Hturn Hnth.
  unfold chooseAiMove_run. rewrite Hover, Hturn.
  replace (negb (color_eqb aiColor aiColor)) with false by now destruct aiColor.
  unfold easy_pool in *.
  destruct (List.filter _ (moves (loadFen f))) as [|x l];
    unfold pickRandom;
    match goal with
    | |- context [random_index g ?n] => destruct (random_index g n) as [i g']
    end; simpl in *; rewrite Hnth; reflexivity.
Qed.

(** On a position that is not over, with the engine to move, every level
    returns the coordinate string of a legal move. *)
Lemma chooseAiMove_run_legal (f : string) (aiColor : PlayerColor) (d : Difficulty) (g : Rng) :
  isGameOver (loadFen f) = false ->
  turn (loadFen f) = aiColor ->
  exists m c' g',
    In m (moves (loadFen f))
    /\ chooseAiMove_run f aiColor d g = (Normal (Some (uci_of m)), c', g').
Proof using moves_available sort_permutes index_below.
  intros Hover Hturn. destruct d.
  - pose proof (easy_draw_in_pool (loadFen f) g Hover) as Hlt.
    destruct (nth_error (easy_pool (loadFen f))
                (fst (random_index g (length (easy_pool (loadFen f)))))) as [m|] eqn:Hnth.
    2:{ apply nth_error_None in Hnth. lia. }
    exists m. do 2 eexists. split; [|now apply easy_run].
    destruct (easy_pool_spec _ (moves_available _ Hover)) as (_ & Hsub & _).
    apply Hsub. eapply nth_error_In; eauto.
  - destruct (minimax_best_legal aiColor 1 (loadFen f) g NegInf PosInf Hover)
      as (m & Hin & Hbest).
    exists m. unfold chooseAiMove_run. rewrite Hover, Hturn.
    replace (negb (color_eqb aiColor aiColor)) with false by now destruct aiColor.
    unfold depth_of.
    destruct (minimax 2 _ _ _ _ _) as [[res c'] g']. simpl in *. rewrite Hbest. eauto.
  - destruct (minimax_best_legal aiColor 2 (loadFen f) g NegInf PosInf Hover)
      as (m & Hin & Hbest).
    exists m. unfold chooseAiMove_run. rewrite Hover, Hturn.
    replace (negb (color_eqb aiColor aiColor)) with false by now destruct aiColor.
    unfold depth_of.
    destruct (minimax 3 _ _ _ _ _) as [[res c'] g']. simpl in *. rewrite Hbest. eauto.
Qed.


(** C5. [chooseAiMove] answers [null] on a finished position and when the
    side to move is not the engine's; on a position that is not finished
    with the engine to move it answers, at every difficulty, the
    coordinate string of one of the legal moves of the position. *)
Theorem chooseAiMove_legal (f : string) (aiColor : PlayerColor) (d : Difficulty) (g : Rng) :
  (isGameOver (loadFen f) = true \/ turn (loadFen f) <> aiColor ->
   chooseAiMove f aiColor d g = Normal None)
  /\ (isGameOver (loadFen f) = false -> turn (loadFen f) = aiColor ->
      exists m, In m (moves (loadFen f))
                /\ chooseAiMove f aiColor d g = Normal (Some (uci_of m))).
Proof using moves_available sort_permutes index_below.
  split.
  - intros H. unfold chooseAiMove, chooseAiMove_run.
    destruct (isGameOver (loadFen f)); [reflexivity|].
    destruct H as [H | H]; [discriminate|].
    destruct (turn (loadFen f)), aiColor; simpl; congruence.
  - intros Hover Hturn.
    destruct (chooseAiMove_run_legal f aiColor d g Hover Hturn) as (m & c' & g' & Hin & Hrun).
    exists m. split; [exact Hin|]. unfold chooseAiMove. now rewrite Hrun.
Qed.

(** *** The reply of the computer in a solo room *)

(** What [applyMove] relies on besides: a move that is taken passes the
    turn; the position rebuilt from the FEN string has the side to move
    and the legal moves of the original, and is not over unless the
    original is; the moves the library lists are taken when played; their
    squares are two characters long and a promotion piece is one. *)
Hypothesis move_passes_turn : forall (c c' : Chess) (rq : MoveReq) (m : Move),
  move c rq = Some (m, c') -> turn c' = other (turn c).
Hypothesis fen_turn : forall c : Chess, turn (loadFen (fen c)) = turn c.
Hypothesis fen_over : forall c : Chess,
  isGameOver (loadFen (fen c)) = true -> isGameOver c = true.
Hypothesis fen_moves : forall (c : Chess) (m : Move),
  In m (moves (loadFen (fen c))) -> In m (moves c).
Hypothesis move_format : forall (c : Chess) (m : Move),
  In m (moves c) ->
  String.length (m_from m) = 2 /\ String.length (m_to m) = 2
  /\ (m_promotion m = None
      \/ exists p, m_promotion m = Some p /\ String.length p = 1).

(** Slicing the coordinate string of a well-formed move gives back its
    squares and its promotion piece, and the string is not empty. *)
Lemma req_of_uci_of (m : Move) :
  String.length (m_from m) = 2 -> String.length (m_to m) = 2 ->
  (m_promotion m = None
   \/ exists p, m_promotion m = Some p /\ String.length p = 1) ->
  req_of_uci (uci_of m) = req_of_move m
  /\ or_undefined (uci_of m) <> None.
Proof.
  destruct m as [fr to pr cap]. unfold req_of_uci, req_of_move, uci_of, slice. simpl.
  intros Hf Ht Hp.
  destruct fr as [|a1 [|a2 [|? ?]]]; try discriminate.
  destruct to as [|b1 [|b2 [|? ?]]]; try discriminate.
  destruct Hp as [-> | (p & -> & Hp)].
  - simpl. split; [reflexivity | discriminate].
  - destruct p as [|p1 [|? ?]]; try discriminate.
    simpl. split; [reflexivity | discriminate].
Qed.

(** C2. In a solo room in play, when White (the human) makes a move the
    rules library takes: if that move ends the game, the room is finalized
    on the position after it and the computer does not move; otherwise the
    search returns a legal move of that position, this one move is played
    on it, and the side to move of the resulting position is White again. *)
Theorem solo_reply
    (r : ChessRoom) (pid uci : string) (g : Rng) (mv : Move) (c1 : Chess) :
  mode (selection r) = solo ->
  status r = playing ->
  turn (chess r) = White ->
  seated_as r White pid = true ->
  move (chess r) (req_of_uci uci) = Some (mv, c1) ->
  let r1 := set_lastMove (set_chess r c1) (Some (uci_of mv)) in
  (isGameOver c1 = true ->
     applyMove r pid uci g = (maybeFinalize r1, Normal accept, g)
     /\ status (maybeFinalize r1) = ended
     /\ chess (maybeFinalize r1) = c1)
  /\ (isGameOver c1 = false ->
      exists m m2 c2 g',
        In m (moves c1)
        /\ chooseAiMove (fen c1) Black (difficulty (selection r)) g
           = Normal (Some (uci_of m))
        /\ move c1 (req_of_move m) = Some (m2, c2)
        /\ applyMove r pid uci g
           = (maybeFinalize (set_lastMove (set_chess r1 c2) (Some (uci_of m2))),
              Normal accept, g')
        /\ chess (fst (fst (applyMove r pid uci g))) = c2
        /\ turn c2 = White).
Proof using moves_available sort_permutes index_below move_passes_turn fen_turn
            fen_over fen_moves legal_moves_accepted move_format.
  intros Hmode Hst Hturn Hseat Hmove r1.
  destruct (maybeFinalize_frame r1) as (_ & Hsel & _ & Hchess & _ & Hsame & Hend & _).
  assert (Hc1 : chess r1 = c1) by reflexivity.
  assert (Hstart :
    applyMove r pid uci g =
      (let r1' := maybeFinalize r1 in
       if mode_eqb (mode (selection r1')) solo && status_eqb (status r1') playing then
         let '(ai, _, g') :=
           chooseAiMove_run (fen (chess r1')) Black (difficulty (selection r1')) g in
         match ai with
         | Throw e => (r1', Throw e, g')
         | Normal None => (r1', Normal accept, g')
         | Normal (Some aiMove) =>
             match or_undefined aiMove with
             | None => (r1', Normal accept, g')
             | Some _ => (applyAiMove r1' aiMove, Normal accept, g')
             end
         end
       else (r1', Normal accept, g))).
  { unfold applyMove. rewrite Hst, Hturn, Hseat, Hmove. reflexivity. }
  split.
  - intros Hover. rewrite Hc1 in Hend. specialize (Hend Hover).
    split; [|split; [exact Hend | now rewrite Hchess]].
    rewrite Hstart. cbv zeta. rewrite Hend. simpl.
    now rewrite andb_false_r.
  - intros Hover. rewrite Hc1 in Hsame. specialize (Hsame Hover).
    assert (Hover' : isGameOver (loadFen (fen c1)) = false).
    { destruct (isGameOver (loadFen (fen c1))) eqn:Ho; [|reflexivity].
      apply fen_over in Ho. congruence. }
    assert (Hturn' : turn (loadFen (fen c1)) = Black).
    { rewrite fen_turn, (move_passes_turn _ _ _ _ Hmove), Hturn. reflexivity. }
    destruct (chooseAiMove_run_legal (fen c1) Black (difficulty (selection r)) g
                Hover' Hturn') as (m & c' & g' & Hin & Hrun).
    apply fen_moves in Hin.
    destruct (legal_moves_accepted c1 m Hin) as (m2 & c2 & Hmv2).
    destruct (move_format c1 m Hin) as (Hf & Ht & Hp).
    destruct (req_of_uci_of m Hf Ht Hp) as (Hreq & Hnonempty).
    assert (Happly : applyMove r pid uci g
              = (maybeFinalize (set_lastMove (set_chess r1 c2) (Some (uci_of m2))),
                 Normal accept, g')).
    { rewrite Hstart. cbv zeta. rewrite Hsame.
      replace (mode (selection r1)) with solo by (symmetry; exact Hmode).
      replace (status r1) with playing by (symmetry; exact Hst).
      replace (chess r1) with c1 by reflexivity.
      replace (difficulty (selection r1)) with (difficulty (selection r)) by reflexivity.
      simpl. rewrite Hrun.
      destruct (or_undefined (uci_of m)); [|congruence].
      unfold applyAiMove. rewrite Hreq.
      replace (chess r1) with c1 by reflexivity. rewrite Hmv2. reflexivity. }
    exists m, m2, c2, g'. split; [exact Hin|]. split.
    { unfold chooseAiMove. now rewrite Hrun. }
    split; [exact Hmv2|]. split; [exact Happly|]. split.
    + rewrite Happly. simpl.
      destruct (maybeFinalize_frame (set_lastMove (set_chess r1 c2) (Some (uci_of m2))))
        as (_ & _ & _ & Hch & _). rewrite Hch. reflexivity.
    + rewrite (move_passes_turn _ _ _ _ Hmv2), (move_passes_turn _ _ _ _ Hmove), Hturn.
      reflexivity.
Qed.

End SearchProofs.

(** * Further properties of the room *)

(** ** Seat assignment *)

Section MoreSeats.
Context {E : Engine}.

(** [assignSeat] answers in one of three ways. *)
Lemma assignSeat_cases (r : ChessRoom) (pid : string) :
  (exists c, seated_as r c pid = true /\ assignSeat r pid = (r, seat_ok c))
  \/ (exists c, seated_as r White pid = false /\ seated_as r Black pid = false
                /\ seat_at (seats r) c = None
                /\ seated_as (fst (assignSeat r pid)) c pid = true
                /\ snd (assignSeat r pid) = seat_ok c
                /\ fst (assignSeat r pid)
                   = set_seats r (seats (fst (assignSeat r pid))))
  \/ (exists reason, assignSeat r pid = (r, seat_refused reason)
                     /\ (reason = "Room already has a solo player." \/ reason = "Room full")).
Proof.
  unfold assignSeat, seat_ok, seat_refused.
  destruct (seated_as r White pid) eqn:Hw; [left; exists White; auto|].
  destruct (seated_as r Black pid) eqn:Hb; [left; exists Black; auto|].
  destruct (mode (selection r)).
  - destruct (seat_w (seats r)) as [s|] eqn:Hsw.
    + unfold seated_as in Hw. simpl in Hw. rewrite Hsw in Hw. rewrite Hw. simpl.
      right. right. eauto.
    + right. left. exists White. unfold seated_as. simpl.
      rewrite String.eqb_refl. repeat split; auto.
  - destruct (seat_w (seats r)) as [s|] eqn:Hsw.
    + destruct (seat_b (seats r)) as [s'|] eqn:Hsb.
      * right. right. eauto.
      * right. left. exists Black. unfold seated_as. simpl.
        rewrite String.eqb_refl. repeat split; auto.
    + right. left. exists White. unfold seated_as. simpl.
      rewrite String.eqb_refl. repeat split; auto.
Qed.

(** X1. The answer of [assignSeat] can be trusted: with [ok] it names a
    colour and the identity holds that seat in the room returned; without
    [ok] it names no colour, gives one of the two reasons, and the room is
    returned as it was. *)
Theorem assignSeat_reply_sound (r r' : ChessRoom) (pid : string) (reply : SeatReply) :
  assignSeat r pid = (r', reply) ->
  (sr_ok reply = true ->
     sr_reason reply = None
     /\ exists c, sr_color reply = Some c /\ seated_as r' c pid = true)
  /\ (sr_ok reply = false ->
      r' = r /\ sr_color reply = None
      /\ (sr_reason reply = Some "Room already has a solo player."
          \/ sr_reason reply = Some "Room full")).
Proof.
  intros H.
  destruct (assignSeat_cases r pid)
    as [(c & Hc & Ha) | [(c & _ & _ & _ & Hc & Hr & _) | (reason & Ha & Hreason)]].
  - rewrite Ha in H. injection H as <- <-. split; [|discriminate].
    intros _. split; [reflexivity|]. exists c. auto.
  - rewrite H in Hc, Hr. simpl in Hc, Hr. subst reply. split; [|discriminate].
    intros _. split; [reflexivity|]. exists c. auto.
  - rewrite Ha in H. injection H as <- <-. split; [discriminate|].
    intros _. repeat split. destruct Hreason as [-> | ->]; auto.
Qed.

(** X2. [assignSeat] touches nothing but the seats, and it never puts
    anyone out of a seat, with one exception: in solo mode the Black seat
    is given to the computer whoever held it. *)
Theorem assignSeat_keeps_occupants (r : ChessRoom) (pid : string) :
  let r' := fst (assignSeat r pid) in
  (room_id r' = room_id r /\ selection r' = selection r /\ chess r' = chess r
   /\ status r' = status r /\ winner r' = winner r /\ endReason r' = endReason r
   /\ lastMove r' = lastMove r)
  /\ (forall s, seat_w (seats r) = Some s -> seat_w (seats r') = Some s)
  /\ (forall s, seat_b (seats r) = Some s ->
        seat_b (seats r') = Some s
        \/ (mode (selection r) = solo /\ seat_b (seats r') = Some (mkSeat "AI" Black))).
Proof.
  unfold assignSeat.
  destruct (seated_as r White pid) eqn:Hw; [simpl; repeat split; auto|].
  destruct (seated_as r Black pid) eqn:Hb; [simpl; repeat split; auto|].
  destruct (mode (selection r)) eqn:Hm.
  - destruct (seat_w (seats r)) as [s|] eqn:Hsw.
    + unfold seated_as in Hw. simpl in Hw. rewrite Hsw in Hw. rewrite Hw. simpl.
      repeat split; auto; intros; congruence.
    + simpl. repeat split; auto; intros; congruence.
  - destruct (seat_w (seats r)) as [s|] eqn:Hsw.
    + destruct (seat_b (seats r)) as [s'|] eqn:Hsb; simpl;
        repeat split; auto; intros; try congruence; left; congruence.
    + simpl. repeat split; auto; intros; congruence.
Qed.

(** X3. A duo room with free seats takes the first identity as White and
    the next, different one as Black, and refuses a third with "Room
    full" without changing anything; in the lobby it can be started after
    the second and not after the first. *)
Theorem assignSeat_duo_order (r : ChessRoom) (p1 p2 p3 : string) :
  mode (selection r) = duo ->
  seats r = no_seats ->
  p1 <> p2 -> p3 <> p1 -> p3 <> p2 ->
  let r1 := set_seats r (mkSeats (Some (mkSeat p1 White)) None) in
  let r2 := set_seats r (mkSeats (Some (mkSeat p1 White)) (Some (mkSeat p2 Black))) in
  assignSeat r p1 = (r1, seat_ok White)
  /\ assignSeat r1 p2 = (r2, seat_ok Black)
  /\ assignSeat r2 p3 = (r2, seat_refused "Room full")
  /\ (status r = lobby -> canStart r1 = false /\ canStart r2 = true).
Proof.
  intros Hm Hs H12 H31 H32 r1 r2.
  assert (E21 : String.eqb p1 p2 = false) by now apply String.eqb_neq.
  assert (E31 : String.eqb p1 p3 = false) by (apply String.eqb_neq; congruence).
  assert (E32 : String.eqb p2 p3 = false) by (apply String.eqb_neq; congruence).
  repeat split.
  - unfold assignSeat, seated_as. rewrite Hs, Hm. reflexivity.
  - unfold assignSeat, seated_as. simpl. rewrite E21, Hm. reflexivity.
  - unfold assignSeat, seated_as. simpl. rewrite E31, E32, Hm. reflexivity.
  - unfold canStart. simpl. rewrite H, Hm. reflexivity.
  - unfold canStart. simpl. rewrite H, Hm. reflexivity.
Qed.

(** X4. A solo room with free seats seats the first identity as White and,
    in the same step, the computer as Black, so that in the lobby it can be
    started at once; any other identity (other than the computer's own
    name) is then refused and changes nothing. *)
Theorem assignSeat_solo_pair (r : ChessRoom) (p1 p2 : string) :
  mode (selection r) = solo ->
  seats r = no_seats ->
  p2 <> p1 -> p2 <> "AI" ->
  let r1 := set_seats r (mkSeats (Some (mkSeat p1 White)) (Some (mkSeat "AI" Black))) in
  assignSeat r p1 = (r1, seat_ok White)
  /\ assignSeat r1 p2 = (r1, seat_refused "Room already has a solo player.")
  /\ (status r = lobby -> canStart r1 = true).
Proof.
  intros Hm Hs H21 Hai r1.
  assert (E1 : String.eqb p1 p2 = false) by (apply String.eqb_neq; congruence).
  assert (E2 : String.eqb "AI" p2 = false) by (apply String.eqb_neq; congruence).
  repeat split.
  - unfold assignSeat, seated_as. rewrite Hs, Hm. reflexivity.
  - unfold assignSeat, seated_as. cbn -[String.eqb]. rewrite E1, E2, Hm. reflexivity.
  - intros H. unfold canStart. simpl. rewrite H, Hm. reflexivity.
Qed.

(** X5. [setLobbySelection] does nothing outside the lobby.  In the lobby
    it takes the fields that are given, keeps the others, and empties the
    seats, so that the room cannot be started until seats are assigned
    again; position, status and outcome stay. *)
Theorem setLobbySelection_effect
    (r : ChessRoom) (new_mode : option Mode) (new_difficulty : option Difficulty) :
  (status r <> lobby -> setLobbySelection r new_mode new_difficulty = r)
  /\ (status r = lobby ->
      setLobbySelection r new_mode new_difficulty
      = mkRoom (room_id r)
               (mkSelection (default (mode (selection r)) new_mode)
                            (default (difficulty (selection r)) new_difficulty))
               no_seats (chess r) lobby (winner r) (endReason r) (lastMove r)
      /\ canStart (setLobbySelection r new_mode new_difficulty) = false).
Proof.
  unfold setLobbySelection. split.
  - intros H. destruct (status r); simpl; congruence.
  - intros H. rewrite H. simpl.
    assert (Heq : set_seats
                    (set_selection r
                       match new_difficulty with
                       | Some d =>
                           mkSelection
                             (mode match new_mode with
                                   | Some m => mkSelection m (difficulty (selection r))
                                   | None => selection r
                                   end) d
                       | None =>
                           match new_mode with
                           | Some m => mkSelection m (difficulty (selection r))
                           | None => selection r
                           end
                       end) no_seats
                  = mkRoom (room_id r)
                      (mkSelection (default (mode (selection r)) new_mode)
                                   (default (difficulty (selection r)) new_difficulty))
                      no_seats (chess r) lobby (winner r) (endReason r) (lastMove r)).
    { unfold set_seats, set_selection. simpl. rewrite H.
      destruct (selection r), new_mode, new_difficulty; reflexivity. }
    rewrite Heq. split; [reflexivity|].
    unfold canStart. simpl. now destruct (default _ new_mode).
Qed.

End MoreSeats.

(** ** The label of a position and the snapshot of a room *)

Section MoreStatus.
Context {E : Engine} {R : Entropy}.

(** chess.js: a game is over by checkmate, stalemate or draw, and
    insufficient material and threefold repetition are draws. *)
Hypothesis over_def : forall c : Chess,
  isGameOver c = isCheckmate c || isStalemate c || isDraw c.
Hypothesis insufficient_draws : forall c : Chess,
  isInsufficientMaterial c = true -> isDraw c = true.
Hypothesis threefold_draws : forall c : Chess,
  isThreefoldRepetition c = true -> isDraw c = true.

(** X6. The label [getStatus] gives is "playing" or "check" exactly on the
    positions [maybeFinalize] leaves in play, and "check" only with the
    side to move in check; on the others the label is the kind of ending,
    "draw" standing for every ending that is neither checkmate nor
    stalemate, and [maybeFinalize] ends the room. *)
Theorem getStatus_terminal (r : ChessRoom) :
  (getStatus r = gs_playing \/ getStatus r = gs_check <-> isGameOver (chess r) = false)
  /\ (getStatus r = gs_check -> isCheck (chess r) = true)
  /\ (getStatus r = gs_draw <->
      isGameOver (chess r) = true /\ isCheckmate (chess r) = false
      /\ isStalemate (chess r) = false)
  /\ (getStatus r = gs_playing \/ getStatus r = gs_check -> maybeFinalize r = r)
  /\ (getStatus r <> gs_playing -> getStatus r <> gs_check ->
      status (maybeFinalize r) = ended).
Proof using over_def insufficient_draws threefold_draws.
  assert (Hlive : getStatus r = gs_playing \/ getStatus r = gs_check
                  <-> isGameOver (chess r) = false).
  { unfold getStatus. rewrite over_def.
    pose proof (insufficient_draws (chess r)) as Hi.
    pose proof (threefold_draws (chess r)) as Ht.
    destruct (isCheckmate (chess r)), (isStalemate (chess r)), (isDraw (chess r)),
      (isThreefoldRepetition (chess r)), (isInsufficientMaterial (chess r)),
      (isCheck (chess r)); simpl in *;
      intuition (try discriminate; try congruence). }
  split; [exact Hlive|]. split; [|split; [|split]].
  - unfold getStatus.
    destruct (isCheckmate (chess r)), (isStalemate (chess r)),
      (isDraw (chess r) || isThreefoldRepetition (chess r)
       || isInsufficientMaterial (chess r)), (isCheck (chess r)); auto; discriminate.
  - unfold getStatus. rewrite over_def.
    pose proof (insufficient_draws (chess r)) as Hi.
    pose proof (threefold_draws (chess r)) as Ht.
    destruct (isCheckmate (chess r)), (isStalemate (chess r)), (isDraw (chess r)),
      (isThreefoldRepetition (chess r)), (isInsufficientMaterial (chess r)),
      (isCheck (chess r)); simpl in *;
      intuition (try discriminate; try congruence).
  - intros H. apply Hlive in H. unfold maybeFinalize. now rewrite H.
  - intros H1 H2.
    destruct (isGameOver (chess r)) eqn:Hover.
    + unfold maybeFinalize. rewrite Hover. simpl.
      destruct (isCheckmate (chess r)), (isStalemate (chess r)),
        (isInsufficientMaterial (chess r)), (isThreefoldRepetition (chess r)),
        (isDraw (chess r)); reflexivity.
    + assert (H : getStatus r = gs_playing \/ getStatus r = gs_check) by now apply Hlive.
      destruct H; contradiction.
Qed.

(** X7. The lobby snapshot is the same for every viewer and tells a viewer
    to wait for an opponent exactly when the room is a duo room that cannot
    be started yet; a solo lobby never waits. *)
Theorem lobby_snapshot (r : ChessRoom) (viewer : PlayerColor) :
  status r = lobby ->
  buildUiStateFor r viewer
  = LobbyScreen (mode (selection r)) (difficulty (selection r))
                (mode_eqb (mode (selection r)) duo && negb (canStart r)).
Proof.
  intros H. unfold buildUiStateFor, canStart. rewrite H. simpl.
  destruct (mode (selection r)); reflexivity.
Qed.

(** The rules library ends a game for one of the five reasons the finalize
    rule asks about. *)
Hypothesis game_over_cases : forall c : Chess,
  isGameOver c = true ->
  isCheckmate c || isStalemate c || isInsufficientMaterial c
    || isThreefoldRepetition c || isDraw c = true.

(** X8. Once [maybeFinalize] has ended a room that had no winner, every
    viewer gets the end screen: the colour that gave mate as the result, or
    a draw, and the end reason of the first rule that applies. *)
Theorem end_snapshot (r : ChessRoom) (viewer : PlayerColor) :
  winner r = None ->
  isGameOver (chess r) = true ->
  buildUiStateFor (maybeFinalize r) viewer
  = EndScreen (match fst (classify (chess r)) with
               | Some White => result_white
               | Some Black => result_black
               | None => result_draw
               end)
              (snd (classify (chess r))).
Proof using game_over_cases.
  intros Hw Hover. pose proof (game_over_cases _ Hover) as Hc.
  unfold maybeFinalize, classify, buildUiStateFor. rewrite Hover. simpl.
  destruct (isCheckmate (chess r)); [simpl; now destruct (turn (chess r))|].
  destruct (isStalemate (chess r)); [simpl; now rewrite Hw|].
  destruct (isInsufficientMaterial (chess r)); [simpl; now rewrite Hw|].
  destruct (isThreefoldRepetition (chess r)); [simpl; now rewrite Hw|].
  simpl in Hc. rewrite Hc. simpl. now rewrite Hw.
Qed.

End MoreStatus.

(** ** More on [applyMove] *)

Section MoreMoves.
Context {E : Engine} {R : Entropy}.

Lemma maybeFinalize_status (r : ChessRoom) :
  (status (maybeFinalize r) = status r /\ maybeFinalize r = r
   /\ isGameOver (chess r) = false)
  \/ (status (maybeFinalize r) = ended /\ isGameOver (chess r) = true).
Proof.
  destruct (maybeFinalize_frame r) as (_ & _ & _ & _ & _ & Hsame & Hend & _).
  destruct (isGameOver (chess r)).
  - right. auto.
  - left. rewrite Hsame; auto.
Qed.

(** What the reply of the computer leaves alone. *)
Lemma applyAiMove_fields (r : ChessRoom) (aiMove : string) :
  room_id (applyAiMove r aiMove) = room_id r
  /\ selection (applyAiMove r aiMove) = selection r
  /\ seats (applyAiMove r aiMove) = seats r
  /\ (status (applyAiMove r aiMove) = status r \/ status (applyAiMove r aiMove) = ended)
  /\ (status (applyAiMove r aiMove) = playing ->
      isGameOver (chess r) = false ->
      isGameOver (chess (applyAiMove r aiMove)) = false).
Proof.
  unfold applyAiMove.
  destruct (move (chess r) (req_of_uci aiMove)) as [[m2 c2]|]; [|auto 6].
  set (x := set_lastMove (set_chess r c2) (Some (uci_of m2))).
  destruct (maybeFinalize_frame x) as (H1 & H2 & H3 & H4 & _).
  rewrite H1, H2, H3, H4. repeat split; auto.
  - destruct (maybeFinalize_status x) as [(Hs & _) | (Hs & _)]; auto.
  - intros Hp _. destruct (maybeFinalize_status x) as [(_ & _ & Ho) | (Hs & _)];
      [exact Ho | congruence].
Qed.

(** The room [applyMove] returns, in each of its outcomes. *)
Lemma applyMove_room_cases (r : ChessRoom) (pid uci : string) (g : Rng) :
  fst (fst (applyMove r pid uci g)) = r
  \/ exists mv c1,
       status r = playing
       /\ seated_as r (turn (chess r)) pid = true
       /\ move (chess r) (req_of_uci uci) = Some (mv, c1)
       /\ let r1 := maybeFinalize (set_lastMove (set_chess r c1) (Some (uci_of mv))) in
          fst (fst (applyMove r pid uci g)) = r1
          \/ (mode (selection r) = solo /\ status r1 = playing
              /\ exists aiMove, fst (fst (applyMove r pid uci g)) = applyAiMove r1 aiMove).
Proof.
  unfold applyMove.
  destruct (status_eqb (status r) playing) eqn:Hs; simpl; [|auto].
  assert (Hp : status r = playing) by (destruct (status r); simpl in Hs; congruence).
  destruct (seated_as r (turn (chess r)) pid) eqn:Hseat; simpl; [|auto].
  destruct (move (chess r) (req_of_uci uci)) as [[mv c1]|] eqn:Hmove; [|auto].
  right. exists mv, c1. repeat split; auto.
  set (r1 := maybeFinalize _).
  assert (Hsel : selection r1 = selection r).
  { destruct (maybeFinalize_frame (set_lastMove (set_chess r c1) (Some (uci_of mv))))
      as (_ & H & _). exact H. }
  destruct (mode_eqb (mode (selection r1)) solo && status_eqb (status r1) playing) eqn:Hc;
    [|auto].
  apply andb_prop in Hc as [Hm Hst].
  assert (Hm' : mode (selection r) = solo).
  { rewrite <- Hsel. destruct (mode (selection r1)); simpl in Hm; congruence. }
  assert (Hst' : status r1 = playing) by (destruct (status r1); simpl in Hst; congruence).
  destruct (chooseAiMove_run _ _ _ _) as [[ai c'] g'].
  destruct ai as [[aiMove|]|e]; simpl; auto.
  destruct (or_undefined aiMove); simpl; auto.
  right. repeat split; auto. eauto.
Qed.

(** [applyMove] leaves the identity, the selection and the seats alone. *)
Lemma applyMove_keeps_seats (r : ChessRoom) (pid uci : string) (g : Rng) :
  room_id (fst (fst (applyMove r pid uci g))) = room_id r
  /\ selection (fst (fst (applyMove r pid uci g))) = selection r
  /\ seats (fst (fst (applyMove r pid uci g))) = seats r.
Proof.
  destruct (applyMove_room_cases r pid uci g)
    as [-> | (mv & c1 & Hp & _ & _ & [-> | (_ & Hst & aiMove & ->)])].
  - auto.
  - set (x := set_lastMove (set_chess r c1) (Some (uci_of mv))).
    destruct (maybeFinalize_frame x) as (H1 & H2 & H3 & _).
    rewrite H1, H2, H3. auto.
  - set (x := set_lastMove (set_chess r c1) (Some (uci_of mv))) in *.
    destruct (applyAiMove_fields (maybeFinalize x) aiMove) as (A1 & A2 & A3 & _).
    destruct (maybeFinalize_frame x) as (H1 & H2 & H3 & _).
    rewrite A1, A2, A3, H1, H2, H3. auto.
Qed.

(** A room in play stays in play or becomes ended. *)
Lemma applyMove_status_step (r : ChessRoom) (pid uci : string) (g : Rng) :
  status r = playing ->
  status (fst (fst (applyMove r pid uci g))) = playing
  \/ status (fst (fst (applyMove r pid uci g))) = ended.
Proof.
  intros Hp.
  destruct (applyMove_room_cases r pid uci g)
    as [-> | (mv & c1 & _ & _ & _ & [-> | (_ & Hst & aiMove & ->)])].
  - auto.
  - set (x := set_lastMove (set_chess r c1) (Some (uci_of mv))).
    destruct (maybeFinalize_status x) as [(Hs & _) | (Hs & _)]; auto.
    left. rewrite Hs. exact Hp.
  - set (x := set_lastMove (set_chess r c1) (Some (uci_of mv))) in *.
    destruct (applyAiMove_fields (maybeFinalize x) aiMove) as (_ & _ & _ & A4 & _).
    destruct A4 as [A4 | A4]; rewrite A4; auto.
Qed.

(** X9. Whatever it answers, [applyMove] leaves the identity of the room,
    its selection and its seats alone; it changes nothing at all in a room
    that is not in play, and a room in play stays in play or becomes
    ended, never a lobby. *)
Theorem applyMove_frame (r : ChessRoom) (pid uci : string) (g : Rng) :
  let r' := fst (fst (applyMove r pid uci g)) in
  room_id r' = room_id r /\ selection r' = selection r /\ seats r' = seats r
  /\ (status r <> playing -> r' = r /\ snd (applyMove r pid uci g) = g)
  /\ (status r = playing -> status r' = playing \/ status r' = ended).
Proof.
  cbv zeta.
  destruct (applyMove_keeps_seats r pid uci g) as (H1 & H2 & H3).
  split; [exact H1|]. split; [exact H2|]. split; [exact H3|]. split.
  - intros Hs. unfold applyMove. destruct (status r); simpl; auto. congruence.
  - apply applyMove_status_step.
Qed.

(** In a duo room the computer is not asked. *)
Lemma applyMove_duo_eq
    (r : ChessRoom) (pid uci : string) (g : Rng) (mv : Move) (c1 : Chess) :
  mode (selection r) = duo ->
  status r = playing ->
  seated_as r (turn (chess r)) pid = true ->
  move (chess r) (req_of_uci uci) = Some (mv, c1) ->
  applyMove r pid uci g
  = (maybeFinalize (set_lastMove (set_chess r c1) (Some (uci_of mv))), Normal accept, g).
Proof.
  intros Hm Hp Hseat Hmove.
  set (x := set_lastMove (set_chess r c1) (Some (uci_of mv))).
  destruct (maybeFinalize_frame x) as (_ & Hsel & _).
  unfold applyMove. rewrite Hp, Hseat, Hmove. simpl. fold x.
  rewrite Hsel. simpl. rewrite Hm. reflexivity.
Qed.

(** X10. In a duo room an accepted move is the whole of the call: the
    position is the one the rules library returned, the last move is that
    move, the random source is not drawn from, and the room is ended
    exactly when that position is over. *)
Theorem applyMove_duo
    (r : ChessRoom) (pid uci : string) (g : Rng) (mv : Move) (c1 : Chess) :
  mode (selection r) = duo ->
  status r = playing ->
  seated_as r (turn (chess r)) pid = true ->
  move (chess r) (req_of_uci uci) = Some (mv, c1) ->
  exists r',
    applyMove r pid uci g = (r', Normal accept, g)
    /\ chess r' = c1
    /\ lastMove r' = Some (uci_of mv)
    /\ (status r' = ended <-> isGameOver c1 = true)
    /\ (status r' = playing <-> isGameOver c1 = false).
Proof.
  intros Hm Hp Hseat Hmove.
  set (x := set_lastMove (set_chess r c1) (Some (uci_of mv))).
  exists (maybeFinalize x).
  destruct (maybeFinalize_frame x) as (_ & _ & _ & Hch & Hlm & _).
  split; [now apply applyMove_duo_eq|].
  rewrite Hch, Hlm. split; [reflexivity|]. split; [reflexivity|].
  assert (Hx : status x = playing) by exact Hp.
  destruct (maybeFinalize_status x) as [(Hs & _ & Ho) | (Hs & Ho)];
    simpl in Ho; rewrite Hs, Ho; try rewrite Hx; split; split; congruence.
Qed.

(** A move that is taken passes the turn. *)
Hypothesis move_passes_turn : forall (c c' : Chess) (rq : MoveReq) (m : Move),
  move c rq = Some (m, c') -> turn c' = other (turn c).

(** X11. The two players of a duo room take turns: after a move of its own
    has been accepted, an identity that does not hold the other seat as
    well is refused whatever it sends next, and the room stays as it is. *)
Theorem duo_players_alternate
    (r r' : ChessRoom) (pid uci : string) (g g' : Rng) (reply : MoveReply) :
  mode (selection r) = duo ->
  seated_as r (other (turn (chess r))) pid = false ->
  applyMove r pid uci g = (r', Normal reply, g') ->
  mr_ok reply = true ->
  forall (uci2 : string) (g2 : Rng),
    exists reason,
      applyMove r' pid uci2 g2 = (r', Normal (refuse reason), g2)
      /\ (reason = "Not playing" \/ reason = "Not your turn").
Proof using move_passes_turn.
  intros Hm Hother Happly Hok uci2 g2.
  assert (Hp : status r = playing).
  { destruct (status r) eqn:Hs; auto; unfold applyMove in Happly; rewrite Hs in Happly;
      simpl in Happly; injection Happly as <- <- <-; discriminate. }
  assert (Hseat : seated_as r (turn (chess r)) pid = true).
  { destruct (seated_as r (turn (chess r)) pid) eqn:Hs; auto.
    unfold applyMove in Happly. rewrite Hp, Hs in Happly. simpl in Happly.
    injection Happly as <- <- <-. discriminate. }
  destruct (move (chess r) (req_of_uci uci)) as [[mv c1]|] eqn:Hmove.
  2:{ unfold applyMove in Happly. rewrite Hp, Hseat, Hmove in Happly. simpl in Happly.
      discriminate. }
  rewrite (applyMove_duo_eq r pid uci g mv c1 Hm Hp Hseat Hmove) in Happly.
  injection Happly as <- <- <-.
  set (x := set_lastMove (set_chess r c1) (Some (uci_of mv))).
  destruct (maybeFinalize_frame x) as (_ & _ & Hseats & Hch & _).
  unfold applyMove.
  destruct (maybeFinalize_status x) as [(Hs & _ & _) | (Hs & _)]; rewrite Hs; simpl.
  - assert (Hno : seated_as (maybeFinalize x) (turn (chess (maybeFinalize x))) pid = false).
    { rewrite Hch. simpl. rewrite (move_passes_turn _ _ _ _ Hmove).
      unfold seated_as in *. rewrite Hseats. exact Hother. }
    rewrite Hp. simpl. rewrite Hno. simpl. eauto.
  - eauto.
Qed.

End MoreMoves.

(** ** More on the handlers of the room *)

Section MoreServer.
Context {E : Engine} {R : Entropy}.

Lemma assignSeat_fields (r : ChessRoom) (pid : string) :
  fst (assignSeat r pid) = set_seats r (seats (fst (assignSeat r pid))).
Proof.
  destruct (assignSeat_cases r pid)
    as [(c & _ & ->) | [(c & _ & _ & _ & _ & _ & H) | (reason & -> & _)]];
    try exact H; now destruct r.
Qed.

(** A room whose two seats are taken is not changed by [assignSeat]. *)
Lemma assignSeat_full (r : ChessRoom) (pid : string) :
  is_Some (seat_w (seats r)) -> is_Some (seat_b (seats r)) ->
  fst (assignSeat r pid) = r.
Proof.
  intros [sw Hw] [sb Hb].
  destruct (assignSeat_cases r pid)
    as [(c & _ & ->) | [(c & _ & _ & Hnone & _) | (reason & -> & _)]]; auto.
  destruct c; simpl in Hnone; congruence.
Qed.

(** The room [reseat] returns is the room after the calls of [assignSeat]. *)
Lemma reseat_room (ps : list string) :
  forall (r : ChessRoom) (cs : gmap string PlayerColor),
    fst (reseat r cs ps) = fold_left (fun r0 p => fst (assignSeat r0 p)) ps r.
Proof.
  unfold reseat. induction ps as [|p ps IH]; intros r cs; [reflexivity|].
  simpl. unfold seat_player at 2. simpl.
  destruct (assignSeat r p) as [r' reply] eqn:Ha. simpl.
  destruct (sr_ok reply), (sr_color reply); apply IH.
Qed.

Lemma reseat_fields (ps : list string) :
  forall (r : ChessRoom) (cs : gmap string PlayerColor),
    fst (reseat r cs ps) = set_seats r (seats (fst (reseat r cs ps))).
Proof.
  intros r cs. rewrite reseat_room. clear cs. revert r.
  induction ps as [|p ps IH]; intros r; simpl; [now destruct r|].
  rewrite IH at 1. rewrite (assignSeat_fields r p) at 1. reflexivity.
Qed.

Lemma reseat_full (ps : list string) (r : ChessRoom) (cs : gmap string PlayerColor) :
  is_Some (seat_w (seats r)) -> is_Some (seat_b (seats r)) ->
  fst (reseat r cs ps) = r.
Proof.
  intros Hw Hb. rewrite reseat_room. clear cs.
  induction ps as [|p ps IH]; simpl; [reflexivity|].
  now rewrite assignSeat_full.
Qed.

Lemma rematch_room (w : World) (pid : string) (g : Rng) :
  room (fst (onMessage w pid (UiAction EndRematch) g))
  = (let r2 := fst (reseat (rematch_base (room w)) ∅ (players w)) in
     if canStart r2 then startGame r2 else r2)
  /\ players (fst (onMessage w pid (UiAction EndRematch) g)) = players w
  /\ snd (onMessage w pid (UiAction EndRematch) g) = g.
Proof.
  simpl.
  change (set_seats _ no_seats) with (rematch_base (room w)).
  destruct (reseat (rematch_base (room w)) ∅ (players w)) as [r2 cs]. auto.
Qed.

(** X12. [end.rematch] is not guarded: whoever sends it and whatever the
    room is doing, a game in play included, the room is rebuilt from the
    connected players in the order they joined.  The position is the
    initial one and winner, end reason and last move are cleared; in solo
    mode the first player is White against the computer and the game is in
    play; in duo mode the first two players are White and Black and the
    game is in play, and with fewer than two the room waits in the lobby. *)
Theorem rematch_restarts (w : World) (pid : string) (g : Rng) :
  let w' := fst (onMessage w pid (UiAction EndRematch) g) in
  (chess (room w') = newChess /\ winner (room w') = None /\ endReason (room w') = None
   /\ lastMove (room w') = None /\ selection (room w') = selection (room w)
   /\ players w' = players w /\ snd (onMessage w pid (UiAction EndRematch) g) = g)
  /\ (forall p rest, mode (selection (room w)) = solo -> players w = p :: rest ->
        status (room w') = playing
        /\ seats (room w') = mkSeats (Some (mkSeat p White)) (Some (mkSeat "AI" Black)))
  /\ (forall p1 p2 rest, mode (selection (room w)) = duo ->
        players w = p1 :: p2 :: rest -> p1 <> p2 ->
        status (room w') = playing
        /\ seats (room w') = mkSeats (Some (mkSeat p1 White)) (Some (mkSeat p2 Black)))
  /\ (mode (selection (room w)) = duo -> length (players w) < 2 ->
        status (room w') = lobby)
  /\ (players w = [] -> status (room w') = lobby /\ seats (room w') = no_seats).
Proof.
  cbv zeta.
  destruct (rematch_room w pid g) as (Hroom & Hps & Hg).
  rewrite Hroom, Hps, Hg. clear Hroom Hps Hg. cbv zeta.
  set (base := rematch_base (room w)).
  pose proof (reseat_fields (players w) base ∅) as Hf.
  set (r2 := fst (reseat base ∅ (players w))) in *.
  split; [|split; [|split; [|split]]].
  - rewrite Hf. unfold canStart, startGame. simpl.
    destruct (mode (selection (room w)));
      repeat match goal with |- context [bool_decide ?P] => destruct (bool_decide P) end;
      simpl; repeat split; reflexivity.
  - intros p rest Hm Hp.
    assert (Hr2 : r2 = set_seats base
                         (mkSeats (Some (mkSeat p White)) (Some (mkSeat "AI" Black)))).
    { subst r2. rewrite Hp. unfold reseat. simpl.
      unfold seat_player at 2. unfold assignSeat at 1. unfold seated_as. simpl.
      rewrite Hm. simpl.
      match goal with
      | |- fst (fold_left seat_player rest (?r0, ?cs0)) = _ =>
          change (fst (reseat r0 cs0 rest) = r0); apply reseat_full; simpl; eauto
      end. }
    rewrite Hr2. unfold canStart. simpl. rewrite Hm. simpl. auto.
  - intros p1 p2 rest Hm Hp Hne.
    assert (E12 : String.eqb p1 p2 = false) by now apply String.eqb_neq.
    assert (Hr2 : r2 = set_seats base
                         (mkSeats (Some (mkSeat p1 White)) (Some (mkSeat p2 Black)))).
    { subst r2. rewrite Hp. unfold reseat. simpl.
      unfold seat_player at 3. unfold assignSeat at 1. unfold seated_as. simpl.
      rewrite Hm. simpl.
      unfold seat_player at 2. unfold assignSeat at 1. unfold seated_as. simpl.
      rewrite E12, Hm. simpl.
      match goal with
      | |- fst (fold_left seat_player rest (?r0, ?cs0)) = _ =>
          change (fst (reseat r0 cs0 rest) = r0); apply reseat_full; simpl; eauto
      end. }
    rewrite Hr2. unfold canStart. simpl. rewrite Hm. simpl. auto.
  - intros Hm Hlen.
    assert (Hcan : canStart r2 = false).
    { subst r2. destruct (players w) as [|p [|p' rest]]; simpl in Hlen; try lia.
      - unfold reseat, canStart. simpl. rewrite Hm. reflexivity.
      - unfold reseat. simpl. unfold seat_player, assignSeat, seated_as. simpl.
        rewrite Hm. simpl. unfold canStart. simpl. rewrite Hm. reflexivity. }
    rewrite Hcan. rewrite Hf. reflexivity.
  - intros Hp. subst r2. rewrite Hp. unfold reseat, canStart. simpl.
    destruct (mode (selection (room w))); auto.
Qed.

(** X13. After [end.backToLobby], which is not guarded either, the room is
    a lobby with its selection and its players kept and nobody seated or
    coloured, so that a [lobby.start] from anyone is ignored until seats
    are assigned again. *)
Theorem back_to_lobby_empties (w : World) (pid pid2 : string) (g g2 : Rng) :
  let w' := fst (onMessage w pid (UiAction EndBackToLobby) g) in
  status (room w') = lobby /\ seats (room w') = no_seats /\ colors w' = ∅
  /\ chess (room w') = newChess /\ selection (room w') = selection (room w)
  /\ players w' = players w
  /\ (winner (room w') = None /\ endReason (room w') = None /\ lastMove (room w') = None)
  /\ canStart (room w') = false
  /\ onMessage w' pid2 (UiAction LobbyStart) g2 = (w', g2).
Proof.
  cbv zeta. simpl. unfold lobbyStart, canStart. simpl.
  repeat split; auto.
  - now destruct (mode (selection (room w))).
  - destruct (mode (selection (room w))); simpl; reflexivity.
Qed.

(** X14. Messages that do not fit are dropped without a trace: [ui.ready]
    and unknown actions always, [lobby.set] outside the lobby, [game.move]
    outside a game in play, with a move string shorter than four
    characters, or when the move fails in [applyMove], refused or
    rejected by the rules library. *)
Theorem unfit_messages_ignored (w : World) (pid : string) (g : Rng) :
  onMessage w pid UiReady g = (w, g)
  /\ onMessage w pid (UiAction OtherAction) g = (w, g)
  /\ (forall m d, status (room w) <> lobby ->
        onMessage w pid (UiAction (LobbySet m d)) g = (w, g))
  /\ (forall uci, status (room w) <> playing ->
        onMessage w pid (UiAction (GameMove uci)) g = (w, g))
  /\ (forall uci, String.length uci < 4 ->
        onMessage w pid (UiAction (GameMove uci)) g = (w, g))
  /\ (forall uci reason, MoveRefused (room w) pid uci reason ->
        onMessage w pid (UiAction (GameMove uci)) g = (w, g)).
Proof.
  assert (Hw : forall x, mkWorld (room x) (players x) (colors x) = x) by now intros [].
  split; [reflexivity|]. split; [reflexivity|]. split; [|split; [|split]].
  - intros m d Hs. simpl. destruct (status (room w)); simpl; congruence.
  - intros uci Hs. simpl. destruct (status (room w)); simpl; congruence.
  - intros uci Hlen. simpl. apply Nat.ltb_lt in Hlen. rewrite Hlen.
    now destruct (status_eqb _ _).
  - intros uci reason Href. simpl.
    destruct (status_eqb (status (room w)) playing) eqn:Hs; [|reflexivity].
    destruct (String.length uci <? 4)%nat; [reflexivity|].
    assert (Ha : exists answer, applyMove (room w) pid uci g = (room w, answer, g)).
    { unfold applyMove. rewrite Hs. simpl.
      destruct Href as [Hn | Hp Hseat | Hp Hseat Hmove].
      - exfalso. apply Hn. destruct (status (room w)); simpl in Hs; congruence.
      - rewrite Hseat. simpl. eauto.
      - rewrite Hseat. simpl. rewrite Hmove. eauto. }
    destruct Ha as [answer Ha]. rewrite Ha. now rewrite Hw.
Qed.

(** X15. When a player leaves, the player is taken out of the connected
    players and of the colours, and the seats are treated unevenly: in duo
    mode they are never touched, so that the seat of the leaver stays
    taken; in solo mode the room is reset to an empty lobby when nobody is
    left, and is left exactly as it is while anyone, a spectator included,
    remains. *)
Theorem leftWorld_effect (w : World) (pid : string) :
  let w' := leftWorld w pid in
  ~ In pid (players w')
  /\ colors w' !! pid = None
  /\ (forall q, q <> pid -> (In q (players w') <-> In q (players w)))
  /\ (mode (selection (room w)) = duo -> seats (room w') = seats (room w))
  /\ (mode (selection (room w)) = duo -> status (room w) <> playing ->
        room w' = room w)
  /\ (mode (selection (room w)) = solo -> players w' <> [] -> room w' = room w)
  /\ (mode (selection (room w)) = solo -> players_delete (players w) pid = [] ->
        room w' = rematch_base (room w) /\ colors w' = ∅).
Proof.
  cbv zeta.
  assert (Hin : forall q, In q (players_delete (players w) pid)
                          <-> In q (players w) /\ q <> pid).
  { intros q. unfold players_delete. rewrite filter_In, negb_true_iff.
    now rewrite String.eqb_neq. }
  assert (Hps : players (leftWorld w pid) = players_delete (players w) pid).
  { unfold leftWorld. now destruct (_ && (length _ =? 0)%nat). }
  assert (Hcs : colors (leftWorld w pid) = delete pid (colors w)
                \/ colors (leftWorld w pid) = ∅).
  { unfold leftWorld. destruct (_ && (length _ =? 0)%nat); simpl; auto. }
  rewrite Hps.
  split; [intros Hq; apply Hin in Hq; tauto|].
  split; [destruct Hcs as [-> | ->]; [apply lookup_delete_eq | apply lookup_empty]|].
  split; [intros q Hq; rewrite Hin; tauto|].
  unfold leftWorld.
  destruct (mode (selection (room w))) eqn:Hm; simpl.
  - rewrite Hm. simpl.
    split; [discriminate|]. split; [discriminate|]. split.
    + intros _ Hne.
      destruct (players_delete (players w) pid); [congruence | reflexivity].
    + intros _ Hnil. rewrite Hnil. simpl. auto.
  - destruct (status_eqb (status (room w)) playing) eqn:Hs; simpl; rewrite Hm; simpl.
    + split; [reflexivity|]. split; [|split; discriminate].
      intros _ Hn. exfalso. apply Hn.
      destruct (status (room w)); simpl in Hs; congruence.
    + split; [reflexivity|]. split; [reflexivity|]. split; discriminate.
Qed.

End MoreServer.

(** ** Sessions *)

Section MoreSessions.
Context {E : Engine} {R : Entropy}.

Lemma players_set_in (ps : list string) (pid : string) :
  In pid (players_set ps pid)
  /\ (forall q, In q ps -> In q (players_set ps pid))
  /\ (NoDup ps -> NoDup (players_set ps pid))
  /\ players_set (players_set ps pid) pid = players_set ps pid.
Proof.
  unfold players_set.
  destruct (existsb (String.eqb pid) ps) eqn:Hex.
  - rewrite Hex. repeat split; auto.
    apply existsb_exists in Hex as (x & Hx & Heq). apply String.eqb_eq in Heq. now subst.
  - assert (Hnot : ~ In pid ps).
    { intros Hin.
      assert (Ht : existsb (String.eqb pid) ps = true).
      { apply existsb_exists. exists pid. split; [exact Hin | apply String.eqb_refl]. }
      congruence. }
    assert (Hex' : existsb (String.eqb pid) (ps ++ [pid]) = true).
    { rewrite existsb_app. simpl. rewrite String.eqb_refl. now rewrite orb_true_r. }
    rewrite Hex'. repeat split.
    + apply in_or_app. right. now left.
    + intros q Hq. apply in_or_app. now left.
    + intros Hnd. apply NoDup_app. split; [exact Hnd|]. split; [|apply NoDup_singleton].
      intros x Hx Hx'. apply list_elem_of_singleton in Hx'. subst x.
      apply Hnot. now apply list_elem_of_In.
Qed.

(** X16. Joining adds the player to the connected players once, however
    often it happens.  Outside the lobby the newcomer only watches: room
    and colours stay as they are.  Joining a second time changes nothing
    that the first time did not. *)
Theorem joinedWorld_effect (w : World) (pid : string) :
  In pid (players (joinedWorld w pid))
  /\ (NoDup (players w) -> NoDup (players (joinedWorld w pid)))
  /\ (status (room w) <> lobby ->
      room (joinedWorld w pid) = room w /\ colors (joinedWorld w pid) = colors w)
  /\ joinedWorld (joinedWorld w pid) pid = joinedWorld w pid.
Proof.
  destruct (players_set_in (players w) pid) as (Hin & _ & Hnd & Hidem).
  assert (Hps : players (joinedWorld w pid) = players_set (players w) pid).
  { unfold joinedWorld. destruct (status_eqb _ _); [|reflexivity].
    now destruct (seat_player _ _). }
  rewrite Hps. split; [exact Hin|]. split; [exact Hnd|]. split.
  - intros Hs. unfold joinedWorld.
    destruct (status (room w)); simpl; auto. congruence.
  - destruct (status_eqb (status (room w)) lobby) eqn:Hs.
    + destruct (assignSeat (room w) pid) as [r' reply] eqn:Ha.
      assert (Hst : status r' = status (room w)).
      { pose proof (assignSeat_outcome_fields (room w) pid) as [H _].
        now rewrite Ha in H. }
      assert (Ha2 : assignSeat r' pid = (r', reply)).
      { destruct (sr_ok reply) eqn:Hok; [now apply (assignSeat_again (room w))|].
        destruct (assignSeat_cases (room w) pid)
          as [(c & _ & Ha') | [(c & _ & _ & _ & _ & Hr & _) | (reason & Ha' & _)]].
        - rewrite Ha' in Ha. injection Ha as <- <-. discriminate.
        - rewrite Ha in Hr. simpl in Hr. subst reply. discriminate.
        - rewrite Ha' in Ha. injection Ha as <- <-. exact Ha'. }
      assert (Hj : forall cs,
                joinedWorld (mkWorld (room w) (players w) cs) pid
                = mkWorld r' (players_set (players w) pid)
                    (match sr_ok reply, sr_color reply with
                     | true, Some c => <[pid := c]> cs
                     | _, _ => cs
                     end)).
      { intros cs. unfold joinedWorld, seat_player. simpl. rewrite Hs, Ha.
        destruct (sr_ok reply), (sr_color reply); reflexivity. }
      replace w with (mkWorld (room w) (players w) (colors w)) by now destruct w.
      rewrite Hj.
      unfold joinedWorld, seat_player. simpl. rewrite Hst, Hs, Ha2, Hidem.
      destruct (sr_ok reply), (sr_color reply); rewrite ?insert_insert_eq; reflexivity.
    + unfold joinedWorld. simpl. rewrite Hs. simpl. rewrite Hs, Hidem. reflexivity.
Qed.

(** *** What every session keeps *)

Lemma canStart_ready (r : ChessRoom) : canStart r = true -> seats_ready r.
Proof.
  unfold canStart, seats_ready.
  destruct (negb _); [discriminate|].
  destruct (mode (selection r)).
  - intros H. apply bool_decide_eq_true in H. split; [exact H | discriminate].
  - intros H. apply andb_prop in H as [H1 H2].
    apply bool_decide_eq_true in H1, H2. auto.
Qed.

Lemma reseat_status (ps : list string) (r : ChessRoom) (cs : gmap string PlayerColor) :
  status (fst (reseat r cs ps)) = status r
  /\ selection (fst (reseat r cs ps)) = selection r.
Proof. rewrite (reseat_fields ps r cs). auto. Qed.

Lemma applyMove_playing_ready (r : ChessRoom) (pid uci : string) (g : Rng) :
  playing_ready r -> playing_ready (fst (fst (applyMove r pid uci g))).
Proof.
  intros Hinv.
  destruct (applyMove_keeps_seats r pid uci g) as (_ & Hsel & Hseats).
  destruct (applyMove_room_cases r pid uci g)
    as [Hr | (mv & c1 & Hp & _ & _ & Hr)].
  - now rewrite Hr.
  - intros Hplay. split.
    2:{ destruct (Hinv Hp) as [_ Hready]. unfold seats_ready in *.
        now rewrite Hsel, Hseats. }
    set (x := set_lastMove (set_chess r c1) (Some (uci_of mv))) in *.
    cbv zeta in Hr. destruct Hr as [Hr | (_ & Hst & aiMove & Hr)].
    + rewrite Hr in *.
      destruct (maybeFinalize_status x) as [(_ & -> & Ho) | (Hs & _)];
        [exact Ho | congruence].
    + rewrite Hr in *.
      destruct (applyAiMove_fields (maybeFinalize x) aiMove) as (_ & _ & _ & _ & Hkeep).
      apply Hkeep; [exact Hplay|].
      destruct (maybeFinalize_status x) as [(_ & -> & Ho) | (Hs & _)];
        [exact Ho | congruence].
Qed.

(** The initial position is not a finished game. *)
Hypothesis start_not_over : isGameOver newChess = false.

Lemma handle_playing_ready (w : World) (ev : Event) (g : Rng) :
  playing_ready (room w) -> playing_ready (room (fst (handle w ev g))).
Proof using start_not_over.
  intros Hinv.
  assert (Hvac : forall r : ChessRoom, status r = lobby -> playing_ready r)
    by (intros r Hr Hp; congruence).
  assert (Hstart : forall r : ChessRoom, canStart r = true -> playing_ready (startGame r)).
  { intros r Hc _. split; [exact start_not_over|].
    pose proof (canStart_ready r Hc) as Hr. unfold seats_ready in *. exact Hr. }
  destruct ev as [pid | pid [|a] | pid]; simpl; try exact Hinv.
  - unfold joinedWorld.
    destruct (status_eqb (status (room w)) lobby) eqn:Hs; [|exact Hinv].
    unfold seat_player. simpl.
    pose proof (assignSeat_outcome_fields (room w) pid) as [Hst _].
    destruct (assignSeat (room w) pid) as [r' reply]. simpl in Hst.
    assert (Hl : status r' = lobby).
    { rewrite Hst. destruct (status (room w)); simpl in Hs; congruence. }
    destruct (sr_ok reply), (sr_color reply); simpl; now apply Hvac.
  - destruct a as [m d| |uci| | |]; simpl; try exact Hinv.
    + destruct (status_eqb (status (room w)) lobby) eqn:Hs; [|exact Hinv].
      match goal with
      | |- context [reseat ?r0 ?cs0 ?ps0] =>
          pose proof (reseat_status ps0 r0 cs0) as [Hst _];
          destruct (reseat r0 cs0 ps0) as [r2 cs]
      end.
      simpl in *. apply Hvac. rewrite Hst. unfold setLobbySelection.
      rewrite Hs. simpl. destruct (status (room w)); simpl in Hs; congruence.
    + destruct (status_eqb (status (room w)) lobby); [|exact Hinv].
      unfold lobbyStart. destruct (_ && _); [exact Hinv|].
      destruct (canStart (room w)) eqn:Hc; simpl; [now apply Hstart | exact Hinv].
    + destruct (status_eqb (status (room w)) playing); [|exact Hinv].
      destruct (String.length uci <? 4)%nat; [exact Hinv|].
      pose proof (applyMove_playing_ready (room w) pid uci g Hinv) as H.
      destruct (applyMove (room w) pid uci g) as [[r' out] g']. exact H.
    + match goal with
      | |- context [reseat ?r0 ?cs0 ?ps0] =>
          pose proof (reseat_status ps0 r0 cs0) as [Hst _];
          destruct (reseat r0 cs0 ps0) as [r2 cs]
      end.
      simpl in *. destruct (canStart r2) eqn:Hc; [now apply Hstart | now apply Hvac].
    + now apply Hvac.
  - unfold leftWorld.
    destruct (mode_eqb (mode (selection (room w))) duo && status_eqb (status (room w)) playing);
      simpl.
    + destruct (_ && _); simpl; intros Hp; discriminate.
    + destruct (_ && _); simpl; [now apply Hvac | exact Hinv].
Qed.

(** X17. All along a session, a room that is in play has the seats its
    mode needs taken (White, and Black as well in duo mode) and a position
    that is not over: [startGame] is only reached through [canStart], and
    a move that ends the game ends the room in the same call. *)
Theorem session_playing_ready (evs : list Event) (g : Rng) :
  playing_ready (room (fst (run evs boot g))).
Proof using start_not_over.
  unfold run.
  assert (H : forall wg, playing_ready (room (fst wg)) ->
            playing_ready
              (room (fst (fold_left (fun wg ev => handle (fst wg) ev (snd wg)) evs wg)))).
  { induction evs as [|ev evs IH]; intros wg Hinv; [exact Hinv|].
    simpl. apply IH. now apply handle_playing_ready. }
  apply H. simpl. intros Hp. discriminate.
Qed.

(** *** Colours and seats *)

Lemma assignSeat_agree_step (r : ChessRoom) (pid : string) :
  (mode (selection r) = solo -> forall s, seat_b (seats r) = Some s -> playerId s = "AI") ->
  (forall q c, seated_as r c q = true -> seated_as (fst (assignSeat r pid)) c q = true)
  /\ (mode (selection (fst (assignSeat r pid))) = solo ->
      forall s, seat_b (seats (fst (assignSeat r pid))) = Some s -> playerId s = "AI").
Proof.
  intros Hai. unfold assignSeat.
  destruct (seated_as r White pid) eqn:Hw; [auto|].
  destruct (seated_as r Black pid) eqn:Hb; [auto|].
  destruct (mode (selection r)) eqn:Hm.
  - destruct (seat_w (seats r)) as [s|] eqn:Hsw.
    + unfold seated_as in Hw. simpl in Hw. rewrite Hsw in Hw. rewrite Hw. simpl.
      rewrite Hm. auto.
    + simpl. rewrite Hm. split; [|intros _ s0 [= <-]; reflexivity].
      intros q [|]; unfold seated_as; simpl.
      * rewrite Hsw. discriminate.
      * destruct (seat_b (seats r)) as [sb|] eqn:Hsb; [|discriminate].
        rewrite (Hai eq_refl sb eq_refl). auto.
  - destruct (seat_w (seats r)) as [s|] eqn:Hsw.
    + destruct (seat_b (seats r)) as [sb|] eqn:Hsb; simpl; rewrite Hm.
      * split; [auto | discriminate].
      * split; [|discriminate].
        intros q [|]; unfold seated_as; simpl; rewrite ?Hsw, ?Hsb; auto. discriminate.
    + simpl. rewrite Hm. split; [|discriminate].
      intros q [|]; unfold seated_as; simpl; rewrite ?Hsw; auto. discriminate.
Qed.

Lemma assignSeat_ok_seated (r : ChessRoom) (pid : string) (c : PlayerColor) :
  sr_ok (snd (assignSeat r pid)) = true ->
  sr_color (snd (assignSeat r pid)) = Some c ->
  seated_as (fst (assignSeat r pid)) c pid = true.
Proof.
  destruct (assignSeat_cases r pid)
    as [(c0 & Hc & ->) | [(c0 & _ & _ & _ & Hc & -> & _) | (reason & -> & _)]]; simpl.
  - intros _ [= <-]. exact Hc.
  - intros _ [= <-]. exact Hc.
  - discriminate.
Qed.

Lemma seat_player_agree (r : ChessRoom) (cs : gmap string PlayerColor)
    (pid : string) (ps ps' : list string) :
  colors_agree (mkWorld r ps cs) ->
  colors_agree (mkWorld (fst (seat_player (r, cs) pid)) ps'
                        (snd (seat_player (r, cs) pid))).
Proof.
  unfold colors_agree. simpl. intros [H1 H2].
  destruct (assignSeat_agree_step r pid H2) as [Hkept Hai].
  pose proof (assignSeat_ok_seated r pid) as Hreply.
  unfold seat_player. simpl.
  destruct (assignSeat r pid) as [r' reply]. simpl in *.
  split.
  - destruct (sr_ok reply) eqn:Hok; [|simpl; auto].
    destruct (sr_color reply) as [c|] eqn:Hc; simpl; [|auto].
    intros q c'. destruct (decide (pid = q)) as [<- | Hne].
    + rewrite lookup_insert_eq. intros [= <-]. apply Hreply; auto.
    + rewrite lookup_insert_ne by exact Hne. auto.
  - destruct (sr_ok reply), (sr_color reply); simpl; exact Hai.
Qed.

Lemma reseat_agree (ps ps0 ps1 : list string) :
  forall (r : ChessRoom) (cs : gmap string PlayerColor),
    colors_agree (mkWorld r ps0 cs) ->
    colors_agree (mkWorld (fst (reseat r cs ps)) ps1 (snd (reseat r cs ps))).
Proof.
  unfold reseat. induction ps as [|p ps IH]; intros r cs Hinv; [exact Hinv|].
  simpl. pose proof (seat_player_agree r cs p ps0 ps0 Hinv) as Hstep.
  destruct (seat_player (r, cs) p) as [r' cs']. now apply IH.
Qed.

Lemma colors_agree_seats (r r' : ChessRoom) (ps ps' : list string)
    (cs : gmap string PlayerColor) :
  seats r' = seats r -> selection r' = selection r ->
  colors_agree (mkWorld r ps cs) -> colors_agree (mkWorld r' ps' cs).
Proof.
  unfold colors_agree, seated_as. simpl. intros -> ->. auto.
Qed.

Lemma colors_agree_empty (r : ChessRoom) (ps : list string) :
  seats r = no_seats -> colors_agree (mkWorld r ps ∅).
Proof.
  intros Hs. unfold colors_agree. simpl. rewrite Hs. split.
  - intros pid c. rewrite lookup_empty. discriminate.
  - discriminate.
Qed.

Lemma handle_colors_agree (w : World) (ev : Event) (g : Rng) :
  colors_agree w /\ NoDup (players w) ->
  colors_agree (fst (handle w ev g)) /\ NoDup (players (fst (handle w ev g))).
Proof.
  intros [Hinv Hnd]. destruct w as [r ps cs].
  destruct ev as [pid | pid [|a] | pid]; simpl; auto.
  - destruct (players_set_in ps pid) as (_ & _ & Hnd' & _).
    unfold joinedWorld. simpl.
    destruct (status_eqb (status r) lobby); simpl.
    + pose proof (seat_player_agree r cs pid ps (players_set ps pid) Hinv) as H.
      destruct (seat_player (r, cs) pid) as [r' cs']. simpl in *. auto.
    + split; [|auto]. apply (colors_agree_seats r _ ps _ cs); auto.
  - destruct a as [m d| |uci| | |]; simpl; auto.
    + destruct (status_eqb (status r) lobby); simpl; [|auto].
      match goal with
      | |- context [reseat ?r0 ?cs0 ?ps0] =>
          pose proof (reseat_agree ps0 ps ps r0 cs0 (colors_agree_empty r0 ps eq_refl)) as H;
          destruct (reseat r0 cs0 ps0) as [r2 cs2]
      end.
      simpl in *. auto.
    + destruct (status_eqb (status r) lobby); simpl; [|auto].
      unfold lobbyStart. simpl. destruct (_ && _); simpl; [auto|].
      destruct (negb _); simpl; [auto|]. split; [|auto].
      apply (colors_agree_seats r _ ps _ cs); auto.
    + destruct (status_eqb (status r) playing); simpl; [|auto].
      destruct (String.length uci <? 4)%nat; simpl; [auto|].
      destruct (applyMove_keeps_seats r pid uci g) as (_ & Hsel & Hseats).
      destruct (applyMove r pid uci g) as [[r' out] g']. simpl in *.
      split; [|auto]. apply (colors_agree_seats r _ ps _ cs); auto.
    + match goal with
      | |- context [reseat ?r0 ?cs0 ?ps0] =>
          pose proof (reseat_agree ps0 ps ps r0 cs0 (colors_agree_empty r0 ps eq_refl)) as H;
          destruct (reseat r0 cs0 ps0) as [r2 cs2]
      end.
      simpl in *. split; [|auto].
      destruct (canStart r2); [|exact H]. apply (colors_agree_seats r2 _ ps _ cs2); auto.
    + split; [|auto]. now apply colors_agree_empty.
  - assert (Hnd' : NoDup (players_delete ps pid)) by (unfold players_delete; apply NoDup_ListNoDup, List.NoDup_filter, NoDup_ListNoDup;
        exact Hnd).
    assert (Hdel : forall r', seats r' = seats r -> selection r' = selection r ->
              colors_agree (mkWorld r' (players_delete ps pid) (delete pid cs))).
    { intros r' Hs Hsel. destruct Hinv as [H1 H2].
      unfold colors_agree, seated_as in *. simpl in *. rewrite Hs, Hsel.
      split; [|exact H2].
      intros q c Hq. apply lookup_delete_Some in Hq as [_ Hq]. auto. }
    unfold leftWorld. simpl.
    destruct (mode_eqb (mode (selection r)) duo && status_eqb (status r) playing); simpl.
    + destruct (_ && _); simpl; split; auto; now apply colors_agree_empty.
    + destruct (_ && _); simpl; split; auto; now apply colors_agree_empty.
Qed.

(** X18. All along a session the connected players are listed once each,
    the colour recorded for a player is always a seat that player holds,
    and the Black seat of a solo room is held by nobody but the computer. *)
Theorem session_colors_agree (evs : list Event) (g : Rng) :
  colors_agree (fst (run evs boot g)) /\ NoDup (players (fst (run evs boot g))).
Proof.
  unfold run.
  assert (H : forall wg, colors_agree (fst wg) /\ NoDup (players (fst wg)) ->
            let w' := fst (fold_left (fun wg ev => handle (fst wg) ev (snd wg)) evs wg) in
            colors_agree w' /\ NoDup (players w')).
  { induction evs as [|ev evs IH]; intros wg Hinv; [exact Hinv|].
    simpl. apply IH. now apply handle_colors_agree. }
  apply H. simpl. split; [|constructor].
  now apply colors_agree_empty.
Qed.

End MoreSessions.

(** * Further properties of the search *)

(** ** The evaluation is zero-sum *)

Lemma color_eqb_other (x col : PlayerColor) :
  color_eqb x (other col) = negb (color_eqb x col).
Proof. now destruct x, col. Qed.

Lemma sneg_smin (x y : Score) : sneg (smin x y) = smax (sneg x) (sneg y).
Proof. destruct x, y; simpl; try reflexivity. f_equal. lia. Qed.

Lemma sneg_smax (x y : Score) : sneg (smax x y) = smin (sneg x) (sneg y).
Proof. destruct x, y; simpl; try reflexivity. f_equal. lia. Qed.

Lemma fold_smax_sneg {A : Type} (f : A -> Score) (l : list A) :
  fold_right smax NegInf (map (fun a => sneg (f a)) l)
  = sneg (fold_right smin PosInf (map f l)).
Proof. induction l; simpl; [reflexivity|]. now rewrite IHl, sneg_smin. Qed.

Lemma fold_smin_sneg {A : Type} (f : A -> Score) (l : list A) :
  fold_right smin PosInf (map (fun a => sneg (f a)) l)
  = sneg (fold_right smax NegInf (map f l)).
Proof. induction l; simpl; [reflexivity|]. now rewrite IHl, sneg_smax. Qed.

Lemma fold_smax_upper (l : list Score) (x : Score) :
  In x l -> Sle x (fold_right smax NegInf l).
Proof.
  induction l as [|y l IH]; simpl; [intros []|].
  intros [-> | Hin].
  - generalize (fold_right smax NegInf l). intros F. score_cases.
  - specialize (IH Hin). revert IH. generalize (fold_right smax NegInf l).
    intros F IH. score_cases.
Qed.

(** What a window tells: the side of the window the exact value [v] lies
    on, and the value itself inside. *)
Lemma within_window_sides (a b s v : Score) :
  Slt a b ->
  within_window a b s v ->
  (Slt a v -> Slt v b -> s = v)
  /\ (Sle v a -> Sle s a /\ Sle v s)
  /\ (Sle b v -> Sle b s /\ Sle s v).
Proof. score_cases. Qed.

Lemma sle_antisym (x y : Score) : Sle x y -> Sle y x -> x = y.
Proof. score_cases. Qed.

Lemma sle_trans (x y z : Score) : Sle x y -> Sle y z -> Sle x z.
Proof. score_cases. Qed.

Section MoreSearch.
Context {E : Engine} {R : Entropy}.

(** The evaluation seen from the other colour. *)
Lemma evaluate_other (c : Chess) (col : PlayerColor) :
  evaluate c (other col) = (- evaluate c col)%Z.
Proof.
  unfold evaluate.
  set (step := fun (who : PlayerColor) (score : Z) (piece : option Piece) =>
                 match piece with
                 | None => score
                 | Some p =>
                     if color_eqb (p_color p) who
                     then (score + PIECE_VALUES (p_type p))%Z
                     else (score - PIECE_VALUES (p_type p))%Z
                 end).
  assert (Hrow : forall row s,
            fold_left (step (other col)) row (- s)%Z = (- fold_left (step col) row s)%Z).
  { induction row as [|sq row IH]; intros s; simpl; [reflexivity|].
    rewrite <- IH. f_equal. unfold step. destruct sq as [p|]; [|reflexivity].
    rewrite color_eqb_other. destruct (color_eqb (p_color p) col); simpl; lia. }
  assert (Hboard : forall rows s,
            fold_left (fun score row => fold_left (step (other col)) row score) rows (- s)%Z
            = (- fold_left (fun score row => fold_left (step col) row score) rows s)%Z).
  { induction rows as [|row rows IH]; intros s; simpl; [reflexivity|].
    rewrite Hrow. apply IH. }
  specialize (Hboard (board c) 0%Z).
  change (- 0)%Z with 0%Z in Hboard. unfold step in Hboard. cbv zeta.
  rewrite Hboard, color_eqb_other.
  destruct (color_eqb (turn c) col); simpl; lia.
Qed.

(** X19. The evaluation is zero-sum: what a position is worth to White
    and what it is worth to Black, material and mobility together, add up
    to nothing. *)
Theorem evaluate_zero_sum (c : Chess) :
  (evaluate c White + evaluate c Black = 0)%Z.
Proof.
  change Black with (other White). rewrite evaluate_other. lia.
Qed.

Lemma leaf_other (c : Chess) (col : PlayerColor) :
  leaf c (other col) = sneg (leaf c col).
Proof.
  unfold leaf. destruct (isCheckmate c).
  - rewrite color_eqb_other. now destruct (color_eqb _ col).
  - destruct (_ || _); [reflexivity|]. simpl. now rewrite evaluate_other.
Qed.

Lemma plain_minimax_other (col : PlayerColor) (depth : nat) :
  forall c : Chess,
    plain_minimax depth c (other col) = sneg (plain_minimax depth c col).
Proof.
  induction depth as [|d IH]; intros c; simpl; [apply leaf_other|].
  destruct (isGameOver c); [apply leaf_other|].
  rewrite color_eqb_other.
  rewrite (map_ext _ (fun m => sneg (plain_minimax d (after c m) col)))
    by (intros m; apply IH).
  destruct (color_eqb (turn c) col); simpl.
  - apply fold_smin_sneg.
  - apply fold_smax_sneg.
Qed.

(** What the search relies on from the rules library and the random
    source, as before. *)
Hypothesis legal_moves_accepted : forall (c : Chess) (m : Move),
  In m (moves c) -> exists m' c', move c (req_of_move m) = Some (m', c').
Hypothesis undo_move : forall (c c' : Chess) (rq : MoveReq) (m : Move),
  move c rq = Some (m, c') -> undo c' = c.
Hypothesis sort_permutes : forall (g : Rng) (l : list Move),
  Permutation l (fst (random_sort g l)).

(** X20. The search is zero-sum as well: with the full window, the score
    of a position searched for one colour is the opposite of its score
    searched for the other, at every depth and whatever the random source
    does in either search. *)
Theorem search_zero_sum
    (depth : nat) (c : Chess) (g g' : Rng) (col : PlayerColor) :
  score (fst (fst (minimax depth c g NegInf PosInf (other col))))
  = sneg (score (fst (fst (minimax depth c g' NegInf PosInf col)))).
Proof using legal_moves_accepted undo_move sort_permutes.
  rewrite (within_full_window _ _
             (minimax_within_window legal_moves_accepted undo_move sort_permutes
                (other col) depth c g NegInf PosInf eq_refl)).
  rewrite (within_full_window _ _
             (minimax_within_window legal_moves_accepted undo_move sort_permutes
                col depth c g' NegInf PosInf eq_refl)).
  apply plain_minimax_other.
Qed.

(** X21. What a narrower window costs: called with any window
    [alpha < beta], [minimax] returns the exact minimax value when that
    value lies strictly inside the window; when the value is at or below
    [alpha] it returns a score at or below [alpha] that is no smaller than
    the value, and when the value is at or above [beta] a score at or above
    [beta] that is no larger than the value.  The position is handed back
    as it was in every case. *)
Theorem minimax_window_sound
    (depth : nat) (c : Chess) (g : Rng) (alpha beta : Score) (col : PlayerColor) :
  Slt alpha beta ->
  let res := minimax depth c g alpha beta col in
  let s := score (fst (fst res)) in
  let v := plain_minimax depth c col in
  snd (fst res) = c
  /\ (Slt alpha v -> Slt v beta -> s = v)
  /\ (Sle v alpha -> Sle s alpha /\ Sle v s)
  /\ (Sle beta v -> Sle beta s /\ Sle s v).
Proof using legal_moves_accepted undo_move sort_permutes.
  intros Hab. cbv zeta.
  split; [apply (minimax_restores legal_moves_accepted undo_move sort_permutes)|].
  apply within_window_sides; [exact Hab|].
  now apply (minimax_within_window legal_moves_accepted undo_move sort_permutes).
Qed.

(** A game that is not over has a legal move. *)
Hypothesis moves_available : forall c : Chess,
  isGameOver c = false -> moves c <> [].

(** The move a search of depth at least one returns, and its standing
    among the legal moves. *)
Lemma minimax_best_of_all (col : PlayerColor) (d : nat) (c : Chess) (g : Rng) :
  isGameOver c = false ->
  turn c = col ->
  exists m,
    In m (moves c)
    /\ best (fst (fst (minimax (S d) c g NegInf PosInf col))) = Some (uci_of m)
    /\ plain_minimax d (after c m) col = plain_minimax (S d) c col
    /\ forall m', In m' (moves c) ->
         Sle (plain_minimax d (after c m') col) (plain_minimax d (after c m) col).
Proof using legal_moves_accepted undo_move sort_permutes moves_available.
  intros Hover Hturn.
  assert (Hscore : score (fst (fst (minimax (S d) c g NegInf PosInf col)))
                   = plain_minimax (S d) c col).
  { apply within_full_window.
    now apply (minimax_within_window legal_moves_accepted undo_move sort_permutes). }
  destruct (minimax_score_finite sort_permutes moves_available col (S d) c g NegInf PosInf)
    as [z Hz].
  destruct (minimax_best_exact legal_moves_accepted undo_move sort_permutes
              col d c g NegInf PosInf eq_refl Hover) as (m & Hin & Hbest & Hval);
    [rewrite Hz; reflexivity | rewrite Hz; reflexivity |].
  exists m. rewrite Hscore in Hval. repeat split; auto.
  intros m' Hin'. rewrite Hval. simpl. rewrite Hover, Hturn.
  replace (color_eqb col col) with true by now destruct col.
  apply fold_smax_upper.
  apply (in_map (fun m0 => plain_minimax d (after c m0) col)). exact Hin'.
Qed.

(** X22. At the medium and hard levels the move [chooseAiMove] returns is
    a best move by exhaustive minimax: a legal move whose position, valued
    by plain minimax to the remaining depth (1 or 2), is worth at least as
    much to the engine as that of any other legal move, and is worth
    exactly the value of the position at depth 2 or 3. *)
Theorem chooseAiMove_optimal
    (f : string) (aiColor : PlayerColor) (d : Difficulty) (g : Rng) :
  d <> easy ->
  isGameOver (loadFen f) = false ->
  turn (loadFen f) = aiColor ->
  let c := loadFen f in
  let rest := Nat.pred (depth_of d) in
  exists m,
    In m (moves c)
    /\ chooseAiMove f aiColor d g = Normal (Some (uci_of m))
    /\ plain_minimax rest (after c m) aiColor = plain_minimax (depth_of d) c aiColor
    /\ forall m', In m' (moves c) ->
         Sle (plain_minimax rest (after c m') aiColor)
             (plain_minimax rest (after c m) aiColor).
Proof using legal_moves_accepted undo_move sort_permutes moves_available.
  intros Hd Hover Hturn. cbv zeta.
  assert (Hrun : forall k, depth_of d = S k ->
            chooseAiMove f aiColor d g
            = Normal (best (fst (fst (minimax (S k) (loadFen f) g NegInf PosInf aiColor))))).
  { intros k Hk. unfold chooseAiMove, chooseAiMove_run. rewrite Hover, Hturn.
    replace (negb (color_eqb aiColor aiColor)) with false by now destruct aiColor.
    rewrite <- Hk.
    destruct d; [congruence | |];
      destruct (minimax _ _ _ _ _ _) as [[res c'] g']; reflexivity. }
  destruct d; [congruence | |].
  - destruct (minimax_best_of_all aiColor 1 (loadFen f) g Hover Hturn)
      as (m & Hin & Hbest & Hval & Hmax).
    exists m. rewrite (Hrun 1 eq_refl), Hbest. auto.
  - destruct (minimax_best_of_all aiColor 2 (loadFen f) g Hover Hturn)
      as (m & Hin & Hbest & Hval & Hmax).
    exists m. rewrite (Hrun 2 eq_refl), Hbest. auto.
Qed.

(** X23. A mate in one is not passed over.  If some legal move mates the
    opponent, and no legal move is valued above the score of a mate, then
    at the medium and hard levels the move returned is valued as a mate
    for the engine (it need not be the mate in one itself when a longer
    forced mate lies within the depth). *)
Theorem mate_in_one_not_missed
    (f : string) (aiColor : PlayerColor) (d : Difficulty) (g : Rng) (m0 : Move) :
  d <> easy ->
  isGameOver (loadFen f) = false ->
  turn (loadFen f) = aiColor ->
  let c := loadFen f in
  let rest := Nat.pred (depth_of d) in
  In m0 (moves c) ->
  isGameOver (after c m0) = true ->
  isCheckmate (after c m0) = true ->
  turn (after c m0) = other aiColor ->
  (forall m, In m (moves c) -> Sle (plain_minimax rest (after c m) aiColor) (Fin 100000)) ->
  exists m,
    In m (moves c)
    /\ chooseAiMove f aiColor d g = Normal (Some (uci_of m))
    /\ plain_minimax rest (after c m) aiColor = Fin 100000.
Proof using legal_moves_accepted undo_move sort_permutes moves_available.
  intros Hd Hover Hturn c rest Hin0 Hover0 Hmate0 Hturn0 Hbound.
  assert (Hv0 : plain_minimax rest (after c m0) aiColor = Fin 100000).
  { assert (Hleaf : leaf (after c m0) aiColor = Fin 100000).
    { unfold leaf. rewrite Hmate0, Hturn0.
      now destruct aiColor. }
    destruct rest; simpl; [exact Hleaf | now rewrite Hover0]. }
  assert (Hex : exists m,
            In m (moves c)
            /\ chooseAiMove f aiColor d g = Normal (Some (uci_of m))
            /\ forall m', In m' (moves c) ->
                 Sle (plain_minimax rest (after c m') aiColor)
                     (plain_minimax rest (after c m) aiColor)).
  { assert (Hrun : forall k, depth_of d = S k ->
              chooseAiMove f aiColor d g
              = Normal (best (fst (fst (minimax (S k) (loadFen f) g NegInf PosInf aiColor))))).
    { intros k Hk. unfold chooseAiMove, chooseAiMove_run. rewrite Hover, Hturn.
      replace (negb (color_eqb aiColor aiColor)) with false by now destruct aiColor.
      rewrite <- Hk.
      destruct d; [congruence | |];
        destruct (minimax _ _ _ _ _ _) as [[res c'] g']; reflexivity. }
    subst c rest. destruct d; [congruence | |].
    - destruct (minimax_best_of_all aiColor 1 (loadFen f) g Hover Hturn)
        as (m & Hin & Hbest & _ & Hmax).
      exists m. rewrite (Hrun 1 eq_refl), Hbest. auto.
    - destruct (minimax_best_of_all aiColor 2 (loadFen f) g Hover Hturn)
        as (m & Hin & Hbest & _ & Hmax).
      exists m. rewrite (Hrun 2 eq_refl), Hbest. auto. }
  destruct Hex as (m & Hin & Hchoice & Hmax).
  exists m. split; [exact Hin|]. split; [exact Hchoice|].
  apply sle_antisym; [now apply Hbound|].
  rewrite <- Hv0. now apply Hmax.
Qed.

End MoreSearch.

(** ** A solo game never waits for the computer *)

Section MoreSolo.
Context {E : Engine} {R : Entropy}.

Hypothesis legal_moves_accepted : forall (c : Chess) (m : Move),
  In m (moves c) -> exists m' c', move c (req_of_move m) = Some (m', c').
Hypothesis sort_permutes : forall (g : Rng) (l : list Move),
  Permutation l (fst (random_sort g l)).
Hypothesis moves_available : forall c : Chess,
  isGameOver c = false -> moves c <> [].
Hypothesis index_below : forall (g : Rng) (n : nat),
  0 < n -> fst (random_index g n) < n.
Hypothesis move_passes_turn : forall (c c' : Chess) (rq : MoveReq) (m : Move),
  move c rq = Some (m, c') -> turn c' = other (turn c).
Hypothesis fen_turn : forall c : Chess, turn (loadFen (fen c)) = turn c.
Hypothesis fen_over : forall c : Chess,
  isGameOver (loadFen (fen c)) = true -> isGameOver c = true.
Hypothesis fen_moves : forall (c : Chess) (m : Move),
  In m (moves (loadFen (fen c))) -> In m (moves c).
Hypothesis move_format : forall (c : Chess) (m : Move),
  In m (moves c) ->
  String.length (m_from m) = 2 /\ String.length (m_to m) = 2
  /\ (m_promotion m = None
      \/ exists p, m_promotion m = Some p /\ String.length p = 1).

(** White moves first. *)
Hypothesis white_starts : turn newChess = White.

Lemma applyMove_solo_white (r : ChessRoom) (pid uci : string) (g : Rng) :
  solo_white_to_move r -> solo_white_to_move (fst (fst (applyMove r pid uci g))).
Proof using legal_moves_accepted sort_permutes moves_available index_below
            move_passes_turn fen_turn fen_over fen_moves move_format.
  intros Hinv.
  destruct (applyMove_keeps_seats r pid uci g) as (_ & Hsel & _).
  intros Hm' Hp'. rewrite Hsel in Hm'.
  revert Hp'. unfold applyMove.
  destruct (status_eqb (status r) playing) eqn:Hs; simpl; [|now apply Hinv].
  assert (Hp : status r = playing) by (destruct (status r); simpl in Hs; congruence).
  destruct (negb (seated_as r (turn (chess r)) pid)); simpl; [now apply Hinv|].
  destruct (move (chess r) (req_of_uci uci)) as [[mv c1]|] eqn:Hmove; [|now apply Hinv].
  set (x := set_lastMove (set_chess r c1) (Some (uci_of mv))).
  assert (Hturn1 : turn c1 = Black).
  { rewrite (move_passes_turn _ _ _ _ Hmove), (Hinv Hm' Hp). reflexivity. }
  cbv zeta.
  destruct (maybeFinalize_status x) as [(Hst & Hsame & Hover) | (Hst & _)].
  2:{ rewrite Hst. simpl. rewrite andb_false_r. simpl. rewrite Hst. discriminate. }
  rewrite Hsame. simpl. rewrite Hm', Hp. simpl. simpl in Hover.
  assert (Hover' : isGameOver (loadFen (fen c1)) = false).
  { destruct (isGameOver (loadFen (fen c1))) eqn:Ho; [|reflexivity].
    apply fen_over in Ho. congruence. }
  assert (Hturn' : turn (loadFen (fen c1)) = Black) by now rewrite fen_turn.
  destruct (chooseAiMove_run_legal sort_permutes moves_available index_below
              (fen c1) Black (difficulty (selection r)) g Hover' Hturn')
    as (m & c' & g' & Hin & Hrun).
  rewrite Hrun. apply fen_moves in Hin.
  destruct (legal_moves_accepted c1 m Hin) as (m2 & c2 & Hmv2).
  destruct (move_format c1 m Hin) as (Hf & Ht & Hpr).
  destruct (req_of_uci_of m Hf Ht Hpr) as (Hreq & Hnonempty).
  destruct (or_undefined (uci_of m)); [|congruence]. simpl.
  unfold applyAiMove. simpl. rewrite Hreq, Hmv2.
  set (y := set_lastMove (set_chess x c2) (Some (uci_of m2))).
  destruct (maybeFinalize_frame y) as (_ & _ & _ & Hch & _).
  intros _. rewrite Hch. simpl.
  rewrite (move_passes_turn _ _ _ _ Hmv2), Hturn1. reflexivity.
Qed.

Lemma handle_solo_white (w : World) (ev : Event) (g : Rng) :
  solo_white_to_move (room w) -> solo_white_to_move (room (fst (handle w ev g))).
Proof using legal_moves_accepted sort_permutes moves_available index_below
            move_passes_turn fen_turn fen_over fen_moves move_format white_starts.
  intros Hinv.
  assert (Hvac : forall r : ChessRoom, status r = lobby -> solo_white_to_move r)
    by (intros r Hr _ Hp; congruence).
  assert (Hstart : forall r : ChessRoom, solo_white_to_move (startGame r))
    by (intros r _ _; exact white_starts).
  destruct ev as [pid | pid [|a] | pid]; simpl; try exact Hinv.
  - unfold joinedWorld.
    destruct (status_eqb (status (room w)) lobby) eqn:Hs; [|exact Hinv].
    unfold seat_player. simpl.
    pose proof (assignSeat_outcome_fields (room w) pid) as [Hst _].
    destruct (assignSeat (room w) pid) as [r' reply]. simpl in Hst.
    assert (Hl : status r' = lobby).
    { rewrite Hst. destruct (status (room w)); simpl in Hs; congruence. }
    destruct (sr_ok reply), (sr_color reply); simpl; now apply Hvac.
  - destruct a as [m d| |uci| | |]; simpl; try exact Hinv.
    + destruct (status_eqb (status (room w)) lobby) eqn:Hs; [|exact Hinv].
      match goal with
      | |- context [reseat ?r0 ?cs0 ?ps0] =>
          pose proof (reseat_status ps0 r0 cs0) as [Hst _];
          destruct (reseat r0 cs0 ps0) as [r2 cs]
      end.
      simpl in *. apply Hvac. rewrite Hst. unfold setLobbySelection.
      rewrite Hs. simpl. destruct (status (room w)); simpl in Hs; congruence.
    + destruct (status_eqb (status (room w)) lobby); [|exact Hinv].
      unfold lobbyStart. destruct (_ && _); [exact Hinv|].
      destruct (negb _); simpl; [exact Hinv | apply Hstart].
    + destruct (status_eqb (status (room w)) playing); [|exact Hinv].
      destruct (String.length uci <? 4)%nat; [exact Hinv|].
      pose proof (applyMove_solo_white (room w) pid uci g Hinv) as H.
      destruct (applyMove (room w) pid uci g) as [[r' out] g']. exact H.
    + match goal with
      | |- context [reseat ?r0 ?cs0 ?ps0] =>
          pose proof (reseat_status ps0 r0 cs0) as [Hst _];
          destruct (reseat r0 cs0 ps0) as [r2 cs]
      end.
      simpl in *. destruct (canStart r2); [apply Hstart | now apply Hvac].
    + now apply Hvac.
  - unfold leftWorld.
    destruct (mode_eqb (mode (selection (room w))) duo && status_eqb (status (room w)) playing);
      simpl.
    + destruct (_ && _); simpl; intros _ Hp; discriminate.
    + destruct (_ && _); simpl; [now apply Hvac | exact Hinv].
Qed.

(** X24. In a solo room the human is never left waiting: all along a
    session, whenever a solo game is in play it is White's turn, because
    every accepted move of White is answered by the computer within the
    same call or ends the game. *)
Theorem session_solo_white (evs : list Event) (g : Rng) :
  solo_white_to_move (room (fst (run evs boot g))).
Proof using legal_moves_accepted sort_permutes moves_available index_below
            move_passes_turn fen_turn fen_over fen_moves move_format white_starts.
  unfold run.
  assert (H : forall wg, solo_white_to_move (room (fst wg)) ->
            solo_white_to_move
              (room (fst (fold_left (fun wg ev => handle (fst wg) ev (snd wg)) evs wg)))).
  { induction evs as [|ev evs IH]; intros wg Hinv; [exact Hinv|].
    simpl. apply IH. now apply handle_solo_white. }
  apply H. simpl. intros _ Hp. discriminate.
Qed.

End MoreSolo.

(** ** Re-seating after [lobby.set] *)

Section MoreLobby.
Context {E : Engine} {R : Entropy}.

(** An identity that holds no seat gets nothing from a room whose two seats
    are taken. *)
Lemma assignSeat_full_refused (r : ChessRoom) (pid : string) :
  is_Some (seat_w (seats r)) -> is_Some (seat_b (seats r)) ->
  seated_as r White pid = false -> seated_as r Black pid = false ->
  sr_ok (snd (assignSeat r pid)) = false.
Proof.
  intros [sw Hw] [sb Hb] Hnw Hnb.
  destruct (assignSeat_cases r pid)
    as [(c & Hc & _) | [(c & _ & _ & Hnone & _) | (reason & -> & _)]].
  - destruct c; congruence.
  - destruct c; simpl in Hnone; congruence.
  - reflexivity.
Qed.

Lemma reseat_full_colors (ps : list string) (r : ChessRoom) (cs : gmap string PlayerColor) :
  is_Some (seat_w (seats r)) -> is_Some (seat_b (seats r)) ->
  (forall q, In q ps -> seated_as r White q = false /\ seated_as r Black q = false) ->
  reseat r cs ps = (r, cs).
Proof.
  intros Hw Hb. unfold reseat. induction ps as [|p ps IH]; intros Hq; [reflexivity|].
  simpl. unfold seat_player at 2. simpl.
  destruct (Hq p (or_introl eq_refl)) as [Hnw Hnb].
  pose proof (assignSeat_full r p Hw Hb) as Hr.
  pose proof (assignSeat_full_refused r p Hw Hb Hnw Hnb) as Hok.
  destruct (assignSeat r p) as [r' reply]. simpl in *. subst r'. rewrite Hok.
  apply IH. intros q Hin. apply Hq. now right.
Qed.

(** The room [lobby.set] seats the players in. *)
Lemma lobby_set_world (w : World) (pid : string) (g : Rng)
    (m : option Mode) (d : option Difficulty) :
  status (room w) = lobby ->
  onMessage w pid (UiAction (LobbySet m d)) g
  = (let base :=
       mkRoom (room_id (room w))
              (mkSelection (default (mode (selection (room w))) m)
                           (default (difficulty (selection (room w))) d))
              no_seats (chess (room w)) lobby (winner (room w)) (endReason (room w))
              (lastMove (room w)) in
     mkWorld (fst (reseat base ∅ (players w))) (players w)
             (snd (reseat base ∅ (players w))), g).
Proof.
  intros Hs. simpl. rewrite Hs. simpl.
  unfold setLobbySelection. rewrite Hs. simpl.
  match goal with
  | |- (let '(_, _) := reseat ?b _ _ in _) = _ =>
      replace b with
        (mkRoom (room_id (room w))
                (mkSelection (default (mode (selection (room w))) m)
                             (default (difficulty (selection (room w))) d))
                no_seats (chess (room w)) lobby (winner (room w)) (endReason (room w))
                (lastMove (room w)))
  end.
  2:{ unfold set_seats, set_selection. simpl. rewrite Hs.
      destruct (selection (room w)), m, d; reflexivity. }
  cbv zeta. now destruct (reseat _ _ _).
Qed.

(** X27. [lobby.set] in the lobby seats the connected players afresh, in
    the order they joined and under the mode that results.  In duo mode
    the first two players become White and Black, with these colours
    recorded, and every other player is left without seat and colour; in
    solo mode the first player becomes White against the computer and the
    others nothing.  The room stays in the lobby, ready to start. *)
Theorem lobby_set_reseats (w : World) (pid : string) (g : Rng)
    (m : option Mode) (d : option Difficulty) :
  status (room w) = lobby ->
  NoDup (players w) ->
  let new_mode := default (mode (selection (room w))) m in
  let w' := fst (onMessage w pid (UiAction (LobbySet m d)) g) in
  (forall p1 p2 rest, new_mode = duo -> players w = p1 :: p2 :: rest ->
     seats (room w') = mkSeats (Some (mkSeat p1 White)) (Some (mkSeat p2 Black))
     /\ colors w' !! p1 = Some White /\ colors w' !! p2 = Some Black
     /\ (forall q, In q rest -> colors w' !! q = None)
     /\ status (room w') = lobby /\ canStart (room w') = true)
  /\ (forall p rest, new_mode = solo -> players w = p :: rest -> ~ In "AI" rest ->
      seats (room w') = mkSeats (Some (mkSeat p White)) (Some (mkSeat "AI" Black))
      /\ colors w' !! p = Some White
      /\ (forall q, In q rest -> colors w' !! q = None)
      /\ status (room w') = lobby /\ canStart (room w') = true).
Proof.
  intros Hs Hnd. cbv zeta. rewrite (lobby_set_world w pid g m d Hs). cbv zeta. simpl.
  set (base := mkRoom _ _ no_seats _ lobby _ _ _).
  split.
  - intros p1 p2 rest Hm Hp. rewrite Hp in *.
    apply NoDup_cons in Hnd as [Hn1 Hnd]. apply NoDup_cons in Hnd as [Hn2 _].
    assert (H12 : p1 <> p2).
    { intros ->. apply Hn1. now left. }
    assert (E12 : String.eqb p1 p2 = false) by now apply String.eqb_neq.
    set (r2 := set_seats base (mkSeats (Some (mkSeat p1 White)) (Some (mkSeat p2 Black)))).
    assert (Hre : reseat base ∅ (p1 :: p2 :: rest)
                  = (r2, <[p2 := Black]> (<[p1 := White]> ∅))).
    { unfold reseat. simpl.
      unfold seat_player at 3. unfold assignSeat at 1. unfold seated_as. simpl.
      rewrite Hm. simpl.
      unfold seat_player at 2. unfold assignSeat at 1. unfold seated_as. simpl.
      rewrite E12, Hm. simpl.
      apply (reseat_full_colors rest r2); simpl; eauto.
      intros q Hq. unfold seated_as. simpl.
      split; apply String.eqb_neq; intros ->.
      - apply Hn1. right. apply list_elem_of_In. exact Hq.
      - apply Hn2. apply list_elem_of_In. exact Hq. }
    rewrite Hre. simpl. split; [reflexivity|].
    split; [rewrite lookup_insert_ne by congruence; apply lookup_insert_eq|].
    split; [apply lookup_insert_eq|].
    split; [|split; [reflexivity | unfold canStart; simpl; now rewrite Hm]].
    intros q Hq.
    rewrite !lookup_insert_ne; [apply lookup_empty | |]; intros ->.
    + apply Hn1. right. apply list_elem_of_In. exact Hq.
    + apply Hn2. apply list_elem_of_In. exact Hq.
  - intros p rest Hm Hp Hai. rewrite Hp in *.
    apply NoDup_cons in Hnd as [Hn1 _].
    set (r1 := set_seats base (mkSeats (Some (mkSeat p White)) (Some (mkSeat "AI" Black)))).
    assert (Hre : reseat base ∅ (p :: rest) = (r1, <[p := White]> ∅)).
    { unfold reseat. simpl.
      unfold seat_player at 2. unfold assignSeat at 1. unfold seated_as. simpl.
      rewrite Hm. simpl.
      apply (reseat_full_colors rest r1); simpl; eauto.
      intros q Hq. unfold seated_as. cbn -[String.eqb].
      split; apply String.eqb_neq; intros Heq; subst.
      - apply Hn1. apply list_elem_of_In. exact Hq.
      - apply Hai. exact Hq. }
    rewrite Hre. simpl. split; [reflexivity|].
    split; [apply lookup_insert_eq|].
    split; [|split; [reflexivity | unfold canStart; simpl; now rewrite Hm]].
    intros q Hq. rewrite lookup_insert_ne; [apply lookup_empty|].
    intros ->. apply Hn1. apply list_elem_of_In. exact Hq.
Qed.

End MoreLobby.

(** ** The take-away game satisfies what was assumed of the rules library *)

#[local] Existing Instances Toy.engine Toy.entropy.

Lemma toy_moves_cases (p : Toy.Pos) (m : Move) :
  In m (Toy.t_moves p) ->
  (m = Toy.take1 /\ 1 <= Toy.t_left p)
  \/ (m = Toy.take2 /\ 2 <= Toy.t_left p)
  \/ (m = Toy.take3 /\ 3 <= Toy.t_left p).
Proof.
  unfold Toy.t_moves. destruct (Toy.t_left p) as [|[|[|n]]]; simpl; intros H.
  - destruct H.
  - intuition (subst; auto with arith).
  - intuition (subst; auto with arith).
  - intuition (subst; auto with arith).
Qed.

Lemma toy_game_over_cases (c : Chess) :
  isGameOver c = true ->
  isCheckmate c || isStalemate c || isInsufficientMaterial c
    || isThreefoldRepetition c || isDraw c = true.
Proof.
  simpl. unfold Toy.t_over. destruct (Toy.t_mate c), (Toy.t_dead c); auto.
Qed.

Lemma toy_legal_moves_accepted (c : Chess) (m : Move) :
  In m (moves c) -> exists m' c', move c (req_of_move m) = Some (m', c').
Proof.
  simpl. intros H. apply toy_moves_cases in H.
  destruct c as [t n h]. unfold Toy.t_move. simpl in H.
  destruct H as [[-> H] | [[-> H] | [-> H]]];
    destruct n as [|[|[|n]]]; try lia; cbn; eauto.
Qed.

Lemma toy_move_cases (c c' : Chess) (rq : MoveReq) (m : Move) :
  move c rq = Some (m, c') ->
  exists k, c' = Toy.taking c k /\ k <= Toy.t_left c.
Proof.
  simpl. unfold Toy.t_move.
  destruct (_ && (1 <=? _)%nat) eqn:H1.
  { intros [= <- <-]. apply andb_prop in H1 as [_ H1]. apply Nat.leb_le in H1. eauto. }
  destruct (_ && (2 <=? _)%nat) eqn:H2.
  { intros [= <- <-]. apply andb_prop in H2 as [_ H2]. apply Nat.leb_le in H2. eauto. }
  destruct (_ && (3 <=? _)%nat) eqn:H3.
  { intros [= <- <-]. apply andb_prop in H3 as [_ H3]. apply Nat.leb_le in H3. eauto. }
  discriminate.
Qed.

Lemma toy_undo_move (c c' : Chess) (rq : MoveReq) (m : Move) :
  move c rq = Some (m, c') -> undo c' = c.
Proof.
  intros H. apply toy_move_cases in H as (k & -> & Hk).
  destruct c as [t n h]. simpl in *. unfold Toy.t_undo, Toy.taking. simpl.
  f_equal; [now destruct t | lia].
Qed.

Lemma toy_move_passes_turn (c c' : Chess) (rq : MoveReq) (m : Move) :
  move c rq = Some (m, c') -> turn c' = other (turn c).
Proof.
  intros H. apply toy_move_cases in H as (k & -> & Hk). reflexivity.
Qed.

Lemma toy_sort_permutes (g : Rng) (l : list Move) :
  Permutation l (fst (random_sort g l)).
Proof.
  simpl. destruct (Nat.even g); [reflexivity | apply Permutation_rev].
Qed.

Lemma toy_random_unit (g : Rng) : (0 <= fst (random g) < 1)%Q.
Proof.
  simpl. pose proof (Nat.mod_upper_bound g 4) as H. unfold Qle, Qlt. simpl. lia.
Qed.

Lemma toy_index_below (g : Rng) (n : nat) : 0 < n -> fst (random_index g n) < n.
Proof. apply random_index_below, toy_random_unit. Qed.

Lemma toy_moves_available (c : Chess) : isGameOver c = false -> moves c <> [].
Proof.
  simpl. unfold Toy.t_over, Toy.t_mate, Toy.t_moves.
  destruct (Toy.t_left c) as [|[|[|n]]]; simpl; congruence.
Qed.

Lemma toy_tokens_length (n : nat) : String.length (Toy.tokens n) = n.
Proof. induction n; simpl; congruence. Qed.

Lemma toy_load_fen (c : Chess) :
  loadFen (fen c) = Toy.mkPos (Toy.t_turn c) (Toy.t_left c) [].
Proof.
  simpl. unfold Toy.t_load, Toy.t_fen. rewrite toy_tokens_length.
  now destruct (Toy.t_turn c).
Qed.

Lemma toy_fen_turn (c : Chess) : turn (loadFen (fen c)) = turn c.
Proof. rewrite toy_load_fen. reflexivity. Qed.

Lemma toy_fen_over (c : Chess) :
  isGameOver (loadFen (fen c)) = true -> isGameOver c = true.
Proof. rewrite toy_load_fen. auto. Qed.

Lemma toy_fen_moves (c : Chess) (m : Move) :
  In m (moves (loadFen (fen c))) -> In m (moves c).
Proof. rewrite toy_load_fen. auto. Qed.

Lemma toy_move_format (c : Chess) (m : Move) :
  In m (moves c) ->
  String.length (m_from m) = 2 /\ String.length (m_to m) = 2
  /\ (m_promotion m = None
      \/ exists p, m_promotion m = Some p /\ String.length p = 1).
Proof.
  simpl. intros H. apply toy_moves_cases in H.
  destruct H as [[-> _] | [[-> _] | [-> _]]]; simpl.
  - auto.
  - auto.
  - repeat split; auto. right. exists "q". auto.
Qed.

(** ** The properties at work on the take-away game *)

Lemma assignSeat_idempotent_witness :
  exists c',
    assignSeat (Toy.duo_room 5) "8" = (Toy.duo_room 5, mkSeatReply true (Some c') None)
    /\ seated_as (Toy.duo_room 5) c' "8" = true
    /\ (seated_as (Toy.duo_room 5) (other Black) "8" = false -> c' = Black).
Proof.
  apply (assignSeat_idempotent (Toy.duo_room 5) "8" Black (mkSeat "8" Black));
    reflexivity.
Defined.

Lemma applyMove_failures_witness :
  applyMove Toy.ended_room "7" "a1a2" (Toy.seed 0)
  = (Toy.ended_room, Normal (mkMoveReply false (Some "Not playing")), Toy.seed 0)
  /\ applyMove (Toy.solo_room hard 5) "8" "a1a2" (Toy.seed 0)
     = (Toy.solo_room hard 5, Normal (mkMoveReply false (Some "Not your turn")), Toy.seed 0)
  /\ applyMove (Toy.solo_room hard 5) "7" "a1a3" (Toy.seed 0)
     = (Toy.solo_room hard 5, Throw "Invalid move", Toy.seed 0).
Proof.
  split; [|split].
  - apply (applyMove_failures Toy.ended_room "7" "a1a2" (Toy.seed 0) "Not playing").
    apply refused_not_playing. discriminate.
  - apply (applyMove_failures (Toy.solo_room hard 5) "8" "a1a2" (Toy.seed 0) "Not your turn").
    apply refused_not_your_turn; reflexivity.
  - apply (applyMove_failures (Toy.solo_room hard 5) "7" "a1a3" (Toy.seed 0) "Illegal move").
    apply refused_illegal; reflexivity.
Defined.


(** [startGame] on a room that is not in the lobby: the room is not left as
    it was. *)
Lemma startGame_outside_lobby :
  status Toy.ended_room <> lobby
  /\ startGame Toy.ended_room <> Toy.ended_room
  /\ status (startGame Toy.ended_room) = playing.
Proof.
  split; [discriminate|]. split; [discriminate | reflexivity].
Qed.

Lemma lobby_start_guarded_witness :
  onMessage Toy.duo_world "7" (UiAction LobbyStart) (Toy.seed 0)
  = (Toy.duo_world, Toy.seed 0)
  /\ onMessage Toy.lobby_world "7" (UiAction LobbyStart) (Toy.seed 0)
     = (mkWorld (started (room Toy.lobby_world)) (players Toy.lobby_world)
                (colors Toy.lobby_world), Toy.seed 0).
Proof.
  split.
  - destruct (lobby_start_guarded Toy.duo_world "7" (Toy.seed 0)) as (_ & H & _).
    apply H. discriminate.
  - destruct (lobby_start_guarded Toy.lobby_world "7" (Toy.seed 0)) as (_ & _ & _ & H).
    apply H; [reflexivity|]. right. reflexivity.
Defined.

Lemma leftWorld_duo_playing_witness :
  seated_as (room Toy.duo_world) White "9" = false
  /\ seated_as (room Toy.duo_world) Black "9" = false
  /\ room (leftWorld Toy.duo_world "9") = disconnected (Toy.duo_room 5).
Proof.
  split; [reflexivity|]. split; [reflexivity|].
  apply (leftWorld_duo_playing Toy.duo_world "9"); reflexivity.
Defined.

Lemma search_restores_position_witness :
  snd (fst (chooseAiMove_run (fen (Toy.pos Black 4 [1])) Black hard (Toy.seed 0)))
  = loadFen (fen (Toy.pos Black 4 [1]))
  /\ forall (depth : nat) (c : Chess) (g' : Rng) (a b : Score),
       snd (fst (minimax depth c g' a b Black)) = c.
Proof.
  apply (search_restores_position toy_legal_moves_accepted toy_undo_move toy_sort_permutes).
Defined.

Lemma minimax_full_window_exact_witness :
  score (fst (fst (minimax 3 (Toy.pos White 5 []) (Toy.seed 1) NegInf PosInf White)))
  = plain_minimax 3 (Toy.pos White 5 []) White.
Proof.
  apply (minimax_full_window_exact toy_legal_moves_accepted toy_undo_move toy_sort_permutes
           toy_moves_available).
Defined.

Lemma chooseAiMove_legal_witness :
  exists m,
    In m (moves (loadFen (fen (Toy.pos Black 4 [1]))))
    /\ chooseAiMove (fen (Toy.pos Black 4 [1])) Black medium (Toy.seed 0)
       = Normal (Some (uci_of m)).
Proof.
  apply (chooseAiMove_legal toy_sort_permutes toy_moves_available toy_index_below
           (fen (Toy.pos Black 4 [1])) Black medium (Toy.seed 0)); reflexivity.
Defined.


Lemma solo_reply_witness :
  exists m m2 c2 g',
    In m (moves (Toy.pos Black 4 [1]))
    /\ chooseAiMove (fen (Toy.pos Black 4 [1])) Black hard (Toy.seed 0)
       = Normal (Some (uci_of m))
    /\ move (Toy.pos Black 4 [1]) (req_of_move m) = Some (m2, c2)
    /\ applyMove (Toy.solo_room hard 5) "7" "a1a2" (Toy.seed 0)
       = (maybeFinalize
            (set_lastMove
               (set_chess
                  (set_lastMove (set_chess (Toy.solo_room hard 5) (Toy.pos Black 4 [1]))
                                (Some (uci_of Toy.take1)))
                  c2)
               (Some (uci_of m2))),
          Normal accept, g')
    /\ chess (fst (fst (applyMove (Toy.solo_room hard 5) "7" "a1a2" (Toy.seed 0)))) = c2
    /\ turn c2 = White.
Proof.
  apply (solo_reply toy_legal_moves_accepted toy_sort_permutes toy_moves_available
           toy_index_below toy_move_passes_turn toy_fen_turn toy_fen_over toy_fen_moves
           toy_move_format
           (Toy.solo_room hard 5) "7" "a1a2" (Toy.seed 0) Toy.take1 (Toy.pos Black 4 [1]));
    reflexivity.
Defined.

(** ** A few runs of the model *)

(** At the easy level the computer captures when it can: after White
    takes one token of five, Black takes two ("b1b2"). *)
Example easy_reply_captures :
  lastMove (fst (fst (applyMove (Toy.solo_room easy 5) "7" "a1a2" (Toy.seed 0))))
  = Some "b1b2".
Proof. reflexivity. Qed.

(** With two captures to choose from, the four values the counter gives
    to [Math.random()] fall evenly on the two: 0 and 1/4 take the first,
    1/2 and 3/4 the second. *)
Example easy_draws_spread :
  map (fun g => chooseAiMove (fen (Toy.pos Black 4 [1])) Black easy (Toy.seed g))
      [0; 1; 2; 3]
  = [Normal (Some "b1b2"); Normal (Some "b1b2");
     Normal (Some "c7c8q"); Normal (Some "c7c8q")]
  /\ draws_of 4 2 0 = 2 /\ draws_of 4 2 1 = 2.
Proof. repeat split. Qed.

(** At the hard level the computer mates when it can: after White takes
    three tokens of five, Black takes the last two and wins. *)
Example hard_reply_mates :
  let r := fst (fst (applyMove (Toy.solo_room hard 5) "7" "c7c8q" (Toy.seed 1))) in
  status r = ended /\ winner r = Some Black /\ endReason r = Some "checkmate"
  /\ lastMove r = Some "b1b2".
Proof. repeat split. Qed.

(** A move that mates leaves the computer no turn. *)
Example human_mate_ends :
  let r := fst (fst (applyMove (Toy.solo_room hard 1) "7" "a1a2" (Toy.seed 1))) in
  status r = ended /\ winner r = Some White /\ chess r = Toy.pos Black 0 [1].
Proof. repeat split. Qed.

(** The search and plain minimax on a pile of five, and the object after
    the search. *)
Example search_of_five :
  minimax 3 (Toy.pos White 5 []) (Toy.seed 0) NegInf PosInf White
  = (mkResult (Fin 100000) (Some "a1a2"), Toy.pos White 5 [], Toy.seed 8)
  /\ plain_minimax 3 (Toy.pos White 5 []) White = Fin 100000.
Proof. split; reflexivity. Qed.

(** Two players join the lobby of a fresh server, choose duo, White starts,
    and Black leaves in the middle of the game. *)
Example duo_session :
  let w := fst (run [Joined "7"; Joined "8";
                     Message "7" (UiAction (LobbySet (Some duo) None));
                     Message "7" (UiAction LobbyStart);
                     Message "7" (UiAction (GameMove "a1a2"));
                     Left "8"] boot (Toy.seed 0)) in
  status (room w) = ended /\ winner (room w) = None
  /\ endReason (room w) = Some "opponent disconnected"
  /\ lastMove (room w) = Some "a1a2"
  /\ players w = ["7"].
Proof. repeat split. Qed.

(** ** The further properties at work on the take-away game *)

Lemma toy_over_def (c : Chess) :
  isGameOver c = isCheckmate c || isStalemate c || isDraw c.
Proof. simpl. unfold Toy.t_over. now rewrite orb_false_r. Qed.

Lemma toy_insufficient_draws (c : Chess) :
  isInsufficientMaterial c = true -> isDraw c = true.
Proof. auto. Qed.

Lemma toy_threefold_draws (c : Chess) :
  isThreefoldRepetition c = true -> isDraw c = true.
Proof. discriminate. Qed.

Lemma toy_start_not_over : isGameOver newChess = false.
Proof. reflexivity. Qed.

Lemma toy_white_starts : turn newChess = White.
Proof. reflexivity. Qed.

Lemma assignSeat_reply_sound_witness :
  (sr_ok (seat_refused "Room full") = true ->
     sr_reason (seat_refused "Room full") = None
     /\ exists c, sr_color (seat_refused "Room full") = Some c
                  /\ seated_as (Toy.duo_room 5) c "9" = true)
  /\ (sr_ok (seat_refused "Room full") = false ->
      Toy.duo_room 5 = Toy.duo_room 5 /\ sr_color (seat_refused "Room full") = None
      /\ (sr_reason (seat_refused "Room full") = Some "Room already has a solo player."
          \/ sr_reason (seat_refused "Room full") = Some "Room full")).
Proof.
  apply (assignSeat_reply_sound (Toy.duo_room 5) (Toy.duo_room 5) "9"
           (seat_refused "Room full")).
  reflexivity.
Defined.

Lemma assignSeat_duo_order_witness :
  let r := set_seats (Toy.duo_room 5) no_seats in
  let r1 := set_seats r (mkSeats (Some (mkSeat "7" White)) None) in
  let r2 := set_seats r (mkSeats (Some (mkSeat "7" White)) (Some (mkSeat "8" Black))) in
  assignSeat r "7" = (r1, seat_ok White)
  /\ assignSeat r1 "8" = (r2, seat_ok Black)
  /\ assignSeat r2 "9" = (r2, seat_refused "Room full")
  /\ (status r = lobby -> canStart r1 = false /\ canStart r2 = true).
Proof.
  apply (assignSeat_duo_order (set_seats (Toy.duo_room 5) no_seats) "7" "8" "9");
    first [reflexivity | discriminate].
Defined.

Lemma assignSeat_solo_pair_witness :
  let r := set_seats (Toy.solo_room easy 5) no_seats in
  let r1 := set_seats r (mkSeats (Some (mkSeat "7" White)) (Some (mkSeat "AI" Black))) in
  assignSeat r "7" = (r1, seat_ok White)
  /\ assignSeat r1 "8" = (r1, seat_refused "Room already has a solo player.")
  /\ (status r = lobby -> canStart r1 = true).
Proof.
  apply (assignSeat_solo_pair (set_seats (Toy.solo_room easy 5) no_seats) "7" "8");
    first [reflexivity | discriminate].
Defined.

Lemma getStatus_terminal_witness :
  getStatus (Toy.solo_room easy 7) = gs_draw
  <-> isGameOver (chess (Toy.solo_room easy 7)) = true
      /\ isCheckmate (chess (Toy.solo_room easy 7)) = false
      /\ isStalemate (chess (Toy.solo_room easy 7)) = false.
Proof.
  apply (getStatus_terminal toy_over_def toy_insufficient_draws toy_threefold_draws
           (Toy.solo_room easy 7)).
Defined.

Lemma lobby_snapshot_witness :
  buildUiStateFor (room Toy.lobby_world) Black = LobbyScreen duo easy false.
Proof.
  apply (lobby_snapshot (room Toy.lobby_world) Black). reflexivity.
Defined.

Lemma end_snapshot_witness :
  buildUiStateFor (maybeFinalize (Toy.solo_room easy 7)) White
  = EndScreen result_draw "insufficient material".
Proof.
  apply (end_snapshot toy_game_over_cases (Toy.solo_room easy 7) White); reflexivity.
Defined.

Lemma applyMove_duo_witness :
  exists r',
    applyMove (Toy.duo_room 5) "7" "a1a2" (Toy.seed 0) = (r', Normal accept, Toy.seed 0)
    /\ chess r' = Toy.pos Black 4 [1]
    /\ lastMove r' = Some (uci_of Toy.take1)
    /\ (status r' = ended <-> isGameOver (Toy.pos Black 4 [1]) = true)
    /\ (status r' = playing <-> isGameOver (Toy.pos Black 4 [1]) = false).
Proof.
  apply (applyMove_duo (Toy.duo_room 5) "7" "a1a2" (Toy.seed 0) Toy.take1
           (Toy.pos Black 4 [1])); reflexivity.
Defined.

Lemma duo_players_alternate_witness :
  exists reason,
    applyMove (fst (fst (applyMove (Toy.duo_room 5) "7" "a1a2" (Toy.seed 0))))
              "7" "b1b2" (Toy.seed 3)
    = (fst (fst (applyMove (Toy.duo_room 5) "7" "a1a2" (Toy.seed 0))),
       Normal (refuse reason), Toy.seed 3)
    /\ (reason = "Not playing" \/ reason = "Not your turn").
Proof.
  apply (duo_players_alternate toy_move_passes_turn (Toy.duo_room 5)
           (fst (fst (applyMove (Toy.duo_room 5) "7" "a1a2" (Toy.seed 0))))
           "7" "a1a2" (Toy.seed 0) (Toy.seed 0) accept); reflexivity.
Defined.

Lemma session_playing_ready_witness :
  playing_ready
    (room (fst (run [Joined "7"; Message "7" (UiAction LobbyStart);
                     Message "7" (UiAction (GameMove "a1a2"))] boot (Toy.seed 0)))).
Proof. apply (session_playing_ready toy_start_not_over). Defined.

Lemma search_zero_sum_witness :
  score (fst (fst (minimax 3 (Toy.pos White 5 []) (Toy.seed 0) NegInf PosInf (other White))))
  = sneg (score (fst (fst (minimax 3 (Toy.pos White 5 []) (Toy.seed 1) NegInf PosInf White)))).
Proof.
  apply (search_zero_sum toy_legal_moves_accepted toy_undo_move toy_sort_permutes).
Defined.

Lemma minimax_window_sound_witness :
  let res := minimax 2 (Toy.pos White 5 []) (Toy.seed 0) (Fin 0) (Fin 1000) White in
  let s := score (fst (fst res)) in
  let v := plain_minimax 2 (Toy.pos White 5 []) White in
  snd (fst res) = Toy.pos White 5 []
  /\ (Slt (Fin 0) v -> Slt v (Fin 1000) -> s = v)
  /\ (Sle v (Fin 0) -> Sle s (Fin 0) /\ Sle v s)
  /\ (Sle (Fin 1000) v -> Sle (Fin 1000) s /\ Sle s v).
Proof.
  apply (minimax_window_sound toy_legal_moves_accepted toy_undo_move toy_sort_permutes
           2 (Toy.pos White 5 []) (Toy.seed 0) (Fin 0) (Fin 1000) White).
  reflexivity.
Defined.

Lemma chooseAiMove_optimal_witness :
  let c := loadFen (fen (Toy.pos Black 4 [1])) in
  exists m,
    In m (moves c)
    /\ chooseAiMove (fen (Toy.pos Black 4 [1])) Black hard (Toy.seed 0)
       = Normal (Some (uci_of m))
    /\ plain_minimax 2 (after c m) Black = plain_minimax 3 c Black
    /\ forall m', In m' (moves c) ->
         Sle (plain_minimax 2 (after c m') Black) (plain_minimax 2 (after c m) Black).
Proof.
  apply (chooseAiMove_optimal toy_legal_moves_accepted toy_undo_move toy_sort_permutes
           toy_moves_available (fen (Toy.pos Black 4 [1])) Black hard (Toy.seed 0));
    first [reflexivity | discriminate].
Defined.

Lemma mate_in_one_not_missed_witness :
  let c := loadFen (fen (Toy.pos Black 2 [])) in
  exists m,
    In m (moves c)
    /\ chooseAiMove (fen (Toy.pos Black 2 [])) Black medium (Toy.seed 0)
       = Normal (Some (uci_of m))
    /\ plain_minimax 1 (after c m) Black = Fin 100000.
Proof.
  apply (mate_in_one_not_missed toy_legal_moves_accepted toy_undo_move toy_sort_permutes
           toy_moves_available (fen (Toy.pos Black 2 [])) Black medium (Toy.seed 0)
           Toy.take2); try reflexivity; try discriminate.
  - right. left. reflexivity.
  - intros m [<- | [<- | []]]; reflexivity.
Defined.

Lemma session_solo_white_witness :
  solo_white_to_move
    (room (fst (run [Joined "7"; Message "7" (UiAction LobbyStart);
                     Message "7" (UiAction (GameMove "a1a2"))] boot (Toy.seed 0)))).
Proof.
  apply (session_solo_white toy_legal_moves_accepted toy_sort_permutes toy_moves_available
           toy_index_below toy_move_passes_turn toy_fen_turn toy_fen_over toy_fen_moves
           toy_move_format toy_white_starts).
Defined.

Lemma applyMove_not_ok_witness :
  Toy.solo_room hard 5 = Toy.solo_room hard 5 /\ Toy.seed 0 = Toy.seed 0
  /\ exists reason,
       MoveRefused (Toy.solo_room hard 5) "8" "a1a2" reason
       /\ mr_reason (refuse "Not your turn") = Some reason
       /\ reason <> "Illegal move".
Proof.
  apply (applyMove_not_ok (Toy.solo_room hard 5) (Toy.solo_room hard 5) "8" "a1a2"
           (Toy.seed 0) (Toy.seed 0) (refuse "Not your turn")); reflexivity.
Defined.

Lemma lobby_set_reseats_witness :
  let w' := fst (onMessage Toy.lobby_world "9" (UiAction (LobbySet None (Some hard)))
                   (Toy.seed 0)) in
  seats (room w') = mkSeats (Some (mkSeat "7" White)) (Some (mkSeat "8" Black))
  /\ colors w' !! "7" = Some White /\ colors w' !! "8" = Some Black
  /\ (forall q, In q ["9"] -> colors w' !! q = None)
  /\ status (room w') = lobby /\ canStart (room w') = true.
Proof.
  destruct (lobby_set_reseats Toy.lobby_world "9" (Toy.seed 0) None (Some hard))
    as [H _].
  - reflexivity.
  - apply (bool_decide_unpack _). reflexivity.
  - apply (H "7" "8" ["9"]); reflexivity.
Defined.

(** The session of the two examples above, looked at through the
    snapshot: both players are told the game has ended in a draw because
    the opponent has disconnected. *)
Example duo_session_snapshot :
  let w := fst (run [Joined "7"; Joined "8";
                     Message "7" (UiAction (LobbySet (Some duo) None));
                     Message "7" (UiAction LobbyStart);
                     Message "7" (UiAction (GameMove "a1a2"));
                     Left "8"] boot (Toy.seed 0)) in
  buildUiStateFor (room w) White = EndScreen result_draw "opponent disconnected"
  /\ colors w !! "7" = Some White /\ colors w !! "8" = None
  /\ seat_b (seats (room w)) = Some (mkSeat "8" Black).
Proof. repeat split. Qed.
